(** * QR Video RAG: a shallow embedding of the encoder, the in-memory
    vector adapter and the retriever, with the properties of the design
    specification stated and settled against the embedded code.

    Sources embedded here:
    - [qr-video-rag/src/types.ts]      (records)
    - [qr-video-rag/src/encoder.ts]    (module [Encoder])
    - [qr-video-rag/src/adapters]      (module [Adapters], in-memory store)
    - [qr-video-rag/src/retriever.ts]  (module [Retriever])

    JavaScript numbers that count characters, frames or entries are
    integers of [Z]; embeddings and similarities are binary64 floats, which
    is what a JavaScript number is.  Strings are sequences of code units. *)

From Stdlib Require Import ZArith Lia List String Ascii Floats.
From stdpp Require Import base list strings gmap pretty.

Open Scope string_scope.
Open Scope list_scope.
Open Scope Z_scope.

(* ===================================================================== *)
(** * Outcomes of calls and a state monad over them                       *)
(* ===================================================================== *)

(** A JavaScript [Error] carrying its message. *)
Inductive JsError : Type :=
| Error (message : string).

(** What a (possibly asynchronous) call does: it returns a value, it throws
    (a promise rejects), or it never comes back. *)
Inductive outcome (A : Type) : Type :=
| Returned (a : A)
| Thrown (e : JsError)
| Hangs.
Arguments Returned {A} a.
Arguments Thrown {A} e.
Arguments Hangs {A}.

(** Stateful computations: the state is threaded through, also when the
    computation throws. *)
Definition M (S A : Type) : Type := S -> S * outcome A.

Definition ret {S A} (a : A) : M S A := fun s => (s, Returned a).

Definition throw {S A} (e : JsError) : M S A := fun s => (s, Thrown e).

Definition bind {S A B} (m : M S A) (k : A -> M S B) : M S B :=
  fun s =>
    match m s with
    | (s1, Returned a) => k a s1
    | (s1, Thrown e) => (s1, Thrown e)
    | (s1, Hangs) => (s1, Hangs)
    end.

Definition gets {S A} (f : S -> A) : M S A := fun s => (s, Returned (f s)).

Definition modify {S} (f : S -> S) : M S unit := fun s => (f s, Returned tt).

(** Lift a call whose outcome does not depend on the state. *)
Definition liftO {S A} (o : outcome A) : M S A := fun s => (s, o).

(** [try { body } finally { fin }]: [fin] runs after [body] has returned or
    thrown; the outcome is the one of [body] unless [fin] itself fails. *)
Definition try_finally {S A} (body : M S A) (fin : M S unit) : M S A :=
  fun s =>
    match body s with
    | (s1, Hangs) => (s1, Hangs)
    | (s1, r) =>
        match fin s1 with
        | (s2, Returned _) => (s2, r)
        | (s2, Thrown e) => (s2, Thrown e)
        | (s2, Hangs) => (s2, Hangs)
        end
    end.

Notation "'let*' x ':=' m 'in' k" := (bind m (fun x => k))
  (at level 10, x name, m at level 100, k at level 200, only parsing).
Notation "'do*' m 'in' k" := (bind m (fun _ => k))
  (at level 10, m at level 100, k at level 200, only parsing).

(** [if (c) { m }] *)
Definition when {S} (c : bool) (m : M S unit) : M S unit :=
  if c then m else ret tt.

(** ** What a computation may do, from any state *)

(** It comes back: it returns or throws. *)
Definition no_hang {S A} (m : M S A) : Prop :=
  forall s, snd (m s) <> Hangs.

(* ===================================================================== *)
(** * JavaScript helpers                                                  *)
(* ===================================================================== *)

Definition str_length (s : string) : Z := Z.of_nat (String.length s).

(** [s.substring(a, b)]: both arguments are clamped to [0, s.length] and
    swapped when the first is the larger. *)
Definition clamp (len x : Z) : Z := Z.max 0 (Z.min x len).

Definition substring (s : string) (a b : Z) : string :=
  let a' := clamp (str_length s) a in
  let b' := clamp (str_length s) b in
  let lo := Z.min a' b' in
  let hi := Z.max a' b' in
  String.substring (Z.to_nat lo) (Z.to_nat (hi - lo)) s.

(** Truthiness of a string: the empty string is falsy. *)
Definition truthy (s : string) : bool :=
  match s with
  | EmptyString => false
  | String _ _ => true
  end.

(** [x || 0] on an optional number: [undefined], [NaN] and zero give 0. *)
Definition or_zero (x : option float) : float :=
  match x with
  | None => 0%float
  | Some v => if (PrimFloat.is_nan v || PrimFloat.is_zero v)%bool then 0%float else v
  end.

(** [n.toString().padStart(w, '0')] *)
Definition padStart0 (w : nat) (s : string) : string :=
  string_of_list_ascii (replicate (w - String.length s) "0"%char) +:+ s.

(** A [Buffer] of bytes. *)
Definition Buffer : Type := list Byte.byte.

(** ** The insertion-ordered [Map<string, string>]

    A JavaScript [Map] iterates in insertion order; [set] on a key that is
    present replaces the value in place, [get] changes nothing. *)
Module JsMap.

Definition t : Type := list (string * string).

Definition empty : t := [].

Definition size (m : t) : Z := Z.of_nat (length m).

Fixpoint get (m : t) (k : string) : option string :=
  match m with
  | [] => None
  | (k', v) :: m' => if String.eqb k' k then Some v else get m' k
  end.

Fixpoint set (m : t) (k v : string) : t :=
  match m with
  | [] => [(k, v)]
  | (k', v') :: m' =>
      if String.eqb k' k then (k', v) :: m' else (k', v') :: set m' k v
  end.

Fixpoint delete (m : t) (k : string) : t :=
  match m with
  | [] => []
  | (k', v') :: m' =>
      if String.eqb k' k then m' else (k', v') :: delete m' k
  end.

(** [m.keys().next().value] *)
Definition first_key (m : t) : option string :=
  match m with
  | [] => None
  | (k, _) :: _ => Some k
  end.

Definition keys (m : t) : list string := map fst m.

End JsMap.

(* ===================================================================== *)
(** * types.ts                                                            *)
(* ===================================================================== *)

(** Values of a [Record<string, any>]. *)
Inductive JsValue : Type :=
| VNum (n : Z)
| VStr (s : string)
| VBool (b : bool).

Definition Metadata : Type := gmap string JsValue.

Inductive ECLevel : Type := ECL_L | ECL_M | ECL_Q | ECL_H.

(** [QRVideoStoreConfig]: every field is optional. *)
Record QRVideoStoreConfig : Type := {
  opt_chunkSize : option Z;
  opt_chunkOverlap : option Z;
  opt_videoFps : option Z;
  opt_qrErrorCorrectionLevel : option ECLevel;
  opt_videoResolution : option (Z * Z);
  opt_verbose : option bool
}.

(** The encoder's resolved configuration ([Required<...>]). *)
Record Config : Type := {
  chunkSize : Z;
  chunkOverlap : Z;
  videoFps : Z;
  qrErrorCorrectionLevel : ECLevel;
  videoResolution : Z * Z;
  verbose : bool
}.

Record Chunk : Type := {
  text : string;
  index : Z;
  metadata : Metadata
}.

Record QRVideoStoreIndexEntry : Type := {
  chunkText_ : string;
  embedding : list float;
  frameNumber : Z;
  documentId : string;
  similarity : option float;
  entry_metadata : Metadata
}.

Record SearchResult : Type := {
  sr_text : string;
  sr_similarity : float;
  sr_frameNumber : Z;
  sr_documentId : string;
  sr_metadata : Metadata
}.

Record VideoBuildOptions : Type := {
  codec : option string;
  pixelFormat : option string;
  ffmpegOptions : option (list string)
}.

(** The [Embedder] interface. *)
Record Embedder : Type := {
  embed : string -> outcome (list float)
}.

(** The [VectorDatabase] interface over a store of type [D]. *)
Record VectorDatabase (D : Type) : Type := {
  upsert : list QRVideoStoreIndexEntry -> M D unit;
  search : list float -> Z -> M D (list QRVideoStoreIndexEntry)
}.
Arguments upsert {D} _ _ _.
Arguments search {D} _ _ _ _.

(* ===================================================================== *)
(** * adapters: the in-memory vector database                             *)
(* ===================================================================== *)

Module Adapters.

(** The accumulating loop of [cosineSimilarity]: dot product and the two
    squared magnitudes. *)
Fixpoint cosine_loop (a b : list float) (dot magA magB : float)
  : float * float * float :=
  match a, b with
  | x :: a', y :: b' =>
      cosine_loop a' b' (dot + x * y)%float (magA + x * x)%float
        (magB + y * y)%float
  | _, _ => (dot, magA, magB)
  end.

Definition cosineSimilarity (a b : list float) : outcome float :=
  if negb (Nat.eqb (length a) (length b)) then
    Thrown (Error "Vectors must have same length")
  else
    let '(dotProduct, magA, magB) := cosine_loop a b 0%float 0%float 0%float in
    let magA := PrimFloat.sqrt magA in
    let magB := PrimFloat.sqrt magB in
    if (PrimFloat.eqb magA 0%float || PrimFloat.eqb magB 0%float)%bool then
      Returned 0%float
    else Returned (dotProduct / (magA * magB))%float.

Definition with_similarity (entry : QRVideoStoreIndexEntry) (s : float)
  : QRVideoStoreIndexEntry :=
  {| chunkText_ := chunkText_ entry;
     embedding := embedding entry;
     frameNumber := frameNumber entry;
     documentId := documentId entry;
     similarity := Some s;
     entry_metadata := entry_metadata entry |}.

(** [store.map(entry => ...)]: the first throwing callback aborts the map. *)
Fixpoint score_all (query : list float) (store : list QRVideoStoreIndexEntry)
  : outcome (list QRVideoStoreIndexEntry) :=
  match store with
  | [] => Returned []
  | entry :: rest =>
      match cosineSimilarity query (embedding entry) with
      | Returned s =>
          match score_all query rest with
          | Returned scored => Returned (with_similarity entry s :: scored)
          | Thrown e => Thrown e
          | Hangs => Hangs
          end
      | Thrown e => Thrown e
      | Hangs => Hangs
      end
  end.

(** The comparator [(a, b) => (b.similarity || 0) - (a.similarity || 0)]. *)
Definition by_similarity (a b : QRVideoStoreIndexEntry) : float :=
  (or_zero (similarity b) - or_zero (similarity a))%float.

(** [Array.prototype.sort] is stable: an element moves in front of another
    only when the comparator is positive. *)
Fixpoint sort_insert {A} (cmp : A -> A -> float) (x : A) (sorted : list A)
  : list A :=
  match sorted with
  | [] => [x]
  | y :: ys =>
      if PrimFloat.ltb 0%float (cmp y x) then x :: y :: ys
      else y :: sort_insert cmp x ys
  end.

Definition js_sort {A} (cmp : A -> A -> float) (l : list A) : list A :=
  fold_left (fun acc x => sort_insert cmp x acc) l [].

(** [l.slice(0, limit)]: a negative limit counts from the end. *)
Definition slice0 {A} (l : list A) (limit : Z) : list A :=
  let len := Z.of_nat (length l) in
  let stop := if (limit <? 0)%Z then Z.max (len + limit) 0 else Z.min limit len in
  take (Z.to_nat stop) l.

Abbreviation Store := (list QRVideoStoreIndexEntry) (only parsing).

(** The store of [createInMemoryAdapter(initialData)], a copy of the
    initial data, is the state the operations run on. *)
Definition inmem_upsert (entries : list QRVideoStoreIndexEntry) : M Store unit :=
  modify (fun store => store ++ entries).

Definition inmem_search (query : list float) (limit : Z)
  : M Store (list QRVideoStoreIndexEntry) :=
  let* store := gets (fun store => store) in
  if Nat.eqb (length store) 0 then ret []
  else
    let* results := liftO (score_all query store) in
    ret (slice0 (js_sort by_similarity results) limit).

Definition createInMemoryAdapter : VectorDatabase Store :=
  {| upsert := inmem_upsert; search := inmem_search |}.

(** ** delete and clear *)

(** [store.splice(index, 1)] *)
Definition splice1 {A} (index : nat) (l : list A) : list A :=
  take index l ++ drop (S index) l.

(** The first loop of [delete], [for (let i = store.length - 1; i >= 0; i--)],
    entered with [i] positions still to visit: the indices of the
    document's entries, highest first.  (Every [store[j]] read is inside
    the store.) *)
Fixpoint indices_to_remove (documentId_ : string)
  (store : list QRVideoStoreIndexEntry) (i : nat) : list nat :=
  match i with
  | O => []
  | S j =>
      match store !! j with
      | Some entry =>
          if String.eqb (documentId entry) documentId_ then
            j :: indices_to_remove documentId_ store j
          else indices_to_remove documentId_ store j
      | None => indices_to_remove documentId_ store j
      end
  end.

Definition inmem_delete (documentId_ : string) : M Store unit :=
  modify (fun store =>
    fold_left (fun st index => splice1 index st)
      (indices_to_remove documentId_ store (length store)) store).

(** [store.length = 0] *)
Definition inmem_clear : M Store unit := modify (fun _ => []).

End Adapters.

(* ===================================================================== *)
(** * encoder.ts                                                          *)
(* ===================================================================== *)

Module Encoder.

(** ** The world the encoder acts on *)

Inductive FsNode : Type :=
| Dir
| File (content : Buffer).

Record World (D : Type) : Type := {
  fs : gmap string FsNode;
  db : D
}.
Arguments fs {D} _.
Arguments db {D} _.

Definition set_fs {D} (f : gmap string FsNode -> gmap string FsNode)
  (w : World D) : World D :=
  {| fs := f (fs w); db := db w |}.

Record FfmpegCommand : Type := {
  ff_input : string;
  ff_inputFPS : Z;
  ff_outputOptions : list string;
  ff_output : string
}.

(** How one run of the video tool ends: the ['end'] event, or the
    ['error'] event with its message.  The tool is taken to end in one of
    the two. *)
Inductive FfmpegEvent : Type :=
| FfEnd
| FfError (message : string).

(** The collaborators outside the program: the process, the clock, the
    path and QR libraries, faults of the file system and the video tool,
    which may change the file system in any way before it ends.
    [rm_fault dir] is the error with which the recursive removal of [dir]
    rejects, if it does, and the paths it has removed by then.
    [embed_rejects_first text] settles the race of two rejections: when
    the QR library and the embedder both reject for [text], whether the
    embedder's rejection is the first to settle. *)
Record Externals : Type := {
  cwd : string;
  now : Z;
  dirname : string -> string;
  qr_toBuffer : string -> ECLevel -> Z -> outcome Buffer;
  embed_rejects_first : string -> bool;
  io_fault : string -> option JsError;
  rm_fault : string -> option (JsError * (string -> bool));
  ffmpeg_run : FfmpegCommand -> gmap string FsNode
               -> gmap string FsNode * FfmpegEvent
}.

(** [path.join(a, b)] on two plain segments. *)
Definition path_join (a b : string) : string := a +:+ "/" +:+ b.

(** ** The constructor *)

Definition new_QRVideoStoreEncoder (config : QRVideoStoreConfig)
  : outcome Config :=
  Returned
    {| chunkSize := default 500 (opt_chunkSize config);
       chunkOverlap := default 50 (opt_chunkOverlap config);
       videoFps := default 1 (opt_videoFps config);
       qrErrorCorrectionLevel :=
         default ECL_M (opt_qrErrorCorrectionLevel config);
       videoResolution := default (256, 256) (opt_videoResolution config);
       verbose := default false (opt_verbose config) |}.

(** ** chunkText *)

Definition position_metadata (i end_ : Z) : Metadata :=
  <["startPosition" := VNum i]> (<["endPosition" := VNum end_]> ∅).

(** The [while (i < text.length)] loop, with the iterations left as
    fuel: [None] is a loop that has not ended within the fuel. *)
Fixpoint chunkText_loop (fuel : nat) (cfg : Config) (text : string)
  (i : Z) (chunks : list Chunk) : option (list Chunk) :=
  if (i <? str_length text)%Z then
    match fuel with
    | O => None
    | S fuel' =>
        let end_ := Z.min (i + chunkSize cfg) (str_length text) in
        let chunkText := substring text i end_ in
        chunkText_loop fuel' cfg text
          (i + (chunkSize cfg - chunkOverlap cfg))
          (chunks ++ [ {| text := chunkText;
                          index := Z.of_nat (length chunks);
                          metadata := position_metadata i end_ |} ])
    end
  else Some chunks.

(** [chunkText] runs the loop for at most one iteration per character,
    which is all a loop that ends can take (see [chunkText_loop_adequate]);
    beyond that it never ends. *)
Definition chunkText (cfg : Config) (text : string) : outcome (list Chunk) :=
  match chunkText_loop (String.length text) cfg text 0 [] with
  | Some chunks => Returned chunks
  | None => Hangs
  end.

Section WithExternals.

Context {D : Type} (ext : Externals) (database : VectorDatabase D)
  (embedder : Embedder) (cfg : Config).

(** ** generateQrCode *)

Definition generateQrCode (text : string) : outcome Buffer :=
  qr_toBuffer ext text (qrErrorCorrectionLevel cfg) (fst (videoResolution cfg)).

(** ** File-system calls *)

Definition existsSync (p : string) : M (World D) bool :=
  gets (fun w => bool_decide (is_Some (fs w !! p))).

Definition mkdirSync (p : string) : M (World D) unit :=
  match io_fault ext p with
  | Some e => throw e
  | None => modify (set_fs (fun m => <[p := Dir]> m))
  end.

Definition writeFileSync (p : string) (data : Buffer) : M (World D) unit :=
  match io_fault ext p with
  | Some e => throw e
  | None => modify (set_fs (fun m => <[p := File data]> m))
  end.

(** Is [p] the directory [dir] or a path below it? *)
Definition under (dir p : string) : bool :=
  (String.eqb p dir || String.prefix (dir +:+ "/") p)%bool.

(** [await fs.promises.rm(dir, { recursive: true, force: true })]: it
    removes [dir] and all below it, or rejects after having removed some
    of it. *)
Definition rm_rf (dir : string) : M (World D) unit :=
  match rm_fault ext dir with
  | Some (e, removed) =>
      do* modify (set_fs (fun m =>
            filter (fun kv => (under dir (fst kv) && removed (fst kv))%bool = false)
              m)) in
      throw e
  | None =>
      modify (set_fs (fun m => filter (fun kv => under dir (fst kv) = false) m))
  end.

(** ** buildVideo and encodeVideo *)

Definition frame_name (i : Z) : string :=
  "frame_" +:+ padStart0 5 (pretty i) +:+ ".png".

(** The command [encodeVideo] builds before it runs it. *)
Definition ffmpeg_command (tempDir outputVideoPath : string)
  (options : option VideoBuildOptions) : FfmpegCommand :=
  let '(width, height) := videoResolution cfg in
  let codec_ := default "libx264" (options ≫= codec) in
  let pixelFormat_ := default "yuv420p" (options ≫= pixelFormat) in
  {| ff_input := path_join tempDir "frame_%05d.png";
     ff_inputFPS := videoFps cfg;
     ff_outputOptions :=
       [ "-c:v " +:+ codec_;
         "-pix_fmt " +:+ pixelFormat_;
         "-r " +:+ pretty (videoFps cfg);
         "-vf scale=" +:+ pretty width +:+ ":" +:+ pretty height
           +:+ ":force_original_aspect_ratio=decrease,pad="
           +:+ pretty width +:+ ":" +:+ pretty height
           +:+ ":(ow-iw)/2:(oh-ih)/2" ]
         ++ default [] (options ≫= ffmpegOptions);
     ff_output := outputVideoPath |}.

Definition encodeVideo (tempDir outputVideoPath : string)
  (options : option VideoBuildOptions) : M (World D) unit :=
  let command := ffmpeg_command tempDir outputVideoPath options in
  fun w =>
    match ffmpeg_run ext command (fs w) with
    | (fs', FfEnd) => (set_fs (fun _ => fs') w, Returned tt)
    | (fs', FfError msg) =>
        (set_fs (fun _ => fs') w, Thrown (Error ("FFmpeg error: " +:+ msg)))
    end.

(** [for (let i = 0; i < qrCodeBuffers.length; i++) writeFileSync(...)] *)
Fixpoint write_frames (tempDir : string) (i : Z) (buffers : list Buffer)
  : M (World D) unit :=
  match buffers with
  | [] => ret tt
  | b :: rest =>
      do* writeFileSync (path_join tempDir (frame_name i)) b in
      write_frames tempDir (i + 1) rest
  end.

Definition temp_dir : string :=
  path_join (cwd ext) ("temp_qr_frames_" +:+ pretty (now ext)).

(** The [try] block of [buildVideo] up to the call of [encodeVideo]: the
    frames are written and the output directory is there. *)
Definition write_inputs (qrCodeBuffers : list Buffer) (outputVideoPath : string)
  : M (World D) unit :=
  let tempDir := temp_dir in
  let* there := existsSync tempDir in
  do* when (negb there) (mkdirSync tempDir) in
  do* write_frames tempDir 0 qrCodeBuffers in
  let outputDir := dirname ext outputVideoPath in
  let* there := existsSync outputDir in
  when (negb there) (mkdirSync outputDir).

Definition buildVideo (qrCodeBuffers : list Buffer) (outputVideoPath : string)
  (options : option VideoBuildOptions) : M (World D) unit :=
  let tempDir := temp_dir in
  try_finally
    (let* there := existsSync tempDir in
     do* when (negb there) (mkdirSync tempDir) in
     do* write_frames tempDir 0 qrCodeBuffers in
     let outputDir := dirname ext outputVideoPath in
     let* there := existsSync outputDir in
     do* when (negb there) (mkdirSync outputDir) in
     encodeVideo tempDir outputVideoPath options)
    (let* there := existsSync tempDir in
     when there (rm_rf tempDir)).

(** ** addDocument *)

(** [await Promise.all([p, q])]: a rejection wins over a pending
    promise; of two rejections the one that settles first is reported,
    the second listed when [second_first] holds. *)
Definition promise_all2 {A B} (second_first : bool) (p : outcome A)
  (q : outcome B) : outcome (A * B) :=
  match p, q with
  | Thrown e1, Thrown e2 => Thrown (if second_first then e2 else e1)
  | Thrown e, _ => Thrown e
  | _, Thrown e => Thrown e
  | Returned a, Returned b => Returned (a, b)
  | _, _ => Hangs
  end.

(** [{ ...a, ...b }]: the keys of [b] win. *)
Definition spread (a : Metadata) (b : option Metadata) : Metadata :=
  default ∅ b ∪ a.

(** The [for] loop of [addDocument] over the chunks, accumulating the
    QR buffers and the index entries. *)
Fixpoint process_chunks (documentId_ : string) (meta : option Metadata)
  (chunks : list Chunk) (qrCodeBuffers : list Buffer)
  (indexEntries : list QRVideoStoreIndexEntry)
  : outcome (list Buffer * list QRVideoStoreIndexEntry) :=
  match chunks with
  | [] => Returned (qrCodeBuffers, indexEntries)
  | chunk :: rest =>
      match promise_all2 (embed_rejects_first ext (text chunk))
              (generateQrCode (text chunk))
              (embed embedder (text chunk)) with
      | Returned (qrCodeBuffer, embedding_) =>
          process_chunks documentId_ meta rest
            (qrCodeBuffers ++ [qrCodeBuffer])
            (indexEntries ++
               [ {| chunkText_ := text chunk;
                    embedding := embedding_;
                    frameNumber := index chunk;
                    documentId := documentId_;
                    similarity := None;
                    entry_metadata := spread (metadata chunk) meta |} ])
      | Thrown e => Thrown e
      | Hangs => Hangs
      end
  end.

Definition liftDb {A} (m : M D A) : M (World D) A :=
  fun w =>
    let '(d', r) := m (db w) in
    ({| fs := fs w; db := d' |}, r).

Definition addDocument (documentId_ documentText outputVideoPath : string)
  (meta : option Metadata) : M (World D) unit :=
  let* chunks := liftO (chunkText cfg documentText) in
  let* processed := liftO (process_chunks documentId_ meta chunks [] []) in
  let '(qrCodeBuffers, indexEntries) := processed in
  do* buildVideo qrCodeBuffers outputVideoPath None in
  liftDb (upsert database indexEntries).

End WithExternals.

(** A computation that leaves the database as it found it. *)
Definition keeps_db {D A} (m : M (World D) A) : Prop :=
  forall w, db (fst (m w)) = db w.

(** How an index entry relates to the chunk it was made from: it carries
    the chunk's text and index, the document's id, the embedding of the
    text, no similarity, and the chunk's metadata under the caller's. *)
Definition entry_of_chunk (embedder : Embedder) (docId : string)
  (meta : option Metadata) (c : Chunk) (e : QRVideoStoreIndexEntry) : Prop :=
  chunkText_ e = text c /\
  frameNumber e = index c /\
  documentId e = docId /\
  embed embedder (text c) = Returned (embedding e) /\
  similarity e = None /\
  forall key : string,
    entry_metadata e !! key
    = match default ∅ meta !! key with
      | Some v => Some v
      | None => metadata c !! key
      end.

(** ** addDocumentsBatch *)

Record BatchDocument : Type := {
  bd_documentId : string;
  bd_documentText : string;
  bd_outputVideoPath : string;
  bd_metadata : option Metadata
}.

Section Batch.

Context {D : Type} (ext : Externals) (database : VectorDatabase D)
  (embedder : Embedder) (cfg : Config).

(** [for (const doc of documents) await this.addDocument(...)] *)
Fixpoint addDocumentsBatch (documents : list BatchDocument) : M (World D) unit :=
  match documents with
  | [] => ret tt
  | doc :: rest =>
      do* addDocument ext database embedder cfg (bd_documentId doc)
            (bd_documentText doc) (bd_outputVideoPath doc) (bd_metadata doc) in
      addDocumentsBatch rest
  end.

End Batch.

End Encoder.

(* ===================================================================== *)
(** * retriever.ts                                                        *)
(* ===================================================================== *)

Module Retriever.

(** The calls the retriever makes to its collaborators, in the order it
    makes them. *)
Inductive Call : Type :=
| CallEmbed (query : string)
| CallIndexSearch (limit : Z)
| CallExistsSync (videoPath : string)
| CallFfmpeg (videoPath : string) (frame : Z)
| CallQrDecode (image : Buffer).

(** What reading a QR code from an image does: [Jimp.read] or [jsQR]
    throws, [jsQR] finds no code, or it yields the payload. *)
Inductive QrRead : Type :=
| QrThrows (e : JsError)
| QrNotFound
| QrData (data : string).

(** The collaborators outside the program.  [ffmpeg_frame] is the stream
    the video tool produced by its ['end'] event, or [None] when the tool
    or the stream reported an error. *)
Record Externals : Type := {
  fs_existsSync : string -> bool;
  ffmpeg_frame : string -> Z -> string -> option Buffer;
  qr_read : Buffer -> QrRead
}.

(** The retriever object, its database and the log of its calls. *)
Record State (D : Type) : Type := {
  database : D;
  r_verbose : bool;
  frameCache : JsMap.t;
  maxCacheSize : Z;
  calls : list Call
}.
Arguments database {D} _.
Arguments r_verbose {D} _.
Arguments frameCache {D} _.
Arguments maxCacheSize {D} _.
Arguments calls {D} _.

Record Options : Type := {
  opt_r_verbose : option bool;
  opt_maxCacheSize : option Z
}.

Definition new_QRVideoStoreRetriever {D} (db : D) (options : option Options)
  : State D :=
  {| database := db;
     r_verbose := default false (options ≫= opt_r_verbose);
     frameCache := JsMap.empty;
     maxCacheSize := default 50 (options ≫= opt_maxCacheSize);
     calls := [] |}.

Definition set_cache {D} (f : JsMap.t -> JsMap.t) (r : State D) : State D :=
  {| database := database r; r_verbose := r_verbose r;
     frameCache := f (frameCache r); maxCacheSize := maxCacheSize r;
     calls := calls r |}.

Definition log {D} (c : Call) : M (State D) unit :=
  modify (fun r =>
    {| database := database r; r_verbose := r_verbose r;
       frameCache := frameCache r; maxCacheSize := maxCacheSize r;
       calls := calls r ++ [c] |}).

Definition liftDb {D A} (m : M D A) : M (State D) A :=
  fun r =>
    let '(d', o) := m (database r) in
    ({| database := d'; r_verbose := r_verbose r;
        frameCache := frameCache r; maxCacheSize := maxCacheSize r;
        calls := calls r |}, o).

(** ** addToCache *)

Definition addToCache_map (maxSize : Z) (cache : JsMap.t) (key value : string)
  : JsMap.t :=
  let cache1 :=
    if (JsMap.size cache >=? maxSize)%Z then
      match JsMap.first_key cache with
      | Some firstKey =>
          if truthy firstKey then JsMap.delete cache firstKey else cache
      | None => cache
      end
    else cache in
  JsMap.set cache1 key value.

Definition addToCache {D} (key value : string) : M (State D) unit :=
  modify (fun r => set_cache (fun c => addToCache_map (maxCacheSize r) c key value) r).

Definition clearCache {D} : M (State D) unit :=
  modify (set_cache (fun _ => JsMap.empty)).

Definition getCacheStats {D} : M (State D) (Z * Z) :=
  gets (fun r => (JsMap.size (frameCache r), maxCacheSize r)).

Definition cache_key (videoPath : string) (frameNumber_ : Z) : string :=
  videoPath +:+ ":" +:+ pretty frameNumber_.

Section WithExternals.

Context {D : Type} (ext : Externals) (db : VectorDatabase D)
  (embedder : Embedder).

(** ** retrieveChunks *)

Definition retrieveChunks (query : string) (matchCount : option Z)
  : M (State D) (list QRVideoStoreIndexEntry) :=
  let matchCount := default 5 matchCount in
  do* log (CallEmbed query) in
  let* embedding_ := liftO (embed embedder query) in
  do* log (CallIndexSearch matchCount) in
  let* results := liftDb (search db embedding_ matchCount) in
  ret results.

(** ** extractFrameAsBuffer *)

Definition extractFrameAsBuffer (videoPath : string) (frameNumber_ : Z)
  (format : option string) : M (State D) (option Buffer) :=
  do* log (CallExistsSync videoPath) in
  if negb (fs_existsSync ext videoPath) then
    throw (Error ("Video file not found: " +:+ videoPath))
  else
    let format := default "png" format in
    do* log (CallFfmpeg videoPath frameNumber_) in
    match ffmpeg_frame ext videoPath frameNumber_ format with
    | Some buffer =>
        ret (if (Z.of_nat (length buffer) >? 0)%Z then Some buffer else None)
    | None => ret None
    end.

(** ** decodeQrCodeFromBuffer *)

Definition decodeQrCodeFromBuffer (imageBuffer : Buffer)
  : M (State D) (option string) :=
  do* log (CallQrDecode imageBuffer) in
  match qr_read ext imageBuffer with
  | QrData data => ret (Some data)
  | QrNotFound => ret None
  | QrThrows _ => ret None
  end.

(** ** search *)

Definition to_result (decodedText : string) (chunk : QRVideoStoreIndexEntry)
  : SearchResult :=
  {| sr_text := decodedText;
     sr_similarity := or_zero (similarity chunk);
     sr_frameNumber := frameNumber chunk;
     sr_documentId := documentId chunk;
     sr_metadata := entry_metadata chunk |}.

(** [!decodedText] for a [string | null | undefined]. *)
Definition falsy (t : option string) : bool :=
  match t with
  | Some s => negb (truthy s)
  | None => true
  end.

(** The body of the [for (const chunk of chunks)] loop up to the
    [results.push]: the text to push, or [None] where the body leaves
    through [continue]. *)
Definition decoded_text_for (videoPath : string)
  (chunk : QRVideoStoreIndexEntry) : M (State D) (option string) :=
  let cacheKey := cache_key videoPath (frameNumber chunk) in
  let* decodedText := gets (fun r => JsMap.get (frameCache r) cacheKey) in
  if falsy decodedText then
    let* frameBuffer :=
      extractFrameAsBuffer videoPath (frameNumber chunk) None in
    match frameBuffer with
    | None => ret None
    | Some frameBuffer =>
        let* decodedText := decodeQrCodeFromBuffer frameBuffer in
        match decodedText with
        | Some t =>
            if truthy t then
              do* addToCache cacheKey t in
              ret (Some t)
            else ret None
        | None => ret None
        end
    end
  else ret decodedText.

Fixpoint search_loop (videoPath : string)
  (chunks : list QRVideoStoreIndexEntry) (results : list SearchResult)
  : M (State D) (list SearchResult) :=
  match chunks with
  | [] => ret results
  | chunk :: rest =>
      let* decodedText := decoded_text_for videoPath chunk in
      match decodedText with
      | Some t => search_loop videoPath rest (results ++ [to_result t chunk])
      | None => search_loop videoPath rest results
      end
  end.

Definition search (query videoPath : string) (matchCount : option Z)
  : M (State D) (list SearchResult) :=
  let* chunks := retrieveChunks query matchCount in
  search_loop videoPath chunks [].

(** ** getFrameByNumber *)

Definition getFrameByNumber (videoPath : string) (frameNumber_ : Z)
  : M (State D) (option string) :=
  let cacheKey := cache_key videoPath frameNumber_ in
  let* cached := gets (fun r => JsMap.get (frameCache r) cacheKey) in
  if negb (falsy cached) then ret cached
  else
    let* frameBuffer := extractFrameAsBuffer videoPath frameNumber_ None in
    match frameBuffer with
    | None => ret None
    | Some frameBuffer =>
        let* decodedText := decodeQrCodeFromBuffer frameBuffer in
        do* when (negb (falsy decodedText))
              (addToCache cacheKey (default "" decodedText)) in
        ret decodedText
    end.

End WithExternals.

(** ** Conditions on a hit *)

(** The cache holds a text for the hit's frame that the lookup accepts. *)
Definition cached (cache : JsMap.t) (videoPath : string)
  (chunk : QRVideoStoreIndexEntry) : bool :=
  negb (falsy (JsMap.get cache (cache_key videoPath (frameNumber chunk)))).

(** What extracting and decoding a frame of an existing video yields:
    [None] when the extraction or the decoding fails. *)
Definition frame_text (ext : Externals) (videoPath : string) (frameNumber_ : Z)
  : option string :=
  match ffmpeg_frame ext videoPath frameNumber_ "png" with
  | Some buffer =>
      if (Z.of_nat (length buffer) >? 0)%Z then
        match qr_read ext buffer with
        | QrData data => Some data
        | QrNotFound => None
        | QrThrows _ => None
        end
      else None
  | None => None
  end.

(** The same collaborators, with a QR reader that finds no code where the
    given one reads an empty payload. *)
Definition empty_as_failure (ext : Externals) : Externals :=
  {| fs_existsSync := fs_existsSync ext;
     ffmpeg_frame := ffmpeg_frame ext;
     qr_read := fun image =>
       match qr_read ext image with
       | QrData data => if truthy data then QrData data else QrNotFound
       | other => other
       end |}.

(** Two retriever states that differ at most in the log of calls. *)
Definition same_cache {D} (r1 r2 : State D) : Prop :=
  frameCache r1 = frameCache r2 /\ maxCacheSize r1 = maxCacheSize r2.

(** ** searchMultiple and batchDecodeFrames *)

(** The [Map<number, string>] of [batchDecodeFrames], in insertion order. *)
Fixpoint frames_set (m : list (Z * string)) (k : Z) (v : string)
  : list (Z * string) :=
  match m with
  | [] => [(k, v)]
  | (k', v') :: m' =>
      if (k' =? k)%Z then (k', v) :: m' else (k', v') :: frames_set m' k v
  end.

Fixpoint frames_get (m : list (Z * string)) (k : Z) : option string :=
  match m with
  | [] => None
  | (k', v) :: m' => if (k' =? k)%Z then Some v else frames_get m' k
  end.

Section Multiple.

Context {D : Type} (ext : Externals) (db : VectorDatabase D)
  (embedder : Embedder).

(** The [for (const videoPath of videoPaths)] loop of [searchMultiple]. *)
Fixpoint searchMultiple_loop (query : string) (videoPaths : list string)
  (matchCountPerVideo : Z) (allResults : list SearchResult)
  : M (State D) (list SearchResult) :=
  match videoPaths with
  | [] => ret allResults
  | videoPath :: rest =>
      do* log (CallExistsSync videoPath) in
      if negb (fs_existsSync ext videoPath) then
        searchMultiple_loop query rest matchCountPerVideo allResults
      else
        let* results :=
          search ext db embedder query videoPath (Some matchCountPerVideo) in
        searchMultiple_loop query rest matchCountPerVideo (allResults ++ results)
  end.

(** The comparator [(a, b) => b.similarity - a.similarity]. *)
Definition by_result_similarity (a b : SearchResult) : float :=
  (sr_similarity b - sr_similarity a)%float.

Definition searchMultiple (query : string) (videoPaths : list string)
  (matchCountPerVideo : option Z) : M (State D) (list SearchResult) :=
  let matchCountPerVideo := default 5 matchCountPerVideo in
  let* allResults := searchMultiple_loop query videoPaths matchCountPerVideo [] in
  ret (Adapters.js_sort by_result_similarity allResults).

(** The [for (const frameNumber of frameNumbers)] loop of
    [batchDecodeFrames]. *)
Fixpoint batchDecodeFrames_loop (videoPath : string) (frameNumbers : list Z)
  (results : list (Z * string)) : M (State D) (list (Z * string)) :=
  match frameNumbers with
  | [] => ret results
  | frameNumber_ :: rest =>
      let* text_ := getFrameByNumber ext videoPath frameNumber_ in
      match text_ with
      | Some t =>
          if truthy t then
            batchDecodeFrames_loop videoPath rest (frames_set results frameNumber_ t)
          else batchDecodeFrames_loop videoPath rest results
      | None => batchDecodeFrames_loop videoPath rest results
      end
  end.

Definition batchDecodeFrames (videoPath : string) (frameNumbers : list Z)
  : M (State D) (list (Z * string)) :=
  batchDecodeFrames_loop videoPath frameNumbers [].

End Multiple.

(** ** Conditions on a cache *)

(** Every text the cache holds for a frame of the video is the non-empty
    text that frame decodes to. *)
Definition consistent (ext : Externals) (videoPath : string) (cache : JsMap.t)
  : Prop :=
  Forall (fun kv =>
            forall f, fst kv = cache_key videoPath f ->
                      frame_text ext videoPath f = Some (snd kv) /\
                      truthy (snd kv) = true)
    cache.

(** The text a hit on the frame yields: the non-empty text the frame
    decodes to, if any. *)
Definition expected_text (ext : Externals) (videoPath : string) (f : Z)
  : option string :=
  match frame_text ext videoPath f with
  | Some t => if truthy t then Some t else None
  | None => None
  end.

Definition expected_result (ext : Externals) (videoPath : string)
  (chunk : QRVideoStoreIndexEntry) : option SearchResult :=
  match expected_text ext videoPath (frameNumber chunk) with
  | Some t => Some (to_result t chunk)
  | None => None
  end.

(** The cache is within its capacity (one entry at least is always
    admitted) and none of its keys is the empty string. *)
Definition within_capacity {D} (r : State D) : Prop :=
  JsMap.size (frameCache r) <= Z.max 1 (maxCacheSize r) /\
  Forall (fun key => truthy key = true) (JsMap.keys (frameCache r)).

End Retriever.

(* ===================================================================== *)
(** * adapters: the self-contained embedders                              *)
(* ===================================================================== *)

Module Embedders.

(** ** simpleHash *)

(** [ToInt32]: the signed 32-bit integer congruent to [z]. *)
Definition to_int32 (z : Z) : Z :=
  (z + 2147483648) mod 4294967296 - 2147483648.

(** [str.charCodeAt(i)] *)
Definition charCodeAt (c : ascii) : Z := Z.of_nat (nat_of_ascii c).

(** The loop of [simpleHash]: [hash = ((hash << 5) - hash) + char], then
    [hash = hash & hash]. *)
Fixpoint simpleHash_loop (str : string) (hash : Z) : Z :=
  match str with
  | EmptyString => hash
  | String char rest =>
      let hash1 :=
        (to_int32 (Z.shiftl (to_int32 hash) 5) - hash) + charCodeAt char in
      simpleHash_loop rest (to_int32 hash1)
  end.

Definition simpleHash (str : string) : Z := Z.abs (simpleHash_loop str 0).

(** ** characterPatternHash *)

Definition in_range (lo hi : nat) (c : ascii) : bool :=
  (Nat.leb lo (nat_of_ascii c) && Nat.leb (nat_of_ascii c) hi)%bool.

(** [/[a-zA-Z]/] *)
Definition is_letter (c : ascii) : bool :=
  (in_range 97 122 c || in_range 65 90 c)%bool.

(** [/[0-9]/] *)
Definition is_number (c : ascii) : bool := in_range 48 57 c.

Definition is_space (c : ascii) : bool := Ascii.eqb c " "%char.

(** [/[.,!?;:]/] *)
Definition is_punctuation (c : ascii) : bool :=
  (Ascii.eqb c "."%char || Ascii.eqb c ","%char || Ascii.eqb c "!"%char
   || Ascii.eqb c "?"%char || Ascii.eqb c ";"%char || Ascii.eqb c ":"%char)%bool.

(** The counting loop: letters, numbers, spaces, punctuation. *)
Fixpoint pattern_loop (str : string) (letters numbers spaces punctuation : Z)
  : Z * Z * Z * Z :=
  match str with
  | EmptyString => (letters, numbers, spaces, punctuation)
  | String char rest =>
      if is_letter char then
        pattern_loop rest (letters + 1) numbers spaces punctuation
      else if is_number char then
        pattern_loop rest letters (numbers + 1) spaces punctuation
      else if is_space char then
        pattern_loop rest letters numbers (spaces + 1) punctuation
      else if is_punctuation char then
        pattern_loop rest letters numbers spaces (punctuation + 1)
      else pattern_loop rest letters numbers spaces punctuation
  end.

Definition characterPatternHash (str : string) : Z :=
  let '(letters, numbers, spaces, punctuation) := pattern_loop str 0 0 0 0 in
  letters * 1000 + numbers * 100 + spaces * 10 + punctuation.

(** ** createSimpleEmbedder *)

Section SimpleEmbedder.

(** [Math.sin] and [Math.cos] at an integer argument. *)
Variables (sin cos : Z -> float).

(** The [for (let i = 0; i < dimension; i++)] loop, entered at [i] with
    [n] iterations to go. *)
Fixpoint simple_values (hash charHash len i : Z) (n : nat) : list float :=
  match n with
  | O => []
  | S n' =>
      let value :=
        ((sin (hash + i) + cos (charHash + i) + sin (len + i)) / 3)%float in
      ((value + 1) / 2)%float :: simple_values hash charHash len (i + 1) n'
  end.

Definition simple_embed (dimension : Z) (text_ : string) : list float :=
  let hash := simpleHash text_ in
  let charHash := characterPatternHash text_ in
  let embedding :=
    simple_values hash charHash (str_length text_) 0 (Z.to_nat dimension) in
  let magnitude :=
    PrimFloat.sqrt
      (fold_left (fun sum val => (sum + val * val)%float) embedding 0%float) in
  map (fun val => (val / magnitude)%float) embedding.

Definition createSimpleEmbedder (dimension : option Z) : Embedder :=
  {| embed := fun text_ => Returned (simple_embed (default 384 dimension) text_) |}.

(** The [dimension()] of the embedder. *)
Definition simple_dimension (dimension : option Z) : Z := default 384 dimension.

End SimpleEmbedder.

(** ** createCachedEmbedder *)

(** The [Map<string, number[]>] of the wrapper, in insertion order. *)
Fixpoint cache_get (m : list (string * list float)) (k : string)
  : option (list float) :=
  match m with
  | [] => None
  | (k', v) :: m' => if String.eqb k' k then Some v else cache_get m' k
  end.

Fixpoint cache_set (m : list (string * list float)) (k : string)
  (v : list float) : list (string * list float) :=
  match m with
  | [] => [(k, v)]
  | (k', v') :: m' =>
      if String.eqb k' k then (k', v) :: m' else (k', v') :: cache_set m' k v
  end.

Fixpoint cache_delete (m : list (string * list float)) (k : string)
  : list (string * list float) :=
  match m with
  | [] => []
  | (k', v') :: m' =>
      if String.eqb k' k then m' else (k', v') :: cache_delete m' k
  end.

(** The eviction step: at capacity, delete the first key unless it is
    falsy. *)
Definition cache_evict (maxCacheSize : Z) (cache : list (string * list float))
  : list (string * list float) :=
  if (Z.of_nat (length cache) >=? maxCacheSize)%Z then
    match cache with
    | (firstKey, _) :: _ =>
        if truthy firstKey then cache_delete cache firstKey else cache
    | [] => cache
    end
  else cache.

(** [embed] of [createCachedEmbedder(embedder, maxCacheSize)]; a cached
    array is truthy whatever it holds. *)
Definition cached_embed (embedder : Embedder) (maxCacheSize : option Z)
  (text_ : string) : M (list (string * list float)) (list float) :=
  let maxCacheSize := default 500 maxCacheSize in
  let* cached := gets (fun cache => cache_get cache text_) in
  match cached with
  | Some v => ret v
  | None =>
      let* embedding_ := liftO (embed embedder text_) in
      do* modify (fun cache =>
                    cache_set (cache_evict maxCacheSize cache) text_ embedding_) in
      ret embedding_
  end.

(** Every vector the cache holds is what the wrapped embedder returns for
    its text. *)
Definition cache_agrees (embedder : Embedder)
  (cache : list (string * list float)) : Prop :=
  Forall (fun kv => embed embedder (fst kv) = Returned (snd kv)) cache.

End Embedders.

(* ===================================================================== *)
(** * The chunker and the retrieval loop as the specification words them  *)
(* ===================================================================== *)

Module Spec.

(** The characters of [s] at the positions [p] with [a <= p < b]. *)
Definition slice (s : string) (a b : Z) : string :=
  string_of_list_ascii
    (take (Z.to_nat (b - a)) (drop (Z.to_nat a) (list_ascii_of_string s))).

(** The sliding window: from position [i] and emission ordinal [k], emit
    the slice [i, min (i + size) len), advance by the stride
    [size - overlap], stop once [i >= len]. *)
Inductive SlidingWindow (size overlap : Z) (s : string)
  : Z -> Z -> list Chunk -> Prop :=
| sw_stop i k :
    str_length s <= i ->
    SlidingWindow size overlap s i k []
| sw_emit i k rest :
    i < str_length s ->
    SlidingWindow size overlap s (i + (size - overlap)) (k + 1) rest ->
    SlidingWindow size overlap s i k
      ({| text := slice s i (Z.min (i + size) (str_length s));
          index := k;
          metadata :=
            Encoder.position_metadata i (Z.min (i + size) (str_length s)) |}
         :: rest).

(** [s] without its last [n] characters. *)
Definition drop_last (n : Z) (s : string) : string :=
  slice s 0 (str_length s - n).

(** Reassembly as the specification words it: drop the last [overlap]
    characters of every chunk but the last, and concatenate. *)
Fixpoint reassemble (overlap : Z) (chunks : list Chunk) : string :=
  match chunks with
  | [] => ""
  | [c] => text c
  | c :: rest => drop_last overlap (text c) +:+ reassemble overlap rest
  end.

(** Reassembly by stride: keep the first [stride] characters of every
    chunk but the last, and concatenate. *)
Fixpoint reassemble_by_stride (stride : Z) (chunks : list Chunk) : string :=
  match chunks with
  | [] => ""
  | [c] => text c
  | c :: rest => slice (text c) 0 stride +:+ reassemble_by_stride stride rest
  end.

(** ** Step 3 of retrieval as the specification words it *)

(** One hit against the cache: on a cache hit the cached text; otherwise
    the text its frame is extracted and decoded to; nothing where
    extraction or decoding fails. *)
Definition hit_text (ext : Retriever.Externals) (videoPath : string)
  (cache : JsMap.t) (hit : QRVideoStoreIndexEntry) : option string :=
  if Retriever.cached cache videoPath hit then
    JsMap.get cache (Retriever.cache_key videoPath (frameNumber hit))
  else Retriever.expected_text ext videoPath (frameNumber hit).

(** The cache after the hit: a text decoded from the frame has been
    inserted. *)
Definition cache_after (ext : Retriever.Externals) (videoPath : string)
  (maxSize : Z) (cache : JsMap.t) (hit : QRVideoStoreIndexEntry) : JsMap.t :=
  if Retriever.cached cache videoPath hit then cache
  else
    match Retriever.expected_text ext videoPath (frameNumber hit) with
    | Some t =>
        Retriever.addToCache_map maxSize cache
          (Retriever.cache_key videoPath (frameNumber hit)) t
    | None => cache
    end.

(** The hits in order, each against the cache the hits before it have
    left: a result for every surviving hit, none for a skipped one. *)
Fixpoint search_results (ext : Retriever.Externals) (videoPath : string)
  (maxSize : Z) (cache : JsMap.t) (hits : list QRVideoStoreIndexEntry)
  : list SearchResult :=
  match hits with
  | [] => []
  | hit :: rest =>
      let later :=
        search_results ext videoPath maxSize
          (cache_after ext videoPath maxSize cache hit) rest in
      match hit_text ext videoPath cache hit with
      | Some t => Retriever.to_result t hit :: later
      | None => later
      end
  end.

End Spec.

(* ===================================================================== *)
(** * The chunker in closed form                                          *)
(* ===================================================================== *)

Module Window.

Definition stride (cfg : Config) : Z := chunkSize cfg - chunkOverlap cfg.

(** The number of windows: the text length over the stride, rounded up. *)
Definition chunk_count (cfg : Config) (s : string) : Z :=
  (str_length s + stride cfg - 1) / stride cfg.

(** The [k]-th window: from [k * stride], [chunkSize] characters or up to
    the end of the text. *)
Definition chunk_at (cfg : Config) (s : string) (k : Z) : Chunk :=
  let i := k * stride cfg in
  let end_ := Z.min (i + chunkSize cfg) (str_length s) in
  {| text := Spec.slice s i end_;
     index := k;
     metadata := Encoder.position_metadata i end_ |}.

End Window.

(* ===================================================================== *)
(** * Concrete scenarios                                                  *)
(* ===================================================================== *)

Module Scenario.

(** The configuration of scenario S1: windows of 10 characters that
    overlap by 2. *)
Definition config_10_2 : QRVideoStoreConfig :=
  {| opt_chunkSize := Some 10; opt_chunkOverlap := Some 2;
     opt_videoFps := None; opt_qrErrorCorrectionLevel := None;
     opt_videoResolution := None; opt_verbose := None |}.

Definition cfg_10_2 : Config :=
  {| chunkSize := 10; chunkOverlap := 2; videoFps := 1;
     qrErrorCorrectionLevel := ECL_M; videoResolution := (256, 256);
     verbose := false |}.

(** A configuration whose overlap equals its chunk size. *)
Definition config_10_10 : QRVideoStoreConfig :=
  {| opt_chunkSize := Some 10; opt_chunkOverlap := Some 10;
     opt_videoFps := None; opt_qrErrorCorrectionLevel := None;
     opt_videoResolution := None; opt_verbose := None |}.

Definition cfg_10_10 : Config :=
  {| chunkSize := 10; chunkOverlap := 10; videoFps := 1;
     qrErrorCorrectionLevel := ECL_M; videoResolution := (256, 256);
     verbose := false |}.

(** A configuration with a negative chunk size and an overlap below it:
    the stride is 2. *)
Definition cfg_neg : Config :=
  {| chunkSize := -1; chunkOverlap := -3; videoFps := 1;
     qrErrorCorrectionLevel := ECL_M; videoResolution := (256, 256);
     verbose := false |}.

(** An encoder environment in which nothing fails: the QR library
    returns the payload bytes, the video tool writes the output file. *)
Definition ext_ok : Encoder.Externals :=
  {| Encoder.cwd := "/work";
     Encoder.now := 1700000000000;
     Encoder.dirname := fun _ => "videos";
     Encoder.qr_toBuffer := fun text _ _ => Returned (list_byte_of_string text);
     Encoder.embed_rejects_first := fun _ => false;
     Encoder.io_fault := fun _ => None;
     Encoder.rm_fault := fun _ => None;
     Encoder.ffmpeg_run := fun cmd fs =>
       (<[Encoder.ff_output cmd := Encoder.File [Byte.x00]]> fs, Encoder.FfEnd) |}.

(** The same environment with a video tool that writes part of the output
    file and then reports an error. *)
Definition ext_ffmpeg_fails : Encoder.Externals :=
  {| Encoder.cwd := "/work";
     Encoder.now := 1700000000000;
     Encoder.dirname := fun _ => "videos";
     Encoder.qr_toBuffer := fun text _ _ => Returned (list_byte_of_string text);
     Encoder.embed_rejects_first := fun _ => false;
     Encoder.io_fault := fun _ => None;
     Encoder.rm_fault := fun _ => None;
     Encoder.ffmpeg_run := fun cmd fs =>
       (<[Encoder.ff_output cmd := Encoder.File [Byte.x00]]> fs,
        Encoder.FfError "Conversion failed!") |}.

Definition embedder_const : Embedder :=
  {| embed := fun _ => Returned [1%float; 0%float] |}.

Definition world_empty : Encoder.World Adapters.Store :=
  {| Encoder.fs := ∅; Encoder.db := [] |}.

(** One frame muxed by the failing video tool, in an empty world. *)
Definition failed_build : Encoder.World Adapters.Store * outcome unit :=
  Encoder.buildVideo ext_ffmpeg_fails cfg_10_2 [[Byte.x01]] "videos/doc.mp4" None
    world_empty.

(** ** Retriever scenarios *)

(** A video that exists; frame [n] is an image of the digits of [n], which
    the QR reader decodes to ["chunk <n>"]. *)
Definition ext_video : Retriever.Externals :=
  {| Retriever.fs_existsSync := fun _ => true;
     Retriever.ffmpeg_frame := fun _ n _ => Some (list_byte_of_string (pretty n));
     Retriever.qr_read := fun image =>
       Retriever.QrData ("chunk " +:+ string_of_list_byte image) |}.

(** The same, once the video file has been removed. *)
Definition ext_missing : Retriever.Externals :=
  {| Retriever.fs_existsSync := fun _ => false;
     Retriever.ffmpeg_frame := Retriever.ffmpeg_frame ext_video;
     Retriever.qr_read := Retriever.qr_read ext_video |}.

Definition entry (frame : Z) (emb : list float) : QRVideoStoreIndexEntry :=
  {| chunkText_ := "chunk " +:+ pretty frame;
     embedding := emb;
     frameNumber := frame;
     documentId := "doc";
     similarity := None;
     entry_metadata := ∅ |}.

(** An index of one chunk, at frame 0. *)
Definition store_one : Adapters.Store := [entry 0 [1%float; 0%float]].

(** An index of three chunks, at frames 0, 1 and 2. *)
Definition store_three : Adapters.Store :=
  [entry 0 [1%float; 0%float]; entry 1 [1%float; 0%float];
   entry 2 [1%float; 0%float]].

Definition retriever_cap (cap : option Z) (store : Adapters.Store)
  : Retriever.State Adapters.Store :=
  Retriever.new_QRVideoStoreRetriever store
    (Some {| Retriever.opt_r_verbose := None; Retriever.opt_maxCacheSize := cap |}).

(** A retriever of capacity 2 asked for frames 0, 1, 0 again and 2. *)
Definition cache_probe : Retriever.State Adapters.Store * outcome (option string) :=
  (do* Retriever.getFrameByNumber ext_video "v.mp4" 0 in
   do* Retriever.getFrameByNumber ext_video "v.mp4" 1 in
   do* Retriever.getFrameByNumber ext_video "v.mp4" 0 in
   Retriever.getFrameByNumber ext_video "v.mp4" 2)
    (retriever_cap (Some 2) []).

(** Searches of a video that does not exist: on an empty index, on an
    index with one hit, and with that hit in the cache from a search made
    while the video existed. *)
Definition search_missing_empty_index
  : Retriever.State Adapters.Store * outcome (list SearchResult) :=
  Retriever.search ext_missing Adapters.createInMemoryAdapter embedder_const
    "query" "v.mp4" None (retriever_cap None []).

Definition search_missing_one_hit
  : Retriever.State Adapters.Store * outcome (list SearchResult) :=
  Retriever.search ext_missing Adapters.createInMemoryAdapter embedder_const
    "query" "v.mp4" None (retriever_cap None store_one).

Definition search_missing_warm_cache
  : Retriever.State Adapters.Store * outcome (list SearchResult) :=
  (do* Retriever.search ext_video Adapters.createInMemoryAdapter embedder_const
         "query" "v.mp4" None in
   Retriever.search ext_missing Adapters.createInMemoryAdapter embedder_const
     "query" "v.mp4" None)
    (retriever_cap None store_one).

(** A video whose frame 1 cannot be extracted. *)
Definition ext_bad_frame : Retriever.Externals :=
  {| Retriever.fs_existsSync := fun _ => true;
     Retriever.ffmpeg_frame := fun path n format =>
       if (n =? 1)%Z then None else Retriever.ffmpeg_frame ext_video path n format;
     Retriever.qr_read := Retriever.qr_read ext_video |}.

(** A video whose frame 1 carries a QR code with an empty payload. *)
Definition ext_empty_payload : Retriever.Externals :=
  {| Retriever.fs_existsSync := fun _ => true;
     Retriever.ffmpeg_frame := Retriever.ffmpeg_frame ext_video;
     Retriever.qr_read := fun image =>
       if String.eqb (string_of_list_byte image) "1" then Retriever.QrData ""
       else Retriever.qr_read ext_video image |}.

Definition hit (frame : Z) : QRVideoStoreIndexEntry :=
  Adapters.with_similarity (entry frame [1%float; 0%float]) 1%float.

(** ** Batch scenarios *)

(** An encoder environment whose QR library rejects the text ["BAD"]. *)
Definition ext_qr_rejects : Encoder.Externals :=
  {| Encoder.cwd := "/work";
     Encoder.now := 1700000000000;
     Encoder.dirname := fun _ => "videos";
     Encoder.qr_toBuffer := fun text _ _ =>
       if String.eqb text "BAD" then
         Thrown (Error "The amount of data is too big to be stored in a QR Code")
       else Returned (list_byte_of_string text);
     Encoder.embed_rejects_first := fun _ => false;
     Encoder.io_fault := fun _ => None;
     Encoder.rm_fault := fun _ => None;
     Encoder.ffmpeg_run := fun cmd fs =>
       (<[Encoder.ff_output cmd := Encoder.File [Byte.x00]]> fs, Encoder.FfEnd) |}.

Definition batch_doc (id text_ : string) : Encoder.BatchDocument :=
  {| Encoder.bd_documentId := id;
     Encoder.bd_documentText := text_;
     Encoder.bd_outputVideoPath := "videos/" +:+ id +:+ ".mp4";
     Encoder.bd_metadata := None |}.

End Scenario.

(* ===================================================================== *)
(** * Strings and slices                                                  *)
(* ===================================================================== *)

Section StringFacts.

Lemma length_list_ascii (s : string) :
  length (list_ascii_of_string s) = String.length s.
Proof. induction s as [|c s IH]; simpl; [reflexivity | now rewrite IH]. Qed.

Lemma string_of_list_app (l1 l2 : list ascii) :
  string_of_list_ascii (l1 ++ l2)
  = string_of_list_ascii l1 +:+ string_of_list_ascii l2.
Proof. induction l1 as [|c l1 IH]; simpl; [reflexivity | now rewrite IH]. Qed.

(** The library's [substring n m] takes [m] characters after dropping [n]. *)
Lemma list_ascii_substring (n m : nat) (s : string) :
  list_ascii_of_string (String.substring n m s)
  = take m (drop n (list_ascii_of_string s)).
Proof.
  revert n m. induction s as [|c s IH]; intros [|n] [|m]; simpl; try reflexivity.
  - rewrite IH. reflexivity.
  - apply IH.
  - apply IH.
Qed.

(** Inside the string and in order, the JavaScript [substring] is the
    half-open slice. *)
Lemma substring_slice (s : string) (a b : Z) :
  0 <= a -> a <= b -> b <= str_length s ->
  substring s a b = Spec.slice s a b.
Proof.
  intros Ha Hab Hb. unfold substring, Spec.slice, clamp.
  rewrite <- (string_of_list_ascii_of_string (String.substring _ _ s)).
  rewrite list_ascii_substring.
  replace (Z.min (Z.max 0 (Z.min a (str_length s)))
             (Z.max 0 (Z.min b (str_length s)))) with a by lia.
  replace (Z.max (Z.max 0 (Z.min a (str_length s)))
             (Z.max 0 (Z.min b (str_length s)))) with b by lia.
  reflexivity.
Qed.

Lemma list_ascii_slice (s : string) (a b : Z) :
  list_ascii_of_string (Spec.slice s a b)
  = take (Z.to_nat (b - a)) (drop (Z.to_nat a) (list_ascii_of_string s)).
Proof. unfold Spec.slice. apply list_ascii_of_string_of_list_ascii. Qed.

Lemma slice_to_end (s : string) : Spec.slice s 0 (str_length s) = s.
Proof.
  unfold Spec.slice, str_length. simpl. rewrite Z.sub_0_r, Nat2Z.id.
  rewrite <- length_list_ascii, firstn_all.
  apply string_of_list_ascii_of_string.
Qed.

End StringFacts.

(* ===================================================================== *)
(** * The chunker                                                         *)
(* ===================================================================== *)

Section ChunkerFacts.

Variables (cfg : Config) (s : string).

Let size := chunkSize cfg.
Let overlap := chunkOverlap cfg.
Let len := str_length s.

(** More fuel does not change a loop that has ended. *)
Lemma chunkText_loop_more_fuel (fuel extra : nat) (i : Z) (acc cs : list Chunk) :
  Encoder.chunkText_loop fuel cfg s i acc = Some cs ->
  Encoder.chunkText_loop (fuel + extra) cfg s i acc = Some cs.
Proof.
  revert i acc. induction fuel as [|fuel IH]; intros i acc; simpl.
  - destruct (i <? str_length s)%Z eqn:Hi; [discriminate |].
    intros H. destruct extra; simpl; rewrite Hi; exact H.
  - destruct (i <? str_length s)%Z eqn:Hi; [apply IH | trivial].
Qed.

(** With a stride that is not positive the loop never leaves a
    position inside a text. *)
Lemma chunkText_loop_stuck (fuel : nat) (i : Z) (acc : list Chunk) :
  size <= overlap -> i < len ->
  Encoder.chunkText_loop fuel cfg s i acc = None.
Proof.
  intros Hstride. revert i acc.
  induction fuel as [|fuel IH]; intros i acc Hi; simpl;
    (destruct (i <? str_length s)%Z eqn:E; [| apply Z.ltb_ge in E; unfold len in Hi; lia]).
  - reflexivity.
  - apply IH. unfold size, overlap in Hstride. lia.
Qed.

Section PositiveStride.

Hypothesis Hstride : overlap < size.

(** With a positive stride the loop ends within [len - i] iterations
    and has appended some chunks to the accumulator. *)
Lemma chunkText_loop_ends (fuel : nat) (i : Z) (acc : list Chunk) :
  len - i <= Z.of_nat fuel ->
  exists rest, Encoder.chunkText_loop fuel cfg s i acc = Some (acc ++ rest).
Proof.
  revert i acc. induction fuel as [|fuel IH]; intros i acc Hfuel; simpl;
    destruct (i <? str_length s)%Z eqn:E;
    try (exists []; rewrite app_nil_r; reflexivity).
  - apply Z.ltb_lt in E. unfold len in Hfuel. lia.
  - apply Z.ltb_lt in E.
    edestruct (IH (i + (chunkSize cfg - chunkOverlap cfg))) as [rest Hrest];
      [unfold len, size, overlap in *; lia |].
    rewrite Hrest. rewrite <- app_assoc. eexists. reflexivity.
Qed.

Hypothesis Hsize : 0 <= size.

(** What the loop appends from a position [i >= 0] is the sliding
    window from [i], numbered from the length of the accumulator. *)
Lemma chunkText_loop_window (fuel : nat) (i : Z) (acc cs : list Chunk) :
  0 <= i ->
  Encoder.chunkText_loop fuel cfg s i acc = Some cs ->
  exists rest,
    cs = acc ++ rest /\
    Spec.SlidingWindow size overlap s i (Z.of_nat (length acc)) rest.
Proof.
  revert i acc. induction fuel as [|fuel IH]; intros i acc Hi; simpl;
    destruct (i <? str_length s)%Z eqn:E; try discriminate;
    try (intros [= <-]; exists []; rewrite app_nil_r; split;
         [reflexivity | constructor; apply Z.ltb_ge in E; exact E]).
  apply Z.ltb_lt in E. intros Hloop.
  apply IH in Hloop as [rest [-> Hwin]];
    [| unfold size, overlap in *; lia].
  rewrite <- app_assoc. eexists. split; [reflexivity |].
  rewrite substring_slice by (unfold size in Hsize; lia).
  rewrite length_app, Nat2Z.inj_add in Hwin. simpl in Hwin.
  apply Spec.sw_emit; assumption.
Qed.

End PositiveStride.

(** The window is a function of the position and the ordinal. *)
Lemma SlidingWindow_functional (i k : Z) (cs cs' : list Chunk) :
  Spec.SlidingWindow size overlap s i k cs ->
  Spec.SlidingWindow size overlap s i k cs' ->
  cs = cs'.
Proof.
  intros H. revert cs'.
  induction H as [i k Hi | i k rest Hi Hrest IH]; intros cs' H'; inversion H'; subst;
    try lia; try reflexivity.
  f_equal. apply IH. assumption.
Qed.

End ChunkerFacts.

(** [chunkText] is adequate: it returns what the loop returns with any
    amount of fuel, and where it reports a hang the loop ends with none. *)
Lemma chunkText_loop_adequate (cfg : Config) (s : string) :
  (forall fuel cs,
      Encoder.chunkText_loop fuel cfg s 0 [] = Some cs ->
      Encoder.chunkText cfg s = Returned cs) /\
  (Encoder.chunkText cfg s = Hangs ->
   forall fuel, Encoder.chunkText_loop fuel cfg s 0 [] = None).
Proof.
  unfold Encoder.chunkText.
  destruct (Z_lt_le_dec (chunkOverlap cfg) (chunkSize cfg)) as [Hpos | Hneg].
  - destruct (chunkText_loop_ends cfg s Hpos (String.length s) 0 [])
      as [rest Hrest]; [unfold str_length; lia |].
    rewrite Hrest. split; [| discriminate].
    intros fuel cs Hloop.
    apply (chunkText_loop_more_fuel cfg s fuel (String.length s)) in Hloop.
    apply (chunkText_loop_more_fuel cfg s (String.length s) fuel) in Hrest.
    rewrite Nat.add_comm in Hrest. congruence.
  - destruct (Z_lt_le_dec 0 (str_length s)) as [Hne | He].
    + split.
      * intros fuel cs Hloop.
        rewrite chunkText_loop_stuck in Hloop by assumption. discriminate.
      * intros _ fuel. apply chunkText_loop_stuck; assumption.
    + assert (Hall : forall fuel, Encoder.chunkText_loop fuel cfg s 0 [] = Some []).
      { intros [|fuel]; simpl;
          (destruct (0 <? str_length s)%Z eqn:E; [apply Z.ltb_lt in E; lia | reflexivity]). }
      rewrite Hall. split; [| discriminate].
      intros fuel cs. rewrite Hall. congruence.
Qed.

(** With a positive stride [chunkText] returns. *)
Lemma chunkText_returns (cfg : Config) (s : string) :
  chunkOverlap cfg < chunkSize cfg ->
  exists chunks,
    Encoder.chunkText_loop (String.length s) cfg s 0 [] = Some chunks /\
    Encoder.chunkText cfg s = Returned chunks.
Proof.
  intros Hpos. unfold Encoder.chunkText.
  destruct (chunkText_loop_ends cfg s Hpos (String.length s) 0 [])
    as [rest Hrest]; [unfold str_length; lia |].
  rewrite Hrest. eexists. split; reflexivity.
Qed.

(** With a chunk size that is a size, it returns the sliding window. *)
Lemma chunkText_returns_window (cfg : Config) (s : string) :
  0 <= chunkSize cfg -> chunkOverlap cfg < chunkSize cfg ->
  exists chunks,
    Encoder.chunkText cfg s = Returned chunks /\
    Spec.SlidingWindow (chunkSize cfg) (chunkOverlap cfg) s 0 0 chunks.
Proof.
  intros Hsize Hpos.
  destruct (chunkText_returns cfg s Hpos) as [chunks [Hloop Hrun]].
  exists chunks. split; [exact Hrun |].
  destruct (chunkText_loop_window cfg s Hpos Hsize _ 0 [] _ (Z.le_refl 0) Hloop)
    as [rest [Heq Hwin]].
  simpl in Heq, Hwin. subst rest. exact Hwin.
Qed.

(* ===================================================================== *)
(** * Claims about the chunker                                            *)
(* ===================================================================== *)

(** The first chunk of a window is the slice at its position, and the
    rest is the window one stride on. *)
Lemma SlidingWindow_cons_inv (size overlap : Z) (s : string) (i k : Z)
  (c : Chunk) (rest : list Chunk) :
  Spec.SlidingWindow size overlap s i k (c :: rest) ->
  text c = Spec.slice s i (Z.min (i + size) (str_length s)) /\
  Spec.SlidingWindow size overlap s (i + (size - overlap)) (k + 1) rest.
Proof. intros Hwin. inversion Hwin; subst. split; [reflexivity | assumption]. Qed.

(** The claim C3 as it is stated does not hold: an overlap below the chunk
    size does not make [chunkText] the sliding window when the chunk size
    is negative.  With chunk size -1 and overlap -3 (a stride of 2) the
    text ["ABCD"] gives [""] at index 0 and ["B"] at index 1: where the end
    of a window lies before its start [substring] swaps the two, and the
    window of the specification is empty there. *)
Lemma chunkText_negative_size_not_window :
  chunkOverlap Scenario.cfg_neg < chunkSize Scenario.cfg_neg /\
  exists chunks,
    Encoder.chunkText Scenario.cfg_neg "ABCD" = Returned chunks /\
    map (fun c => (text c, index c)) chunks = [("", 0); ("B", 1)] /\
    ~ Spec.SlidingWindow (chunkSize Scenario.cfg_neg)
        (chunkOverlap Scenario.cfg_neg) "ABCD" 0 0 chunks.
Proof.
  split; [simpl; lia |].
  eexists. split; [reflexivity |]. split; [reflexivity |].
  intros Hwin.
  apply SlidingWindow_cons_inv in Hwin as [_ Hrest].
  apply SlidingWindow_cons_inv in Hrest as [Htext _].
  vm_compute in Htext. discriminate Htext.
Qed.

(** C3, amended. For a chunk size that is not negative and an overlap
    below it, [chunkText] returns, and what it returns is exactly the
    sliding window of the specification from position 0 and ordinal 0: each
    chunk is the slice [i, min (i + chunkSize) len) with its emission
    ordinal as index, [i] advances by [chunkSize - chunkOverlap] and the
    window stops at [i >= len]; no other list is that window.  The empty
    text gives no chunk, the last chunk is the unpadded slice up to the end
    of the text, and with chunk size 10 and overlap 2 the 18 characters
    ["ABCDEFGHIJKLMNOPQR"] give ["ABCDEFGHIJ"], ["IJKLMNOPQR"], ["QR"] at
    indices 0, 1, 2. *)
Theorem chunkText_is_sliding_window (cfg : Config) (s : string)
  (Hsize : 0 <= chunkSize cfg) (Hoverlap : chunkOverlap cfg < chunkSize cfg) :
  (exists chunks,
      Encoder.chunkText cfg s = Returned chunks /\
      Spec.SlidingWindow (chunkSize cfg) (chunkOverlap cfg) s 0 0 chunks /\
      (forall chunks',
          Spec.SlidingWindow (chunkSize cfg) (chunkOverlap cfg) s 0 0 chunks' ->
          chunks' = chunks)) /\
  Encoder.chunkText cfg "" = Returned [] /\
  (forall cfg', chunkSize cfg' = 10 -> chunkOverlap cfg' = 2 ->
      exists chunks,
        Encoder.chunkText cfg' "ABCDEFGHIJKLMNOPQR" = Returned chunks /\
        map (fun c => (text c, index c)) chunks
        = [("ABCDEFGHIJ", 0); ("IJKLMNOPQR", 1); ("QR", 2)]).
Proof.
  split; [| split; [reflexivity |]].
  - destruct (chunkText_returns_window cfg s Hsize Hoverlap) as [chunks [Hrun Hwin]].
    exists chunks. split; [exact Hrun | split; [exact Hwin |]].
    intros chunks' H'. eapply SlidingWindow_functional; eassumption.
  - intros [size' overlap' fps ecl res vb] Hs Ho. simpl in Hs, Ho. subst.
    eexists. split; vm_compute; reflexivity.
Qed.

Lemma chunkText_is_sliding_window_witness :
  0 <= chunkSize Scenario.cfg_10_2 /\
  chunkOverlap Scenario.cfg_10_2 < chunkSize Scenario.cfg_10_2 /\
  exists chunks, Encoder.chunkText Scenario.cfg_10_2 "ABCDEFGHI" = Returned chunks.
Proof.
  split; [simpl; lia | split; [simpl; lia |]].
  destruct (chunkText_is_sliding_window Scenario.cfg_10_2 "ABCDEFGHI")
    as [[chunks [Hrun _]] _]; [simpl; lia | simpl; lia |].
  exists chunks. exact Hrun.
Defined.

(** The claim C2 as it is stated does not hold: a configuration whose
    overlap equals its chunk size is accepted by the constructor, and
    [chunkText] then runs without the precondition and does not return. *)
Lemma constructor_accepts_overlap_eq_size :
  Encoder.new_QRVideoStoreEncoder Scenario.config_10_10
  = Returned Scenario.cfg_10_10 /\
  chunkSize Scenario.cfg_10_10 <= chunkOverlap Scenario.cfg_10_10 /\
  Encoder.chunkText Scenario.cfg_10_10 "A" = Hangs.
Proof. split; [reflexivity | split; [simpl; lia | reflexivity]]. Qed.

(** C2, amended. Construction never fails, whatever the configuration:
    absent sizes default to 500 and 50 and no relation between them is
    checked.  [chunkText] returns for every text when the overlap is below
    the chunk size; when the overlap is the chunk size or more it returns
    on no text but the empty one: the loop does not end, with any fuel. *)
Theorem constructor_total_chunkText_terminates_iff (config : QRVideoStoreConfig) :
  exists cfg,
    Encoder.new_QRVideoStoreEncoder config = Returned cfg /\
    chunkSize cfg = default 500 (opt_chunkSize config) /\
    chunkOverlap cfg = default 50 (opt_chunkOverlap config) /\
    (chunkOverlap cfg < chunkSize cfg ->
     forall s, exists chunks, Encoder.chunkText cfg s = Returned chunks) /\
    (chunkSize cfg <= chunkOverlap cfg ->
     forall s, s <> "" ->
       Encoder.chunkText cfg s = Hangs /\
       forall fuel, Encoder.chunkText_loop fuel cfg s 0 [] = None).
Proof.
  eexists. split; [reflexivity |].
  split; [reflexivity | split; [reflexivity | split]].
  - intros Hpos s.
    destruct (chunkText_returns _ s Hpos) as [chunks [_ Hrun]].
    exists chunks. exact Hrun.
  - intros Hneg s Hs.
    assert (Hlen : 0 < str_length s).
    { destruct s; [congruence | unfold str_length; simpl; lia]. }
    split; [unfold Encoder.chunkText |]; intros;
      rewrite chunkText_loop_stuck; auto.
Qed.

Lemma constructor_total_chunkText_terminates_iff_witness :
  exists cfg,
    Encoder.new_QRVideoStoreEncoder Scenario.config_10_2 = Returned cfg /\
    (exists chunks, Encoder.chunkText cfg "ABCDEFGHIJKLMNOPQR" = Returned chunks).
Proof.
  destruct (constructor_total_chunkText_terminates_iff Scenario.config_10_2)
    as [cfg [Hnew [Hsize [Hoverlap [Hterm _]]]]].
  exists cfg. split; [exact Hnew |].
  apply Hterm. rewrite Hsize, Hoverlap. simpl. lia.
Defined.

(* --------------------------------------------------------------------- *)
(** ** Reassembly                                                         *)
(* --------------------------------------------------------------------- *)

Section SliceFacts.

Variable s : string.

Lemma take_take_drop {A} (p q : nat) (l : list A) :
  take p l ++ take q (drop p l) = take (p + q) l.
Proof.
  revert l. induction p as [|p IH]; intros [|x l]; simpl;
    rewrite ?take_nil; try reflexivity.
  now rewrite IH.
Qed.

Lemma slice_app (a m b : Z) :
  0 <= a -> a <= m -> m <= b ->
  Spec.slice s a m +:+ Spec.slice s m b = Spec.slice s a b.
Proof.
  intros Ha Ham Hmb. unfold Spec.slice.
  rewrite <- string_of_list_app. f_equal.
  replace (Z.to_nat m) with (Z.to_nat a + Z.to_nat (m - a))%nat by lia.
  rewrite <- drop_drop, take_take_drop. f_equal. lia.
Qed.

Lemma slice_slice_prefix (a b n : Z) :
  0 <= a -> 0 <= n -> a + n <= b ->
  Spec.slice (Spec.slice s a b) 0 n = Spec.slice s a (a + n).
Proof.
  intros Ha Hn Hb. unfold Spec.slice at 1 3.
  rewrite list_ascii_slice. change (Z.to_nat 0) with 0%nat.
  rewrite drop_0, take_take. f_equal. f_equal. lia.
Qed.

End SliceFacts.

Section Reassembly.

Variables (cfg : Config) (s : string).

Let size := chunkSize cfg.
Let overlap := chunkOverlap cfg.

Hypothesis Hoverlap0 : 0 <= overlap.
Hypothesis Hoverlap : overlap < size.

(** From any position, the strides of the window's chunks and its whole
    last chunk make up the rest of the text. *)
Lemma SlidingWindow_reassemble (i k : Z) (cs : list Chunk) :
  0 <= i ->
  Spec.SlidingWindow size overlap s i k cs ->
  Spec.reassemble_by_stride (size - overlap) cs = Spec.slice s i (str_length s).
Proof.
  intros Hi H. induction H as [i k Hlen | i k rest Hlen Hrest IH].
  - unfold Spec.slice. now replace (Z.to_nat (str_length s - i)) with 0%nat by lia.
  - specialize (IH ltac:(lia)).
    destruct rest as [|c' rest'].
    + inversion Hrest; subst. cbn [Spec.reassemble_by_stride text].
      f_equal. lia.
    + assert (Hnext : i + (size - overlap) < str_length s)
        by (inversion Hrest; assumption).
      change (Spec.reassemble_by_stride (size - overlap)
                ({| text := Spec.slice s i (Z.min (i + size) (str_length s));
                    index := k;
                    metadata := Encoder.position_metadata i
                                  (Z.min (i + size) (str_length s)) |}
                   :: c' :: rest'))
        with (Spec.slice (Spec.slice s i (Z.min (i + size) (str_length s)))
                0 (size - overlap)
              +:+ Spec.reassemble_by_stride (size - overlap) (c' :: rest')).
      rewrite IH, slice_slice_prefix by lia.
      apply slice_app; lia.
Qed.

(** On chunks of full length, removing the overlap keeps the stride. *)
Lemma reassemble_full_chunks (cs : list Chunk) :
  Forall (fun c => str_length (text c) = size) (removelast cs) ->
  Spec.reassemble overlap cs = Spec.reassemble_by_stride (size - overlap) cs.
Proof.
  induction cs as [|c [|c' rest] IH]; intros Hfull; try reflexivity.
  change (removelast (c :: c' :: rest)) with (c :: removelast (c' :: rest)) in Hfull.
  inversion Hfull as [|? ? Hc Hrest]; subst.
  change (Spec.drop_last overlap (text c) +:+ Spec.reassemble overlap (c' :: rest)
          = Spec.slice (text c) 0 (size - overlap)
            +:+ Spec.reassemble_by_stride (size - overlap) (c' :: rest)).
  rewrite IH by assumption. unfold Spec.drop_last. now rewrite Hc.
Qed.

End Reassembly.

(** The claim C4 as it is stated does not hold: with windows of 10 that
    overlap by 2, the 9 characters ["ABCDEFGHI"] give the chunks
    ["ABCDEFGHI"] and ["I"]; dropping the last 2 characters of the first
    loses the ["H"]. *)
Lemma reassemble_by_overlap_loses_text :
  exists chunks,
    Encoder.chunkText Scenario.cfg_10_2 "ABCDEFGHI" = Returned chunks /\
    map text chunks = ["ABCDEFGHI"; "I"] /\
    Spec.reassemble (chunkOverlap Scenario.cfg_10_2) chunks = "ABCDEFGI" /\
    Spec.reassemble (chunkOverlap Scenario.cfg_10_2) chunks <> "ABCDEFGHI".
Proof.
  eexists. split; [vm_compute; reflexivity |].
  split; [reflexivity | split; [reflexivity | discriminate]].
Qed.

(** C4, amended. For an overlap that is a size and below the chunk size,
    [chunkText] returns chunks whose concatenation in frame order, keeping
    of every chunk but the last only its first [chunkSize - chunkOverlap]
    characters, is the text; removing the last [chunkOverlap] characters
    instead gives the text when every chunk but the last has the full
    length [chunkSize]. *)
Theorem chunks_reassemble_by_stride (cfg : Config) (s : string)
  (Hoverlap0 : 0 <= chunkOverlap cfg)
  (Hoverlap : chunkOverlap cfg < chunkSize cfg) :
  exists chunks,
    Encoder.chunkText cfg s = Returned chunks /\
    Spec.reassemble_by_stride (chunkSize cfg - chunkOverlap cfg) chunks = s /\
    (Forall (fun c => str_length (text c) = chunkSize cfg) (removelast chunks) ->
     Spec.reassemble (chunkOverlap cfg) chunks = s).
Proof.
  destruct (chunkText_returns_window cfg s ltac:(lia) Hoverlap)
    as [chunks [Hrun Hwin]].
  exists chunks. split; [exact Hrun |].
  assert (Hstride : Spec.reassemble_by_stride
                      (chunkSize cfg - chunkOverlap cfg) chunks = s).
  { rewrite (SlidingWindow_reassemble cfg s Hoverlap0 Hoverlap 0 0 chunks)
      by (lia || assumption).
    apply slice_to_end. }
  split; [exact Hstride |].
  intros Hfull. rewrite reassemble_full_chunks by assumption. exact Hstride.
Qed.

Lemma chunks_reassemble_by_stride_witness :
  0 <= chunkOverlap Scenario.cfg_10_2 /\
  chunkOverlap Scenario.cfg_10_2 < chunkSize Scenario.cfg_10_2 /\
  exists chunks,
    Encoder.chunkText Scenario.cfg_10_2 "ABCDEFGHI" = Returned chunks /\
    Spec.reassemble_by_stride 8 chunks = "ABCDEFGHI".
Proof.
  split; [simpl; lia | split; [simpl; lia |]].
  destruct (chunks_reassemble_by_stride Scenario.cfg_10_2 "ABCDEFGHI")
    as [chunks [Hrun [Hstride _]]]; [simpl; lia | simpl; lia |].
  exists chunks. split; [exact Hrun | exact Hstride].
Defined.

(* ===================================================================== *)
(** * The encoder and the index                                           *)
(* ===================================================================== *)

(** The loop numbers the chunks it appends by their place in the list. *)
Lemma chunkText_loop_indices (cfg : Config) (s : string) (fuel : nat) (i : Z)
  (acc cs : list Chunk) :
  map index acc = seqZ 0 (Z.of_nat (length acc)) ->
  Encoder.chunkText_loop fuel cfg s i acc = Some cs ->
  map index cs = seqZ 0 (Z.of_nat (length cs)).
Proof.
  revert i acc. induction fuel as [|fuel IH]; intros i acc Hacc; simpl;
    destruct (i <? str_length s)%Z; try discriminate;
    try (intros [= <-]; exact Hacc).
  apply IH.
  rewrite map_app, length_app, Hacc. simpl.
  replace (Z.of_nat (length acc + 1)) with (Z.of_nat (S (length acc))) by lia.
  now rewrite seqZ_S.
Qed.

Lemma chunkText_indices (cfg : Config) (s : string) (chunks : list Chunk) :
  Encoder.chunkText cfg s = Returned chunks ->
  map index chunks = seqZ 0 (Z.of_nat (length chunks)).
Proof.
  unfold Encoder.chunkText.
  destruct (Encoder.chunkText_loop _ cfg s 0 []) as [cs|] eqn:Hloop; [| discriminate].
  intros [= <-]. eapply chunkText_loop_indices; [| exact Hloop]. reflexivity.
Qed.

Section EncoderFacts.

Context {D : Type} (ext : Encoder.Externals) (database : VectorDatabase D)
  (embedder : Embedder) (cfg : Config).

#[local] Abbreviation keeps_db := (@Encoder.keeps_db D _).

(** The entries [addDocument] prepares: one per chunk, in order, with the
    chunk's index as frame number and the document's id. *)
Lemma process_chunks_entries (docId : string) (meta : option Metadata)
  (chunks : list Chunk) (bufs bufs' : list Buffer)
  (entries entries' : list QRVideoStoreIndexEntry) :
  Encoder.process_chunks ext embedder cfg docId meta chunks bufs entries
  = Returned (bufs', entries') ->
  exists added,
    entries' = entries ++ added /\
    map frameNumber added = map index chunks /\
    map chunkText_ added = map text chunks /\
    Forall (fun e => documentId e = docId) added /\
    length bufs' = (length bufs + length chunks)%nat.
Proof.
  revert bufs entries. induction chunks as [|c chunks IH]; intros bufs entries; simpl.
  - intros [= <- <-]. exists []. rewrite app_nil_r. repeat split; auto; lia.
  - destruct (Encoder.promise_all2 _ _ _) as [[buf emb] | e |]; try discriminate.
    intros H. apply IH in H as [added [-> [Hframes [Htexts [Hids Hlen]]]]].
    eexists. rewrite <- app_assoc. split; [reflexivity |].
    simpl. rewrite Hframes, Htexts. repeat split; auto.
    rewrite Hlen, length_app. simpl. lia.
Qed.

Lemma keeps_db_ret {A} (a : A) : keeps_db (ret a).
Proof. intros w. reflexivity. Qed.

Lemma keeps_db_bind {A B} (m : M (Encoder.World D) A) (k : A -> M (Encoder.World D) B) :
  keeps_db m -> (forall a, keeps_db (k a)) -> keeps_db (bind m k).
Proof.
  intros Hm Hk w. unfold bind. specialize (Hm w).
  destruct (m w) as [w1 [a | e |]]; simpl in *; try exact Hm.
  rewrite (Hk a w1). exact Hm.
Qed.

Lemma keeps_db_when (c : bool) (m : M (Encoder.World D) unit) :
  keeps_db m -> keeps_db (when c m).
Proof. destruct c; [trivial | intros _; apply keeps_db_ret]. Qed.

Lemma keeps_db_try_finally {A} (body : M (Encoder.World D) A)
  (fin : M (Encoder.World D) unit) :
  keeps_db body -> keeps_db fin -> keeps_db (try_finally body fin).
Proof.
  intros Hb Hf w. unfold try_finally. specialize (Hb w).
  destruct (body w) as [w1 [a | e |]]; simpl in *; try exact Hb;
    specialize (Hf w1); destruct (fin w1) as [w2 [[] | e' |]]; simpl in *;
    congruence.
Qed.

Lemma keeps_db_existsSync (p : string) : keeps_db (Encoder.existsSync p).
Proof. intros w. reflexivity. Qed.

Lemma keeps_db_mkdirSync (p : string) : keeps_db (Encoder.mkdirSync ext p).
Proof. intros w. unfold Encoder.mkdirSync. destruct (Encoder.io_fault ext p); reflexivity. Qed.

Lemma keeps_db_writeFileSync (p : string) (b : Buffer) :
  keeps_db (Encoder.writeFileSync ext p b).
Proof. intros w. unfold Encoder.writeFileSync. destruct (Encoder.io_fault ext p); reflexivity. Qed.

Lemma keeps_db_rm_rf (p : string) : keeps_db (Encoder.rm_rf ext p).
Proof.
  intros w. unfold Encoder.rm_rf.
  destruct (Encoder.rm_fault ext p) as [[e removed] |]; reflexivity.
Qed.

Lemma keeps_db_write_frames (dir : string) (i : Z) (bufs : list Buffer) :
  keeps_db (Encoder.write_frames ext dir i bufs).
Proof.
  revert i. induction bufs as [|b bufs IH]; intros i; simpl.
  - apply keeps_db_ret.
  - apply keeps_db_bind; [apply keeps_db_writeFileSync | intros _; apply IH].
Qed.

Lemma keeps_db_encodeVideo (dir out : string) (options : option VideoBuildOptions) :
  keeps_db (Encoder.encodeVideo ext cfg dir out options).
Proof.
  intros w. unfold Encoder.encodeVideo. cbv zeta.
  destruct (Encoder.ffmpeg_run ext _ _) as [fs' [|msg]]; reflexivity.
Qed.

Lemma keeps_db_buildVideo (bufs : list Buffer) (out : string)
  (options : option VideoBuildOptions) :
  keeps_db (Encoder.buildVideo ext cfg bufs out options).
Proof.
  unfold Encoder.buildVideo.
  apply keeps_db_try_finally;
    repeat first
      [ apply keeps_db_bind; [| intros ?]
      | apply keeps_db_when
      | apply keeps_db_existsSync
      | apply keeps_db_mkdirSync
      | apply keeps_db_write_frames
      | apply keeps_db_encodeVideo
      | apply keeps_db_rm_rf ].
Qed.

End EncoderFacts.

Lemma filter_keep_all {A} (P : A -> Prop) `{!forall x, Decision (P x)} (l : list A) :
  Forall P l -> filter P l = l.
Proof.
  induction 1 as [|x l Hx Hl IH]; [reflexivity |].
  rewrite filter_cons_True by assumption. now rewrite IH.
Qed.

Lemma filter_drop_all {A} (P : A -> Prop) `{!forall x, Decision (P x)} (l : list A) :
  Forall (fun x => ~ P x) l -> filter P l = [].
Proof.
  induction 1 as [|x l Hx Hl IH]; [reflexivity |].
  now rewrite filter_cons_False by assumption.
Qed.

(** C1. Whenever [addDocument] returns on an in-memory index that held no
    entry of the document, the frame numbers of the document's entries in
    the index are 0, 1, ..., n - 1 in this order, [n] being the number of
    chunks [chunkText] produces from the text: no gap, no duplicate. *)
Theorem addDocument_frame_numbers (ext : Encoder.Externals) (embedder : Embedder)
  (cfg : Config) (docId documentText outputVideoPath : string)
  (meta : option Metadata) (w w' : Encoder.World Adapters.Store)
  (Hfresh : Forall (fun e => documentId e <> docId) (Encoder.db w))
  (Hrun : Encoder.addDocument ext Adapters.createInMemoryAdapter embedder cfg
            docId documentText outputVideoPath meta w = (w', Returned tt)) :
  exists chunks,
    Encoder.chunkText cfg documentText = Returned chunks /\
    let frames :=
      map frameNumber (filter (fun e => documentId e = docId) (Encoder.db w')) in
    frames = seqZ 0 (Z.of_nat (length chunks)) /\
    NoDup frames /\
    (forall f, f ∈ frames <-> 0 <= f < Z.of_nat (length chunks)).
Proof.
  unfold Encoder.addDocument, bind, liftO in Hrun.
  destruct (Encoder.chunkText cfg documentText) as [chunks | e |] eqn:Hchunks;
    try discriminate.
  destruct (Encoder.process_chunks ext embedder cfg docId meta chunks [] [])
    as [[bufs entries] | e |] eqn:Hproc; try discriminate.
  pose proof (keeps_db_buildVideo ext cfg bufs outputVideoPath None w) as Hdb.
  destruct (Encoder.buildVideo ext cfg bufs outputVideoPath None w)
    as [w1 [[] | e |]]; try discriminate.
  simpl in Hdb. unfold Encoder.liftDb in Hrun. simpl in Hrun.
  injection Hrun as <-.
  apply process_chunks_entries in Hproc
    as [added [-> [Hframes [_ [Hids _]]]]].
  exists chunks. split; [reflexivity |].
  cbn zeta. cbn [Encoder.db app].
  match goal with
  | |- ?frames = _ /\ _ =>
      assert (Heq : frames = seqZ 0 (Z.of_nat (length chunks)))
  end.
  { rewrite Hdb, filter_app, filter_drop_all, filter_keep_all by assumption.
    simpl. rewrite Hframes. eapply chunkText_indices; eassumption. }
  rewrite Heq.
  split; [reflexivity | split; [apply NoDup_seqZ |]].
  intros f. rewrite elem_of_seqZ. lia.
Qed.

Lemma addDocument_frame_numbers_witness :
  exists chunks,
    Encoder.chunkText Scenario.cfg_10_2 "ABCDEFGHIJKLMNOPQR" = Returned chunks /\
    map frameNumber
      (filter (fun e => documentId e = "doc")
         (Encoder.db
            (fst (Encoder.addDocument Scenario.ext_ok Adapters.createInMemoryAdapter
                    Scenario.embedder_const Scenario.cfg_10_2
                    "doc" "ABCDEFGHIJKLMNOPQR" "videos/doc.mp4" None
                    Scenario.world_empty))))
    = seqZ 0 (Z.of_nat (length chunks)).
Proof.
  destruct (addDocument_frame_numbers Scenario.ext_ok Scenario.embedder_const
              Scenario.cfg_10_2 "doc" "ABCDEFGHIJKLMNOPQR" "videos/doc.mp4" None
              Scenario.world_empty
              (fst (Encoder.addDocument Scenario.ext_ok Adapters.createInMemoryAdapter
                      Scenario.embedder_const Scenario.cfg_10_2
                      "doc" "ABCDEFGHIJKLMNOPQR" "videos/doc.mp4" None
                      Scenario.world_empty)))
    as [chunks [Hchunks [Hframes _]]].
  - constructor.
  - vm_compute. reflexivity.
  - exists chunks. split; [exact Hchunks | exact Hframes].
Defined.

(* ===================================================================== *)
(** * buildVideo: the scratch directory and the failing video tool        *)
(* ===================================================================== *)

Section OutcomeFacts.

Context {S : Type}.

Lemma no_hang_ret {A} (a : A) : no_hang (@ret S A a).
Proof. intros s. discriminate. Qed.

Lemma no_hang_throw {A} (e : JsError) : no_hang (@throw S A e).
Proof. intros s. discriminate. Qed.

Lemma no_hang_gets {A} (f : S -> A) : no_hang (gets f).
Proof. intros s. discriminate. Qed.

Lemma no_hang_modify (f : S -> S) : no_hang (modify f).
Proof. intros s. discriminate. Qed.

Lemma no_hang_bind {A B} (m : M S A) (k : A -> M S B) :
  no_hang m -> (forall a, no_hang (k a)) -> no_hang (bind m k).
Proof.
  intros Hm Hk s. unfold bind. specialize (Hm s).
  destruct (m s) as [s1 [a | e |]]; simpl in *;
    [apply Hk | discriminate | congruence].
Qed.

Lemma no_hang_when (c : bool) (m : M S unit) : no_hang m -> no_hang (when c m).
Proof. destruct c; [trivial | intros _; apply no_hang_ret]. Qed.

Lemma no_hang_try_finally {A} (body : M S A) (fin : M S unit) :
  no_hang body -> no_hang fin -> no_hang (try_finally body fin).
Proof.
  intros Hb Hf s. unfold try_finally. specialize (Hb s).
  destruct (body s) as [s1 [a | e |]]; simpl in *; try congruence;
    specialize (Hf s1); destruct (fin s1) as [s2 [[] | e' |]]; simpl in *;
    congruence.
Qed.

End OutcomeFacts.

Section BuildVideoFacts.

Context {D : Type} (ext : Encoder.Externals) (cfg : Config).

#[local] Abbreviation W := (Encoder.World D).

Lemma no_hang_mkdirSync (p : string) : no_hang (@Encoder.mkdirSync D ext p).
Proof.
  unfold Encoder.mkdirSync. destruct (Encoder.io_fault ext p);
    [apply no_hang_throw | apply no_hang_modify].
Qed.

Lemma no_hang_writeFileSync (p : string) (b : Buffer) :
  no_hang (@Encoder.writeFileSync D ext p b).
Proof.
  unfold Encoder.writeFileSync. destruct (Encoder.io_fault ext p);
    [apply no_hang_throw | apply no_hang_modify].
Qed.

Lemma no_hang_write_frames (dir : string) (i : Z) (bufs : list Buffer) :
  no_hang (@Encoder.write_frames D ext dir i bufs).
Proof.
  revert i. induction bufs as [|b bufs IH]; intros i; simpl.
  - apply no_hang_ret.
  - apply no_hang_bind; [apply no_hang_writeFileSync | intros _; apply IH].
Qed.

Lemma no_hang_encodeVideo (dir out : string) (options : option VideoBuildOptions) :
  no_hang (@Encoder.encodeVideo D ext cfg dir out options).
Proof.
  intros w. unfold Encoder.encodeVideo. cbv zeta.
  destruct (Encoder.ffmpeg_run ext _ _) as [fs' [|msg]]; discriminate.
Qed.

Lemma no_hang_rm_rf (dir : string) : no_hang (@Encoder.rm_rf D ext dir).
Proof.
  unfold Encoder.rm_rf. destruct (Encoder.rm_fault ext dir) as [[e removed] |].
  - apply no_hang_bind; [apply no_hang_modify | intros _; apply no_hang_throw].
  - apply no_hang_modify.
Qed.

Lemma no_hang_buildVideo (bufs : list Buffer) (out : string)
  (options : option VideoBuildOptions) :
  no_hang (@Encoder.buildVideo D ext cfg bufs out options).
Proof.
  unfold Encoder.buildVideo, Encoder.existsSync.
  apply no_hang_try_finally;
    repeat first
      [ apply no_hang_bind; [| intros ?]
      | apply no_hang_when
      | apply no_hang_gets
      | apply no_hang_rm_rf
      | apply no_hang_mkdirSync
      | apply no_hang_write_frames
      | apply no_hang_encodeVideo ].
Qed.

(** The [try] block of [buildVideo] is its preparation followed by the
    run of the video tool. *)
Lemma buildVideo_unfold (bufs : list Buffer) (out : string)
  (options : option VideoBuildOptions) (w : W) :
  Encoder.buildVideo ext cfg bufs out options w
  = try_finally
      (do* Encoder.write_inputs ext bufs out in
       Encoder.encodeVideo ext cfg (Encoder.temp_dir ext) out options)
      (let* there := Encoder.existsSync (Encoder.temp_dir ext) in
       when there (Encoder.rm_rf ext (Encoder.temp_dir ext))) w.
Proof.
  unfold Encoder.buildVideo, Encoder.write_inputs, try_finally. cbv zeta.
  match goal with
  | |- match ?a with _ => _ end = match ?b with _ => _ end =>
      replace b with a; [reflexivity |]
  end.
  unfold bind.
  repeat match goal with
         | |- context [match ?m w with _ => _ end] =>
             destruct (m w) as [? [? | ? |]]
         | |- context [match ?m ?s with _ => _ end] =>
             is_var s; destruct (m s) as [? [? | ? |]]
         end; reflexivity.
Qed.

(** The paths outside a directory are not touched by its removal,
    complete or not. *)
Lemma rm_rf_outside (dir p : string) (w : W) :
  Encoder.under dir p = false ->
  Encoder.fs (fst (Encoder.rm_rf ext dir w)) !! p = Encoder.fs w !! p.
Proof.
  intros Hp. unfold Encoder.rm_rf.
  destruct (Encoder.rm_fault ext dir) as [[e removed] |];
    unfold bind, modify, throw; simpl;
    apply option_eq; intros x; rewrite map_lookup_filter_Some; simpl;
    rewrite Hp; simpl; tauto.
Qed.

(** The [finally] block leaves the paths outside the scratch directory
    alone; and when it returns the scratch directory does not exist, when
    it does not return the removal has failed with the error it throws. *)
Lemma finally_outcome (dir : string) (w : W) :
  let run := (let* there := Encoder.existsSync dir in
              when there (Encoder.rm_rf ext dir)) w in
  (forall p, Encoder.under dir p = false ->
             Encoder.fs (fst run) !! p = Encoder.fs w !! p) /\
  Encoder.db (fst run) = Encoder.db w /\
  ((snd run = Returned tt /\ Encoder.fs (fst run) !! dir = None) \/
   (exists e removed,
       Encoder.rm_fault ext dir = Some (e, removed) /\ snd run = Thrown e)).
Proof.
  cbn zeta. unfold bind, Encoder.existsSync, gets, when. simpl.
  destruct (bool_decide (is_Some (Encoder.fs w !! dir))) eqn:Hthere; simpl.
  - split; [intros p Hp; now apply rm_rf_outside |].
    unfold Encoder.rm_rf.
    destruct (Encoder.rm_fault ext dir) as [[e removed] |];
      unfold bind, modify, throw; simpl.
    + split; [reflexivity |]. right. eauto.
    + split; [reflexivity |]. left. split; [reflexivity |].
      apply map_lookup_filter_None. right. intros x _. simpl.
      unfold Encoder.under. rewrite String.eqb_refl. discriminate.
  - split; [reflexivity |]. split; [reflexivity |]. left.
    split; [reflexivity |].
    apply bool_decide_eq_false in Hthere.
    destruct (Encoder.fs w !! dir) eqn:Hlook; [| reflexivity].
    exfalso. apply Hthere. eexists. reflexivity.
Qed.

(** After [buildVideo] the scratch directory does not exist, unless its
    removal failed, and then [buildVideo] throws the error of the
    removal. *)
Lemma buildVideo_scratch (bufs : list Buffer) (out : string)
  (options : option VideoBuildOptions) (w : W) :
  let run := Encoder.buildVideo ext cfg bufs out options w in
  Encoder.fs (fst run) !! Encoder.temp_dir ext = None \/
  exists e removed,
    Encoder.rm_fault ext (Encoder.temp_dir ext) = Some (e, removed) /\
    snd run = Thrown e.
Proof.
  cbn zeta.
  pose proof (no_hang_buildVideo bufs out options w) as Hcomes.
  unfold Encoder.buildVideo, try_finally in *.
  match goal with
  | |- context [match ?body w with _ => _ end] => destruct (body w) as [w1 r]
  end.
  destruct (finally_outcome (Encoder.temp_dir ext) w1)
    as (_ & _ & [[Hret Hgone] | (e & removed & Hfault & Hthrown)]);
    cbn zeta in *;
    destruct r as [a | e0 |]; try (simpl in Hcomes; congruence);
    destruct (bind _ _ w1) as [w2 o]; simpl in *; subst o; eauto.
Qed.

(** When the preparation has returned and the video tool then ends with
    an error, [buildVideo] throws: the error of the tool, or the error of
    the removal of the scratch directory where that fails; and what the
    tool has left at a path outside the scratch directory stays. *)
Lemma buildVideo_tool_fails (bufs : list Buffer) (out : string)
  (options : option VideoBuildOptions) (w w1 : W)
  (fs' : gmap string Encoder.FsNode) (msg : string) :
  Encoder.write_inputs ext bufs out w = (w1, Returned tt) ->
  Encoder.ffmpeg_run ext
    (Encoder.ffmpeg_command cfg (Encoder.temp_dir ext) out options)
    (Encoder.fs w1) = (fs', Encoder.FfError msg) ->
  let run := Encoder.buildVideo ext cfg bufs out options w in
  (snd run = Thrown (Error ("FFmpeg error: " +:+ msg)) \/
   exists e removed,
     Encoder.rm_fault ext (Encoder.temp_dir ext) = Some (e, removed) /\
     snd run = Thrown e) /\
  (forall p, Encoder.under (Encoder.temp_dir ext) p = false ->
             Encoder.fs (fst run) !! p = fs' !! p).
Proof.
  intros Hprep Htool. cbn zeta. rewrite buildVideo_unfold.
  assert (Hbody :
    (do* Encoder.write_inputs ext bufs out in
     Encoder.encodeVideo ext cfg (Encoder.temp_dir ext) out options) w
    = (Encoder.set_fs (fun _ => fs') w1,
       Thrown (Error ("FFmpeg error: " +:+ msg)))).
  { unfold bind. rewrite Hprep. unfold Encoder.encodeVideo. cbv zeta.
    now rewrite Htool. }
  unfold try_finally. rewrite Hbody.
  destruct (finally_outcome (Encoder.temp_dir ext)
              (Encoder.set_fs (fun _ => fs') w1))
    as (Hout & _ & [[Hret Hgone] | (e & removed & Hfault & Hthrown)]);
    cbn zeta in *;
    destruct (bind _ _ (Encoder.set_fs (fun _ => fs') w1)) as [w3 o];
    simpl in *; subst o.
  - split; [now left | exact Hout].
  - split; [right; eauto | exact Hout].
Qed.

End BuildVideoFacts.

(** The claim C5 as it is stated does not hold: a video tool that has
    written part of the output file before it reports its error leaves
    that file behind; [buildVideo] surfaces the error and does not delete
    the output. *)
Lemma buildVideo_leaves_partial_output :
  snd Scenario.failed_build = Thrown (Error "FFmpeg error: Conversion failed!") /\
  Encoder.fs (fst Scenario.failed_build) !! "videos/doc.mp4"
  = Some (Encoder.File [Byte.x00]).
Proof. vm_compute. split; reflexivity. Qed.

(** C5, amended. [buildVideo] always comes back and never touches the
    index, and on every exit path the scratch frame directory does not
    exist afterwards, unless its removal itself fails: then [buildVideo]
    throws the error of the removal.  When the video tool, run on the
    frames written, ends with an error, [buildVideo] throws: the tool's
    error as ["FFmpeg error: <message>"], or the error of the removal of
    the scratch directory where that fails; the output path, unless it
    lies in the scratch directory, holds what the tool left there, so that
    a partial output file is not deleted; and [addDocument], which has
    reached [buildVideo] with these frames, ends as [buildVideo] does: it
    does not return normally and the index is as it was. *)
Theorem buildVideo_surfaces_failure_removes_scratch {D : Type}
  (ext : Encoder.Externals) (cfg : Config) (database : VectorDatabase D)
  (embedder : Embedder) (bufs : list Buffer) (out : string)
  (options : option VideoBuildOptions) (w : Encoder.World D) :
  let run := Encoder.buildVideo ext cfg bufs out options w in
  snd run <> Hangs /\
  Encoder.db (fst run) = Encoder.db w /\
  (Encoder.fs (fst run) !! Encoder.temp_dir ext = None \/
   exists e removed,
     Encoder.rm_fault ext (Encoder.temp_dir ext) = Some (e, removed) /\
     snd run = Thrown e) /\
  (forall w1 fs' msg,
      Encoder.write_inputs ext bufs out w = (w1, Returned tt) ->
      Encoder.ffmpeg_run ext
        (Encoder.ffmpeg_command cfg (Encoder.temp_dir ext) out options)
        (Encoder.fs w1) = (fs', Encoder.FfError msg) ->
      (snd run = Thrown (Error ("FFmpeg error: " +:+ msg)) \/
       exists e removed,
         Encoder.rm_fault ext (Encoder.temp_dir ext) = Some (e, removed) /\
         snd run = Thrown e) /\
      (Encoder.rm_fault ext (Encoder.temp_dir ext) = None ->
       snd run = Thrown (Error ("FFmpeg error: " +:+ msg))) /\
      (Encoder.under (Encoder.temp_dir ext) out = false ->
       Encoder.fs (fst run) !! out = fs' !! out) /\
      (options = None ->
       forall docId documentText meta chunks entries,
         Encoder.chunkText cfg documentText = Returned chunks ->
         Encoder.process_chunks ext embedder cfg docId meta chunks [] []
         = Returned (bufs, entries) ->
         let add :=
           Encoder.addDocument ext database embedder cfg docId documentText
             out meta w in
         add = run /\
         (forall u, snd add <> Returned u) /\
         Encoder.db (fst add) = Encoder.db w)).
Proof.
  cbn zeta.
  split; [apply no_hang_buildVideo |].
  split; [apply keeps_db_buildVideo |].
  split; [apply buildVideo_scratch |].
  intros w1 fs' msg Hprep Htool.
  destruct (buildVideo_tool_fails ext cfg bufs out options w w1 fs' msg Hprep Htool)
    as (Hthrown & Hout).
  assert (He : exists e, snd (Encoder.buildVideo ext cfg bufs out options w)
                         = Thrown e).
  { destruct Hthrown as [Hmsg | (e & removed & _ & Hrm)]; eauto. }
  destruct He as [e He].
  split; [exact Hthrown |].
  split; [destruct Hthrown as [Hmsg | (e' & removed & Hfault & _)];
          [intros _; exact Hmsg | congruence] |].
  split; [apply Hout |].
  intros -> docId documentText meta chunks entries Hchunks Hproc.
  pose proof (keeps_db_buildVideo ext cfg bufs out None w) as Hdb.
  unfold Encoder.addDocument, bind, liftO. rewrite Hchunks, Hproc.
  destruct (Encoder.buildVideo ext cfg bufs out None w) as [w2 o].
  simpl in He, Hdb. subst o. simpl.
  split; [reflexivity | split; [discriminate | exact Hdb]].
Qed.

Lemma buildVideo_surfaces_failure_removes_scratch_witness :
  Encoder.fs (fst Scenario.failed_build) !! Encoder.temp_dir Scenario.ext_ffmpeg_fails
  = None /\
  snd Scenario.failed_build = Thrown (Error "FFmpeg error: Conversion failed!") /\
  Encoder.fs (fst Scenario.failed_build) !! "videos/doc.mp4"
  = Some (Encoder.File [Byte.x00]).
Proof.
  destruct (buildVideo_surfaces_failure_removes_scratch Scenario.ext_ffmpeg_fails
              Scenario.cfg_10_2 Adapters.createInMemoryAdapter
              Scenario.embedder_const [[Byte.x01]] "videos/doc.mp4" None
              Scenario.world_empty)
    as (_ & _ & Hscratch & Hfail).
  destruct (Hfail
              (fst (Encoder.write_inputs Scenario.ext_ffmpeg_fails [[Byte.x01]]
                      "videos/doc.mp4" Scenario.world_empty))
              (<["videos/doc.mp4" := Encoder.File [Byte.x00]]>
                 (Encoder.fs
                    (fst (Encoder.write_inputs Scenario.ext_ffmpeg_fails
                            [[Byte.x01]] "videos/doc.mp4" Scenario.world_empty))))
              "Conversion failed!")
    as (_ & Hmsg & Hout & _); [reflexivity | reflexivity |].
  split; [| split; [apply Hmsg; reflexivity |]].
  - destruct Hscratch as [Hgone | (e & removed & Hfault & _)];
      [exact Hgone | discriminate Hfault].
  - unfold Scenario.failed_build. rewrite Hout by reflexivity.
    apply lookup_insert_eq.
Defined.

(* ===================================================================== *)
(** * The in-memory adapter                                               *)
(* ===================================================================== *)

Lemma cosineSimilarity_lengths (a b : list float) :
  (length a <> length b ->
   Adapters.cosineSimilarity a b = Thrown (Error "Vectors must have same length")) /\
  (length a = length b -> exists x, Adapters.cosineSimilarity a b = Returned x).
Proof.
  unfold Adapters.cosineSimilarity. split; intros H.
  - apply Nat.eqb_neq in H. now rewrite H.
  - apply Nat.eqb_eq in H. rewrite H. simpl.
    destruct (Adapters.cosine_loop a b 0 0 0) as [[dot magA] magB].
    destruct (_ || _)%bool; eexists; reflexivity.
Qed.

(** Scoring a store that holds an entry of another dimension throws, at
    the first such entry. *)
Lemma score_all_mismatch (query : list float) (store : list QRVideoStoreIndexEntry) :
  Exists (fun e => length (embedding e) <> length query) store ->
  Adapters.score_all query store = Thrown (Error "Vectors must have same length").
Proof.
  induction store as [|entry rest IH]; intros Hex; [inversion Hex |].
  simpl.
  destruct (Nat.eq_dec (length query) (length (embedding entry))) as [Heq | Hne].
  - destruct (proj2 (cosineSimilarity_lengths query (embedding entry)) Heq) as [x Hx].
    rewrite Hx, IH; [reflexivity |].
    inversion Hex; subst; [congruence | assumption].
  - now rewrite (proj1 (cosineSimilarity_lengths query (embedding entry)) Hne).
Qed.

(** C9. When the store of the in-memory adapter holds an entry whose
    embedding has another length than the query embedding, [search] throws
    ["Vectors must have same length"]: it returns no result and scores
    nothing as 0.  [upsert] checks nothing: it appends whatever it is given
    and returns. *)
Theorem inmem_search_throws_on_dimension_mismatch
  (store : list QRVideoStoreIndexEntry) (query : list float) (limit : Z)
  (Hmismatch : Exists (fun e => length (embedding e) <> length query) store) :
  search Adapters.createInMemoryAdapter query limit store
  = (store, Thrown (Error "Vectors must have same length")) /\
  (forall entries,
      upsert Adapters.createInMemoryAdapter entries store
      = (store ++ entries, Returned tt)).
Proof.
  split; [| reflexivity].
  cbn [search Adapters.createInMemoryAdapter].
  unfold Adapters.inmem_search, bind, gets, liftO.
  destruct store as [|entry rest]; [inversion Hmismatch |].
  cbn [length Nat.eqb]. now rewrite score_all_mismatch.
Qed.

Lemma inmem_search_throws_on_dimension_mismatch_witness :
  search Adapters.createInMemoryAdapter [1%float; 0%float; 0%float] 5
    Scenario.store_one
  = (Scenario.store_one, Thrown (Error "Vectors must have same length")).
Proof.
  apply (inmem_search_throws_on_dimension_mismatch Scenario.store_one
           [1%float; 0%float; 0%float] 5).
  constructor. simpl. lia.
Defined.

(* ===================================================================== *)
(** * The retriever                                                       *)
(* ===================================================================== *)

(** ** The frame cache *)

Lemma JsMap_size_delete_first (cache : JsMap.t) (k : string) :
  JsMap.first_key cache = Some k ->
  JsMap.size (JsMap.delete cache k) = JsMap.size cache - 1.
Proof.
  destruct cache as [|[k' v'] cache]; [discriminate |].
  intros [= ->]. unfold JsMap.size. simpl. rewrite String.eqb_refl. lia.
Qed.

Lemma JsMap_size_set (cache : JsMap.t) (k v : string) :
  JsMap.size (JsMap.set cache k v) <= JsMap.size cache + 1.
Proof.
  unfold JsMap.size. induction cache as [|[k' v'] cache IH]; simpl; [lia |].
  destruct (String.eqb k' k); simpl; lia.
Qed.

(** With a capacity of at least one, an insertion keeps the cache within
    its capacity. *)
Lemma addToCache_map_bounded (maxSize : Z) (cache : JsMap.t) (k v : string) :
  1 <= maxSize ->
  JsMap.size cache <= maxSize ->
  Forall (fun key => truthy key = true) (JsMap.keys cache) ->
  JsMap.size (Retriever.addToCache_map maxSize cache k v) <= maxSize.
Proof.
  intros Hcap Hsize Hkeys. unfold Retriever.addToCache_map.
  pose proof (JsMap_size_set cache k v) as Hset.
  destruct (JsMap.size cache >=? maxSize)%Z eqn:Hfull; [| lia].
  destruct cache as [|[k' v'] cache]; [unfold JsMap.size in *; simpl in *; lia |].
  cbn [JsMap.first_key]. inversion Hkeys as [|? ? Hk' _]; subst. simpl in Hk'.
  rewrite Hk'.
  pose proof (JsMap_size_set (JsMap.delete ((k', v') :: cache) k') k v).
  rewrite (JsMap_size_delete_first ((k', v') :: cache) k') in * by reflexivity.
  lia.
Qed.

Section JsMapFacts.

Lemma JsMap_get_elem (m : JsMap.t) (k t : string) :
  JsMap.get m k = Some t -> (k, t) ∈ m.
Proof.
  induction m as [|[k' v'] m IH]; simpl; [discriminate |].
  destruct (String.eqb_spec k' k) as [-> | Hne].
  - intros [= ->]. left.
  - intros H. right. auto.
Qed.

Lemma JsMap_get_set_eq (m : JsMap.t) (k v : string) :
  JsMap.get (JsMap.set m k v) k = Some v.
Proof.
  induction m as [|[k' v'] m IH]; simpl.
  - now rewrite String.eqb_refl.
  - destruct (String.eqb k' k) eqn:E; simpl; rewrite E; [reflexivity | exact IH].
Qed.

Lemma JsMap_Forall_set (P : string * string -> Prop) (m : JsMap.t) (k v : string) :
  Forall P m -> P (k, v) -> Forall P (JsMap.set m k v).
Proof.
  intros Hm Hkv. induction Hm as [|[k' v'] m Hx Hm IH]; simpl.
  - constructor; [exact Hkv | constructor].
  - destruct (String.eqb_spec k' k) as [-> | Hne]; constructor; auto.
Qed.

Lemma JsMap_Forall_delete (P : string * string -> Prop) (m : JsMap.t) (k : string) :
  Forall P m -> Forall P (JsMap.delete m k).
Proof.
  induction 1 as [|[k' v'] m Hx Hm IH]; simpl; [constructor |].
  destruct (String.eqb k' k); [exact Hm | constructor; assumption].
Qed.

(** [addToCache] adds its entry and otherwise only removes. *)
Lemma addToCache_map_Forall (P : string * string -> Prop) (maxSize : Z)
  (cache : JsMap.t) (k v : string) :
  Forall P cache -> P (k, v) ->
  Forall P (Retriever.addToCache_map maxSize cache k v).
Proof.
  intros Hm Hkv. unfold Retriever.addToCache_map.
  apply JsMap_Forall_set; [| exact Hkv].
  destruct (JsMap.size cache >=? maxSize)%Z; [| exact Hm].
  destruct (JsMap.first_key cache) as [k0 |]; [| exact Hm].
  destruct (truthy k0); [apply JsMap_Forall_delete |]; exact Hm.
Qed.

Lemma addToCache_map_get (maxSize : Z) (cache : JsMap.t) (k v : string) :
  JsMap.get (Retriever.addToCache_map maxSize cache k v) k = Some v.
Proof. unfold Retriever.addToCache_map. apply JsMap_get_set_eq. Qed.

Lemma string_app_inv_head (a b c : string) : a +:+ b = a +:+ c -> b = c.
Proof. induction a as [|x a IH]; simpl; [trivial |]. intros [= H]. auto. Qed.

(** The keys of one video tell its frames apart and are never empty. *)
Lemma cache_key_inj (videoPath : string) (f f' : Z) :
  Retriever.cache_key videoPath f = Retriever.cache_key videoPath f' -> f = f'.
Proof.
  unfold Retriever.cache_key. intros H.
  apply string_app_inv_head in H. simpl in H. injection H as H.
  exact (pretty_Z_inj _ _ H).
Qed.

Lemma cache_key_truthy (videoPath : string) (f : Z) :
  truthy (Retriever.cache_key videoPath f) = true.
Proof. unfold Retriever.cache_key. destruct videoPath; reflexivity. Qed.

(** An insertion under a non-empty key keeps the cache within its
    capacity, one entry being admitted whatever the capacity. *)
Lemma addToCache_map_within (maxSize : Z) (cache : JsMap.t) (k v : string) :
  JsMap.size cache <= Z.max 1 maxSize ->
  Forall (fun key => truthy key = true) (JsMap.keys cache) ->
  truthy k = true ->
  JsMap.size (Retriever.addToCache_map maxSize cache k v) <= Z.max 1 maxSize /\
  Forall (fun key => truthy key = true)
    (JsMap.keys (Retriever.addToCache_map maxSize cache k v)).
Proof.
  intros Hsize Hkeys Hk. split.
  - unfold Retriever.addToCache_map.
    destruct (JsMap.size cache >=? maxSize)%Z eqn:Hfull.
    + destruct cache as [|[k' v'] cache]; [unfold JsMap.size; simpl; lia |].
      cbn [JsMap.first_key]. inversion Hkeys as [|? ? Hk' _]; subst.
      simpl in Hk'. rewrite Hk'.
      pose proof (JsMap_size_set (JsMap.delete ((k', v') :: cache) k') k v).
      rewrite (JsMap_size_delete_first ((k', v') :: cache) k') in * by reflexivity.
      lia.
    + pose proof (JsMap_size_set cache k v). lia.
  - unfold JsMap.keys in *. apply Forall_fmap. apply Forall_fmap in Hkeys.
    apply addToCache_map_Forall; [exact Hkeys | exact Hk].
Qed.

End JsMapFacts.

(** C8 on the code: the capacity defaults to 50, but eviction is by
    insertion order, not by use.  A retriever of capacity 2 decodes frames
    0 and 1, is asked for frame 0 again (a cache hit: no call is made for
    it) and then decodes frame 2: the entry evicted is the one of frame 0,
    the most recently used, and the least recently used entry of frame 1
    stays. *)
Theorem frame_cache_evicts_oldest_inserted :
  Retriever.maxCacheSize
    (Retriever.new_QRVideoStoreRetriever ([] : Adapters.Store) None) = 50 /\
  Retriever.frameCache (fst Scenario.cache_probe)
  = [("v.mp4:1", "chunk 1"); ("v.mp4:2", "chunk 2")] /\
  JsMap.get (Retriever.frameCache (fst Scenario.cache_probe)) "v.mp4:0" = None /\
  Retriever.calls (fst Scenario.cache_probe)
  = [Retriever.CallExistsSync "v.mp4"; Retriever.CallFfmpeg "v.mp4" 0;
     Retriever.CallQrDecode [Byte.x30];
     Retriever.CallExistsSync "v.mp4"; Retriever.CallFfmpeg "v.mp4" 1;
     Retriever.CallQrDecode [Byte.x31];
     Retriever.CallExistsSync "v.mp4"; Retriever.CallFfmpeg "v.mp4" 2;
     Retriever.CallQrDecode [Byte.x32]].
Proof. vm_compute. repeat split. Qed.

(** ** The loop of search *)

Ltac run_retriever :=
  unfold Retriever.decoded_text_for, Retriever.getFrameByNumber,
    Retriever.extractFrameAsBuffer, Retriever.decodeQrCodeFromBuffer,
    Retriever.addToCache, Retriever.log, Retriever.set_cache,
    bind, gets, modify, throw, ret, when;
  cbn [fst snd Retriever.frameCache Retriever.maxCacheSize Retriever.calls
         Retriever.database Retriever.r_verbose].

Section RetrieverFacts.

Context {D : Type} (ext : Retriever.Externals) (db : VectorDatabase D)
  (embedder : Embedder) (videoPath : string).

#[local] Abbreviation R := (Retriever.State D).

Lemma search_loop_app (l1 l2 : list QRVideoStoreIndexEntry)
  (acc : list SearchResult) (r : R) :
  Retriever.search_loop ext videoPath (l1 ++ l2) acc r
  = bind (Retriever.search_loop ext videoPath l1 acc)
      (fun acc1 => Retriever.search_loop ext videoPath l2 acc1) r.
Proof.
  revert acc r. induction l1 as [|h l1 IH]; intros acc r; [reflexivity |].
  cbn [app Retriever.search_loop]. unfold bind.
  destruct (Retriever.decoded_text_for ext videoPath h r) as [r1 [[t |] | e |]];
    try reflexivity; rewrite IH; reflexivity.
Qed.

(** A hit whose text is in the cache is answered from it: no call is
    made and the state stays as it is. *)
Lemma decoded_text_for_cached (h : QRVideoStoreIndexEntry) (r : R) :
  Retriever.cached (Retriever.frameCache r) videoPath h = true ->
  exists t,
    JsMap.get (Retriever.frameCache r)
      (Retriever.cache_key videoPath (frameNumber h)) = Some t /\
    truthy t = true /\
    Retriever.decoded_text_for ext videoPath h r = (r, Returned (Some t)).
Proof.
  unfold Retriever.cached. run_retriever.
  destruct (JsMap.get _ _) as [t |]; simpl; [| discriminate].
  destruct (truthy t) eqn:Ht; simpl; [| discriminate].
  intros _. exists t. auto.
Qed.

Lemma search_loop_all_cached (hits : list QRVideoStoreIndexEntry)
  (acc : list SearchResult) (r : R) :
  Forall (fun h => Retriever.cached (Retriever.frameCache r) videoPath h = true) hits ->
  exists results,
    Retriever.search_loop ext videoPath hits acc r = (r, Returned (acc ++ results)) /\
    length results = length hits.
Proof.
  intros Hall. revert acc.
  induction Hall as [|h hits Hh Hall IH]; intros acc; simpl.
  - exists []. now rewrite app_nil_r.
  - destruct (decoded_text_for_cached h r Hh) as [t [_ [_ Hrun]]].
    unfold bind. rewrite Hrun.
    destruct (IH (acc ++ [Retriever.to_result t h])) as [results [Hloop Hlen]].
    rewrite Hloop, <- app_assoc. eexists. split; [reflexivity |].
    simpl. now rewrite Hlen.
Qed.

(** A hit that is not in the cache sends the retriever to the video file:
    it asks whether the file exists before anything else. *)
Lemma decoded_text_for_uncached_calls (h : QRVideoStoreIndexEntry) (r : R) :
  Retriever.cached (Retriever.frameCache r) videoPath h = false ->
  exists rest,
    Retriever.calls (fst (Retriever.decoded_text_for ext videoPath h r))
    = Retriever.calls r ++ Retriever.CallExistsSync videoPath :: rest.
Proof.
  unfold Retriever.cached. intros Hc. apply negb_false_iff in Hc.
  run_retriever. rewrite Hc.
  destruct (Retriever.fs_existsSync ext videoPath); simpl;
    [| exists []; reflexivity].
  destruct (Retriever.ffmpeg_frame ext videoPath (frameNumber h) "png") as [buf |];
    simpl; [| rewrite <- app_assoc; eexists; reflexivity].
  destruct (Z.of_nat (length buf) >? 0)%Z; simpl;
    [| rewrite <- app_assoc; eexists; reflexivity].
  destruct (Retriever.qr_read ext buf) as [e | | data]; simpl;
    try destruct (truthy data); simpl;
    rewrite <- !app_assoc; eexists; reflexivity.
Qed.

Section MissingVideo.

Hypothesis Hmissing : Retriever.fs_existsSync ext videoPath = false.

Lemma decoded_text_for_missing (h : QRVideoStoreIndexEntry) (r : R) :
  Retriever.cached (Retriever.frameCache r) videoPath h = false ->
  let run := Retriever.decoded_text_for ext videoPath h r in
  snd run = Thrown (Error ("Video file not found: " +:+ videoPath)) /\
  Retriever.calls (fst run)
  = Retriever.calls r ++ [Retriever.CallExistsSync videoPath] /\
  Retriever.frameCache (fst run) = Retriever.frameCache r.
Proof.
  unfold Retriever.cached. intros Hc. apply negb_false_iff in Hc.
  cbn zeta. run_retriever. rewrite Hc, Hmissing. simpl. auto.
Qed.

Lemma search_loop_missing (pre post : list QRVideoStoreIndexEntry)
  (h : QRVideoStoreIndexEntry) (acc : list SearchResult) (r : R) :
  Forall (fun x => Retriever.cached (Retriever.frameCache r) videoPath x = true) pre ->
  Retriever.cached (Retriever.frameCache r) videoPath h = false ->
  let run := Retriever.search_loop ext videoPath (pre ++ h :: post) acc r in
  snd run = Thrown (Error ("Video file not found: " +:+ videoPath)) /\
  Retriever.calls (fst run)
  = Retriever.calls r ++ [Retriever.CallExistsSync videoPath] /\
  Retriever.frameCache (fst run) = Retriever.frameCache r.
Proof.
  intros Hpre Hh. cbn zeta. rewrite search_loop_app. unfold bind.
  destruct (search_loop_all_cached pre acc r Hpre) as [results [Hloop _]].
  rewrite Hloop. cbn [Retriever.search_loop]. unfold bind.
  destruct (decoded_text_for_missing h r Hh) as [Hthrown [Hcalls Hcache]].
  destruct (Retriever.decoded_text_for ext videoPath h r) as [r1 o].
  simpl in Hthrown, Hcalls, Hcache. subst o. simpl. auto.
Qed.

End MissingVideo.

(** [search] is the loop run on the hits of the index, in the state in
    which the query has been embedded and the index searched. *)
Lemma search_unfold (query : string) (matchCount : option Z) (r : R)
  (e : list float) (d' : D) (hits : list QRVideoStoreIndexEntry) :
  embed embedder query = Returned e ->
  search db e (default 5 matchCount) (Retriever.database r) = (d', Returned hits) ->
  Retriever.search ext db embedder query videoPath matchCount r
  = Retriever.search_loop ext videoPath hits []
      {| Retriever.database := d';
         Retriever.r_verbose := Retriever.r_verbose r;
         Retriever.frameCache := Retriever.frameCache r;
         Retriever.maxCacheSize := Retriever.maxCacheSize r;
         Retriever.calls :=
           Retriever.calls r
           ++ [Retriever.CallEmbed query;
               Retriever.CallIndexSearch (default 5 matchCount)] |}.
Proof.
  intros Hembed Hindex.
  unfold Retriever.search, Retriever.retrieveChunks, Retriever.liftDb,
    Retriever.log, bind, liftO, modify, ret.
  cbn [Retriever.database Retriever.calls Retriever.frameCache
         Retriever.maxCacheSize Retriever.r_verbose].
  rewrite Hembed, Hindex. now rewrite <- app_assoc.
Qed.

End RetrieverFacts.

(** The claim C6 as it is stated does not hold.  For a video that does
    not exist: on an empty index [search] returns the empty list after
    having embedded the query and searched the index; with one hit in the
    index it throws, but only after those two calls; and with that hit in
    the cache it returns the cached text and never looks for the file. *)
Lemma search_of_missing_video_works_first :
  (snd Scenario.search_missing_empty_index = Returned [] /\
   Retriever.calls (fst Scenario.search_missing_empty_index)
   = [Retriever.CallEmbed "query"; Retriever.CallIndexSearch 5]) /\
  (snd Scenario.search_missing_one_hit
   = Thrown (Error "Video file not found: v.mp4") /\
   Retriever.calls (fst Scenario.search_missing_one_hit)
   = [Retriever.CallEmbed "query"; Retriever.CallIndexSearch 5;
      Retriever.CallExistsSync "v.mp4"]) /\
  (exists results,
      snd Scenario.search_missing_warm_cache = Returned results /\
      map sr_text results = ["chunk 0"]).
Proof.
  split; [vm_compute; split; reflexivity |].
  split; [vm_compute; split; reflexivity |].
  eexists. split; vm_compute; reflexivity.
Qed.

(** C6, amended. For a video that does not exist, [search] first embeds
    the query and searches the index.  If the text of every hit is in the
    frame cache it returns a result for each hit and never looks for the
    file.  Otherwise it throws ["Video file not found: <path>"] at the first
    hit, in hit order, whose text is not in the cache: after the embedding
    and the index search, before any call of the video tool, and leaving
    the cache as it was. *)
Theorem search_missing_video_checked_at_first_uncached_hit {D : Type}
  (ext : Retriever.Externals) (db : VectorDatabase D) (embedder : Embedder)
  (query videoPath : string) (matchCount : option Z) (r : Retriever.State D)
  (e : list float) (d' : D) (hits : list QRVideoStoreIndexEntry)
  (Hmissing : Retriever.fs_existsSync ext videoPath = false)
  (Hembed : embed embedder query = Returned e)
  (Hindex : search db e (default 5 matchCount) (Retriever.database r)
            = (d', Returned hits)) :
  let run := Retriever.search ext db embedder query videoPath matchCount r in
  let searched :=
    Retriever.calls r
    ++ [Retriever.CallEmbed query; Retriever.CallIndexSearch (default 5 matchCount)] in
  (Forall (fun h => Retriever.cached (Retriever.frameCache r) videoPath h = true) hits ->
   exists results,
     snd run = Returned results /\
     length results = length hits /\
     Retriever.calls (fst run) = searched) /\
  (forall pre h post,
      hits = pre ++ h :: post ->
      Forall (fun x => Retriever.cached (Retriever.frameCache r) videoPath x = true) pre ->
      Retriever.cached (Retriever.frameCache r) videoPath h = false ->
      snd run = Thrown (Error ("Video file not found: " +:+ videoPath)) /\
      Retriever.calls (fst run) = searched ++ [Retriever.CallExistsSync videoPath] /\
      Retriever.frameCache (fst run) = Retriever.frameCache r).
Proof.
  cbn zeta. rewrite (search_unfold ext db embedder videoPath query matchCount r e d' hits)
    by assumption.
  split.
  - intros Hall.
    match goal with
    | |- context [Retriever.search_loop ext videoPath hits [] ?r1] =>
        destruct (search_loop_all_cached ext videoPath hits [] r1 Hall)
          as [results [Hloop Hlen]]
    end.
    rewrite Hloop. exists results. simpl. auto.
  - intros pre h post -> Hpre Hh.
    match goal with
    | |- context [Retriever.search_loop ext videoPath _ [] ?r1] =>
        destruct (search_loop_missing ext videoPath Hmissing pre post h [] r1 Hpre Hh)
          as [Hthrown [Hcalls Hcache]]
    end.
    auto.
Qed.

Lemma search_missing_video_checked_at_first_uncached_hit_witness :
  Retriever.fs_existsSync Scenario.ext_missing "v.mp4" = false /\
  snd Scenario.search_missing_one_hit
  = Thrown (Error "Video file not found: v.mp4") /\
  Retriever.calls (fst Scenario.search_missing_one_hit)
  = [Retriever.CallEmbed "query"; Retriever.CallIndexSearch 5;
     Retriever.CallExistsSync "v.mp4"].
Proof.
  split; [reflexivity |].
  destruct (search_missing_video_checked_at_first_uncached_hit
              Scenario.ext_missing Adapters.createInMemoryAdapter
              Scenario.embedder_const "query" "v.mp4" None
              (Scenario.retriever_cap None Scenario.store_one)
              [1%float; 0%float] Scenario.store_one
              [Adapters.with_similarity (Scenario.entry 0 [1%float; 0%float])
                 1%float])
    as [_ Huncached]; [reflexivity | reflexivity | vm_compute; reflexivity |].
  destruct (Huncached []
              (Adapters.with_similarity (Scenario.entry 0 [1%float; 0%float]) 1%float)
              [])
    as [Hthrown [Hcalls _]]; [reflexivity | constructor | reflexivity |].
  split; [exact Hthrown | exact Hcalls].
Defined.

(** ** Failing frames of an existing video *)

Section ExistingVideo.

Context {D : Type} (ext : Retriever.Externals) (videoPath : string).

#[local] Abbreviation R' := (Retriever.State D).

(** What the body of the loop yields and what it leaves in the cache
    depend on the cache and its capacity only, not on the log of calls. *)
Lemma decoded_text_for_same_cache (h : QRVideoStoreIndexEntry) (r1 r2 : R') :
  Retriever.same_cache r1 r2 ->
  snd (Retriever.decoded_text_for ext videoPath h r1)
  = snd (Retriever.decoded_text_for ext videoPath h r2) /\
  Retriever.same_cache (fst (Retriever.decoded_text_for ext videoPath h r1))
    (fst (Retriever.decoded_text_for ext videoPath h r2)).
Proof.
  destruct r1 as [d1 v1 c1 m1 l1], r2 as [d2 v2 c2 m2 l2].
  unfold Retriever.same_cache. simpl. intros [-> ->].
  run_retriever.
  destruct (Retriever.falsy (JsMap.get c2 _)); simpl; [| auto].
  destruct (Retriever.fs_existsSync ext videoPath); simpl; [| auto].
  destruct (Retriever.ffmpeg_frame ext videoPath (frameNumber h) "png") as [buf |];
    simpl; [| auto].
  destruct (Z.of_nat (length buf) >? 0)%Z; simpl; [| auto].
  destruct (Retriever.qr_read ext buf) as [e | | data]; simpl; auto.
  destruct (truthy data); simpl; auto.
Qed.

Lemma search_loop_same_cache (hits : list QRVideoStoreIndexEntry)
  (acc : list SearchResult) (r1 r2 : R') :
  Retriever.same_cache r1 r2 ->
  snd (Retriever.search_loop ext videoPath hits acc r1)
  = snd (Retriever.search_loop ext videoPath hits acc r2) /\
  Retriever.same_cache (fst (Retriever.search_loop ext videoPath hits acc r1))
    (fst (Retriever.search_loop ext videoPath hits acc r2)).
Proof.
  revert acc r1 r2. induction hits as [|h hits IH]; intros acc r1 r2 Hsame.
  - simpl. auto.
  - cbn [Retriever.search_loop]. unfold bind.
    destruct (decoded_text_for_same_cache h r1 r2 Hsame) as [Hout Hsame'].
    destruct (Retriever.decoded_text_for ext videoPath h r1) as [r1' o1].
    destruct (Retriever.decoded_text_for ext videoPath h r2) as [r2' o2].
    simpl in Hout, Hsame'. subst o2.
    destruct o1 as [[t |] | e |]; simpl; auto.
Qed.

Hypothesis Hexists : Retriever.fs_existsSync ext videoPath = true.

(** On an existing video the body of the loop returns: with the text of
    the frame, or with nothing where the frame has to be skipped. *)
Lemma decoded_text_for_returns (h : QRVideoStoreIndexEntry) (r : R') :
  exists t, snd (Retriever.decoded_text_for ext videoPath h r) = Returned t.
Proof.
  run_retriever.
  destruct (Retriever.falsy (JsMap.get _ _)); simpl; [| eauto].
  rewrite Hexists. simpl.
  destruct (Retriever.ffmpeg_frame ext videoPath (frameNumber h) "png") as [buf |];
    simpl; [| eauto].
  destruct (Z.of_nat (length buf) >? 0)%Z; simpl; [| eauto].
  destruct (Retriever.qr_read ext buf) as [e | | data]; simpl; eauto.
  destruct (truthy data); simpl; eauto.
Qed.

(** The loop returns, and what it returns extends the results so far. *)
Lemma search_loop_extends (hits : list QRVideoStoreIndexEntry)
  (acc : list SearchResult) (r : R') :
  exists rest,
    snd (Retriever.search_loop ext videoPath hits acc r) = Returned (acc ++ rest).
Proof.
  revert acc r. induction hits as [|h hits IH]; intros acc r.
  - exists []. simpl. now rewrite app_nil_r.
  - cbn [Retriever.search_loop]. unfold bind.
    destruct (decoded_text_for_returns h r) as [t Ht].
    destruct (Retriever.decoded_text_for ext videoPath h r) as [r1 o].
    simpl in Ht. subst o. destruct t as [t |]; [| apply IH].
    destruct (IH (acc ++ [Retriever.to_result t h]) r1) as [rest Hrest].
    rewrite Hrest, <- app_assoc. eexists. reflexivity.
Qed.

(** A hit that is not in the cache is decoded from its frame: a frame
    that yields no text, or an empty one, is skipped and the cache stays
    as it is; a frame that yields a text gives that text. *)
Lemma decoded_text_for_uncached (h : QRVideoStoreIndexEntry) (r : R') :
  Retriever.cached (Retriever.frameCache r) videoPath h = false ->
  let run := Retriever.decoded_text_for ext videoPath h r in
  match Retriever.frame_text ext videoPath (frameNumber h) with
  | Some t =>
      if truthy t then snd run = Returned (Some t)
      else snd run = Returned None /\ Retriever.same_cache (fst run) r
  | None => snd run = Returned None /\ Retriever.same_cache (fst run) r
  end.
Proof.
  unfold Retriever.cached, Retriever.frame_text, Retriever.same_cache.
  intros Hc. apply negb_false_iff in Hc. cbn zeta.
  run_retriever. rewrite Hc, Hexists. simpl.
  destruct (Retriever.ffmpeg_frame ext videoPath (frameNumber h) "png") as [buf |];
    simpl; [| auto].
  destruct (Z.of_nat (length buf) >? 0)%Z; simpl; [| auto].
  destruct (Retriever.qr_read ext buf) as [e | | data]; simpl; auto.
  destruct (truthy data); simpl; auto.
Qed.

(** Where the body of the loop skips a hit and keeps the cache, the loop
    goes on as if the hit had not been among the hits. *)
Lemma search_loop_skip (pre post : list QRVideoStoreIndexEntry)
  (h : QRVideoStoreIndexEntry) (acc acc_mid : list SearchResult) (r r_mid : R') :
  Retriever.search_loop ext videoPath pre acc r = (r_mid, Returned acc_mid) ->
  snd (Retriever.decoded_text_for ext videoPath h r_mid) = Returned None ->
  Retriever.same_cache (fst (Retriever.decoded_text_for ext videoPath h r_mid)) r_mid ->
  exists results,
    snd (Retriever.search_loop ext videoPath (pre ++ h :: post) acc r)
    = Returned results /\
    snd (Retriever.search_loop ext videoPath (pre ++ post) acc r)
    = Returned results /\
    Retriever.frameCache
      (fst (Retriever.search_loop ext videoPath (pre ++ h :: post) acc r))
    = Retriever.frameCache
        (fst (Retriever.search_loop ext videoPath (pre ++ post) acc r)).
Proof.
  intros Hpre Hnone Hsame.
  rewrite !search_loop_app. unfold bind. rewrite Hpre.
  cbn [Retriever.search_loop]. unfold bind.
  destruct (Retriever.decoded_text_for ext videoPath h r_mid) as [r1 o].
  simpl in Hnone, Hsame. subst o.
  destruct (search_loop_same_cache post acc_mid r1 r_mid Hsame) as [Hout [Hcache _]].
  destruct (search_loop_extends post acc_mid r_mid) as [rest Hrest].
  exists (acc_mid ++ rest). rewrite Hout. auto.
Qed.

End ExistingVideo.

(** ** The loop of search against the retrieval steps of the specification *)

Section RetrievalSteps.

Context {D : Type} (ext : Retriever.Externals) (videoPath : string).

Hypothesis Hexists : Retriever.fs_existsSync ext videoPath = true.

(** Over an existing video the body of the loop is step 3 of the
    specification for its hit. *)
Lemma decoded_text_for_steps (h : QRVideoStoreIndexEntry)
  (r : Retriever.State D) :
  let run := Retriever.decoded_text_for ext videoPath h r in
  snd run = Returned (Spec.hit_text ext videoPath (Retriever.frameCache r) h) /\
  Retriever.frameCache (fst run)
  = Spec.cache_after ext videoPath (Retriever.maxCacheSize r)
      (Retriever.frameCache r) h /\
  Retriever.maxCacheSize (fst run) = Retriever.maxCacheSize r.
Proof.
  cbn zeta.
  unfold Spec.hit_text, Spec.cache_after, Retriever.cached,
    Retriever.expected_text, Retriever.frame_text.
  run_retriever.
  destruct (Retriever.falsy (JsMap.get _ _)); simpl; [| auto].
  rewrite Hexists. simpl.
  destruct (Retriever.ffmpeg_frame ext videoPath (frameNumber h) "png") as [buf |];
    simpl; [| auto].
  destruct (Z.of_nat (length buf) >? 0)%Z; simpl; [| auto].
  destruct (Retriever.qr_read ext buf) as [e | | data]; simpl; auto.
  destruct (truthy data); simpl; auto.
Qed.

Lemma search_loop_steps (hits : list QRVideoStoreIndexEntry)
  (acc : list SearchResult) (r : Retriever.State D) :
  snd (Retriever.search_loop ext videoPath hits acc r)
  = Returned (acc ++ Spec.search_results ext videoPath (Retriever.maxCacheSize r)
                       (Retriever.frameCache r) hits).
Proof.
  revert acc r. induction hits as [|h hits IH]; intros acc r.
  - simpl. now rewrite app_nil_r.
  - cbn [Retriever.search_loop Spec.search_results]. unfold bind.
    destruct (decoded_text_for_steps h r) as (Hout & Hcache & Hmax).
    destruct (Retriever.decoded_text_for ext videoPath h r) as [r1 o].
    simpl in Hout, Hcache, Hmax. subst o.
    destruct (Spec.hit_text ext videoPath (Retriever.frameCache r) h) as [t |];
      rewrite IH, Hcache, Hmax; [| reflexivity].
    now rewrite <- app_assoc.
Qed.

(** The results follow the hits in their order. *)
Lemma search_results_sublist (maxSize : Z) (cache : JsMap.t)
  (hits : list QRVideoStoreIndexEntry) :
  map sr_frameNumber (Spec.search_results ext videoPath maxSize cache hits)
  `sublist_of` map frameNumber hits.
Proof.
  revert cache. induction hits as [|h hits IH]; intros cache; simpl.
  - constructor.
  - destruct (Spec.hit_text ext videoPath cache h) as [t |]; simpl.
    + apply sublist_skip, IH.
    + apply sublist_cons, IH.
Qed.

(** A frame that yields no text and is not in the cache gives no
    result. *)
Lemma search_results_omits (maxSize : Z) (f : Z)
  (hits : list QRVideoStoreIndexEntry) (cache : JsMap.t) :
  Retriever.expected_text ext videoPath f = None ->
  Forall (fun kv => fst kv <> Retriever.cache_key videoPath f) cache ->
  Forall (fun res => sr_frameNumber res <> f)
    (Spec.search_results ext videoPath maxSize cache hits).
Proof.
  intros Hfails. revert cache.
  induction hits as [|h hits IH]; intros cache Hkeys; simpl; [constructor |].
  assert (Hafter : Forall (fun kv => fst kv <> Retriever.cache_key videoPath f)
                     (Spec.cache_after ext videoPath maxSize cache h)).
  { unfold Spec.cache_after.
    destruct (Retriever.cached cache videoPath h); [exact Hkeys |].
    destruct (Retriever.expected_text ext videoPath (frameNumber h)) as [t |] eqn:Ht;
      [| exact Hkeys].
    apply addToCache_map_Forall; [exact Hkeys |]. simpl.
    intros Heq. apply cache_key_inj in Heq. congruence. }
  destruct (Spec.hit_text ext videoPath cache h) as [t |] eqn:Ht; [| auto].
  constructor; [| auto]. simpl. intros Heq.
  unfold Spec.hit_text in Ht. rewrite Heq in Ht.
  destruct (Retriever.cached cache videoPath h); [| congruence].
  apply JsMap_get_elem in Ht.
  rewrite Forall_forall in Hkeys. apply (Hkeys _ Ht). reflexivity.
Qed.

(** A hit whose frame yields a text, and for whose frame the cache holds
    no other text, gives a result with that text. *)
Lemma search_results_keeps (maxSize : Z) (f : Z) (t : string)
  (hits : list QRVideoStoreIndexEntry) (cache : JsMap.t) :
  Retriever.expected_text ext videoPath f = Some t ->
  Forall (fun kv => fst kv = Retriever.cache_key videoPath f -> snd kv = t) cache ->
  forall h, h ∈ hits -> frameNumber h = f ->
    Retriever.to_result t h ∈ Spec.search_results ext videoPath maxSize cache hits.
Proof.
  intros Htext. revert cache.
  induction hits as [|h0 hits IH]; intros cache Hagree h Hin Hf;
    [now apply elem_of_nil in Hin |].
  assert (Hafter : Forall (fun kv => fst kv = Retriever.cache_key videoPath f ->
                                     snd kv = t)
                     (Spec.cache_after ext videoPath maxSize cache h0)).
  { unfold Spec.cache_after.
    destruct (Retriever.cached cache videoPath h0); [exact Hagree |].
    destruct (Retriever.expected_text ext videoPath (frameNumber h0)) as [t0 |] eqn:Ht0;
      [| exact Hagree].
    apply addToCache_map_Forall; [exact Hagree |]. simpl.
    intros Heq. apply cache_key_inj in Heq. congruence. }
  cbn [Spec.search_results]. cbv zeta.
  apply elem_of_cons in Hin as [-> | Hin].
  - assert (Hhit : Spec.hit_text ext videoPath cache h0 = Some t).
    { unfold Spec.hit_text, Retriever.cached. rewrite Hf.
      destruct (JsMap.get cache (Retriever.cache_key videoPath f)) as [c |] eqn:Hget;
        simpl; [| exact Htext].
      destruct (truthy c); simpl; [| exact Htext].
      apply JsMap_get_elem in Hget.
      rewrite Forall_forall in Hagree. f_equal. now apply (Hagree _ Hget). }
    rewrite Hhit. apply elem_of_cons. now left.
  - specialize (IH _ Hafter h Hin Hf).
    destruct (Spec.hit_text ext videoPath cache h0);
      [apply elem_of_cons; now right | exact IH].
Qed.

End RetrievalSteps.

(** Nothing is held for a key that is not among the keys. *)
Lemma JsMap_not_key (m : JsMap.t) (k : string) (P : string -> Prop) :
  k ∉ JsMap.keys m -> Forall (fun kv => fst kv = k -> P (snd kv)) m.
Proof.
  intros Hk. apply Forall_forall. intros [k' v] Hin Heq. simpl in *. subst k'.
  exfalso. apply Hk. apply list_elem_of_In. unfold JsMap.keys.
  apply in_map_iff. exists (k, v). split; [reflexivity |].
  now apply list_elem_of_In.
Qed.

(** C7. Over an existing video, once the embedder has embedded the query
    and the index has returned its hits, [search] returns: a frame that
    cannot be extracted or decoded never makes it throw.  What it returns
    is, hit after hit in their order, what step 3 of the retrieval
    algorithm yields: the cached text on a cache hit, otherwise the text
    the frame decodes to, and no result where extraction or decoding fails
    (or the text is empty).  So a hit whose frame is not in the cache when
    the search starts and fails to extract or decode is omitted, and no
    result bears its frame number; and every hit whose frame is not in the
    cache and decodes to a text is returned with that text, whatever fails
    before or after it. *)
Theorem search_skips_failed_hits {D : Type} (ext : Retriever.Externals)
  (db : VectorDatabase D) (embedder : Embedder) (query videoPath : string)
  (matchCount : option Z) (r : Retriever.State D) (e : list float) (d' : D)
  (hits : list QRVideoStoreIndexEntry)
  (Hexists : Retriever.fs_existsSync ext videoPath = true)
  (Hembed : embed embedder query = Returned e)
  (Hindex : search db e (default 5 matchCount) (Retriever.database r)
            = (d', Returned hits)) :
  exists results,
    snd (Retriever.search ext db embedder query videoPath matchCount r)
    = Returned results /\
    results
    = Spec.search_results ext videoPath (Retriever.maxCacheSize r)
        (Retriever.frameCache r) hits /\
    map sr_frameNumber results `sublist_of` map frameNumber hits /\
    (forall h,
        h ∈ hits ->
        Retriever.cache_key videoPath (frameNumber h)
          ∉ JsMap.keys (Retriever.frameCache r) ->
        Retriever.expected_text ext videoPath (frameNumber h) = None ->
        forall res, res ∈ results -> sr_frameNumber res <> frameNumber h) /\
    (forall h t,
        h ∈ hits ->
        Retriever.cache_key videoPath (frameNumber h)
          ∉ JsMap.keys (Retriever.frameCache r) ->
        Retriever.expected_text ext videoPath (frameNumber h) = Some t ->
        Retriever.to_result t h ∈ results).
Proof.
  eexists. split.
  - rewrite (search_unfold ext db embedder videoPath query matchCount r e d' hits)
      by assumption.
    rewrite (search_loop_steps ext videoPath Hexists). reflexivity.
  - cbn [Retriever.maxCacheSize Retriever.frameCache app].
    split; [reflexivity |].
    split; [apply search_results_sublist |]. split.
    + intros h _ Hcold Hfails res Hres.
      assert (Hnone : Forall (fun res => sr_frameNumber res <> frameNumber h)
                        (Spec.search_results ext videoPath (Retriever.maxCacheSize r)
                           (Retriever.frameCache r) hits)).
      { apply search_results_omits; [exact Hfails |].
        apply (JsMap_not_key _ _ (fun _ => False)). exact Hcold. }
      rewrite Forall_forall in Hnone. now apply Hnone.
    + intros h t Hin Hcold Htext.
      apply (search_results_keeps ext videoPath (Retriever.maxCacheSize r)
               (frameNumber h) t hits (Retriever.frameCache r) Htext);
        [| exact Hin | reflexivity].
      apply (JsMap_not_key _ _ (fun v => v = t)). exact Hcold.
Qed.

Lemma search_skips_failed_hits_witness :
  Retriever.fs_existsSync Scenario.ext_bad_frame "v.mp4" = true /\
  Retriever.expected_text Scenario.ext_bad_frame "v.mp4" 1 = None /\
  exists results,
    snd (Retriever.search Scenario.ext_bad_frame Adapters.createInMemoryAdapter
           Scenario.embedder_const "query" "v.mp4" None
           (Scenario.retriever_cap None Scenario.store_three))
    = Returned results /\
    map sr_text results = ["chunk 0"; "chunk 2"].
Proof.
  split; [reflexivity | split; [reflexivity |]].
  destruct (search_skips_failed_hits Scenario.ext_bad_frame
              Adapters.createInMemoryAdapter Scenario.embedder_const "query"
              "v.mp4" None (Scenario.retriever_cap None Scenario.store_three)
              [1%float; 0%float] Scenario.store_three
              [Scenario.hit 0; Scenario.hit 1; Scenario.hit 2])
    as (results & Hrun & -> & _);
    [reflexivity | reflexivity | vm_compute; reflexivity |].
  eexists. split; [exact Hrun | reflexivity].
Defined.

(** ** Empty payloads *)

Section EmptyPayload.

Context {D : Type} (ext : Retriever.Externals) (videoPath : string).

Lemma decoded_text_for_empty_as_failure (h : QRVideoStoreIndexEntry)
  (r : Retriever.State D) :
  Retriever.decoded_text_for ext videoPath h r
  = Retriever.decoded_text_for (Retriever.empty_as_failure ext) videoPath h r.
Proof.
  run_retriever. cbn [Retriever.fs_existsSync Retriever.ffmpeg_frame
                        Retriever.qr_read Retriever.empty_as_failure].
  destruct (Retriever.falsy (JsMap.get _ _)); [| reflexivity].
  destruct (Retriever.fs_existsSync ext videoPath); simpl; [| reflexivity].
  destruct (Retriever.ffmpeg_frame ext videoPath (frameNumber h) "png") as [buf |];
    simpl; [| reflexivity].
  destruct (Z.of_nat (length buf) >? 0)%Z; simpl; [| reflexivity].
  destruct (Retriever.qr_read ext buf) as [e | | data]; simpl; try reflexivity.
  destruct (truthy data) eqn:Ht; simpl; [rewrite Ht |]; reflexivity.
Qed.

Lemma search_loop_empty_as_failure (hits : list QRVideoStoreIndexEntry)
  (acc : list SearchResult) (r : Retriever.State D) :
  Retriever.search_loop ext videoPath hits acc r
  = Retriever.search_loop (Retriever.empty_as_failure ext) videoPath hits acc r.
Proof.
  revert acc r. induction hits as [|h hits IH]; intros acc r; [reflexivity |].
  cbn [Retriever.search_loop]. unfold bind.
  rewrite <- decoded_text_for_empty_as_failure.
  destruct (Retriever.decoded_text_for ext videoPath h r) as [r1 [[t |] | e |]];
    try reflexivity; apply IH.
Qed.

Lemma getFrameByNumber_empty_as_failure (f : Z) (r : Retriever.State D) :
  let run := Retriever.getFrameByNumber ext videoPath f r in
  let run' :=
    Retriever.getFrameByNumber (Retriever.empty_as_failure ext) videoPath f r in
  fst run = fst run' /\
  (snd run = snd run' \/
   (snd run = Returned (Some "") /\ snd run' = Returned None /\
    Retriever.frameCache (fst run) = Retriever.frameCache r)).
Proof.
  cbn zeta. run_retriever.
  cbn [Retriever.fs_existsSync Retriever.ffmpeg_frame Retriever.qr_read
         Retriever.empty_as_failure].
  destruct (Retriever.falsy (JsMap.get _ _)); simpl; [| auto].
  destruct (Retriever.fs_existsSync ext videoPath); simpl; [| auto].
  destruct (Retriever.ffmpeg_frame ext videoPath f "png") as [buf |];
    simpl; [| auto].
  destruct (Z.of_nat (length buf) >? 0)%Z; simpl; [| auto].
  destruct (Retriever.qr_read ext buf) as [e | | data]; simpl; auto.
  destruct data as [|c data]; simpl; auto.
Qed.

(** A lookup that the cache does not answer sends [getFrameByNumber] to
    the video file. *)
Lemma getFrameByNumber_uncached_calls (f : Z) (r : Retriever.State D) :
  Retriever.falsy
    (JsMap.get (Retriever.frameCache r) (Retriever.cache_key videoPath f)) = true ->
  exists rest,
    Retriever.calls (fst (Retriever.getFrameByNumber ext videoPath f r))
    = Retriever.calls r ++ Retriever.CallExistsSync videoPath :: rest.
Proof.
  intros Hc. run_retriever. rewrite Hc. simpl.
  destruct (Retriever.fs_existsSync ext videoPath); simpl;
    [| exists []; reflexivity].
  destruct (Retriever.ffmpeg_frame ext videoPath f "png") as [buf |];
    simpl; [| rewrite <- app_assoc; eexists; reflexivity].
  destruct (Z.of_nat (length buf) >? 0)%Z; simpl;
    [| rewrite <- app_assoc; eexists; reflexivity].
  destruct (Retriever.qr_read ext buf) as [e | | data]; simpl;
    try destruct (truthy data); simpl;
    rewrite <- !app_assoc; eexists; reflexivity.
Qed.

End EmptyPayload.

(** C10. An empty decoded payload is a decode failure to the retriever.
    [search] behaves, in its outcome and in the state it leaves, as it does
    with a QR reader that finds no code where the given one reads an empty
    payload; over an existing video a hit whose frame decodes to the empty
    string is dropped from the results, the other hits being processed as
    without it.  [getFrameByNumber] leaves the same state as with that
    reader, and where it hands back the empty string it has cached
    nothing.  An empty string held in the cache is not a cache hit: both
    operations go to the video file for the frame. *)
Theorem empty_payload_is_decode_failure {D : Type} (ext : Retriever.Externals)
  (db : VectorDatabase D) (embedder : Embedder) (videoPath : string) :
  (forall query matchCount (r : Retriever.State D),
      Retriever.search ext db embedder query videoPath matchCount r
      = Retriever.search (Retriever.empty_as_failure ext) db embedder query
          videoPath matchCount r) /\
  (Retriever.fs_existsSync ext videoPath = true ->
   forall pre h post acc (r r_mid : Retriever.State D) acc_mid,
     Retriever.search_loop ext videoPath pre acc r = (r_mid, Returned acc_mid) ->
     Retriever.cached (Retriever.frameCache r_mid) videoPath h = false ->
     Retriever.frame_text ext videoPath (frameNumber h) = Some "" ->
     exists results,
       snd (Retriever.search_loop ext videoPath (pre ++ h :: post) acc r)
       = Returned results /\
       snd (Retriever.search_loop ext videoPath (pre ++ post) acc r)
       = Returned results /\
       Retriever.frameCache
         (fst (Retriever.search_loop ext videoPath (pre ++ h :: post) acc r))
       = Retriever.frameCache
           (fst (Retriever.search_loop ext videoPath (pre ++ post) acc r))) /\
  (forall f (r : Retriever.State D),
      let run := Retriever.getFrameByNumber ext videoPath f r in
      let run' :=
        Retriever.getFrameByNumber (Retriever.empty_as_failure ext) videoPath f r in
      fst run = fst run' /\
      (snd run = snd run' \/
       (snd run = Returned (Some "") /\ snd run' = Returned None /\
        Retriever.frameCache (fst run) = Retriever.frameCache r))) /\
  (forall h (r : Retriever.State D),
      JsMap.get (Retriever.frameCache r)
        (Retriever.cache_key videoPath (frameNumber h)) = Some "" ->
      (exists rest,
          Retriever.calls (fst (Retriever.decoded_text_for ext videoPath h r))
          = Retriever.calls r ++ Retriever.CallExistsSync videoPath :: rest) /\
      (exists rest,
          Retriever.calls
            (fst (Retriever.getFrameByNumber ext videoPath (frameNumber h) r))
          = Retriever.calls r ++ Retriever.CallExistsSync videoPath :: rest)).
Proof.
  split; [| split; [| split]].
  - intros query matchCount r.
    unfold Retriever.search, bind.
    destruct (Retriever.retrieveChunks db embedder query matchCount r)
      as [r1 [hits | e |]]; try reflexivity.
    apply search_loop_empty_as_failure.
  - intros Hexists pre h post acc r r_mid acc_mid Hpre Hcold Hempty.
    pose proof (decoded_text_for_uncached ext videoPath Hexists h r_mid Hcold) as Hrun.
    rewrite Hempty in Hrun. simpl in Hrun. destruct Hrun as [Hnone Hsame].
    eapply search_loop_skip; eassumption.
  - intros f r. apply getFrameByNumber_empty_as_failure.
  - intros h r Hget. split.
    + apply decoded_text_for_uncached_calls.
      unfold Retriever.cached. now rewrite Hget.
    + apply getFrameByNumber_uncached_calls. now rewrite Hget.
Qed.

Lemma empty_payload_is_decode_failure_witness :
  Retriever.fs_existsSync Scenario.ext_empty_payload "v.mp4" = true /\
  Retriever.frame_text Scenario.ext_empty_payload "v.mp4" 1 = Some "" /\
  exists results,
    snd (Retriever.search_loop Scenario.ext_empty_payload "v.mp4"
           ([Scenario.hit 0] ++ Scenario.hit 1 :: [Scenario.hit 2]) []
           (Scenario.retriever_cap None []))
    = Returned results /\
    snd (Retriever.search_loop Scenario.ext_empty_payload "v.mp4"
           ([Scenario.hit 0] ++ [Scenario.hit 2]) []
           (Scenario.retriever_cap None []))
    = Returned results.
Proof.
  split; [reflexivity | split; [reflexivity |]].
  destruct (empty_payload_is_decode_failure Scenario.ext_empty_payload
              Adapters.createInMemoryAdapter Scenario.embedder_const "v.mp4")
    as [_ [Hskip _]].
  destruct (Hskip eq_refl [Scenario.hit 0] (Scenario.hit 1) [Scenario.hit 2] []
              (Scenario.retriever_cap None [])
              (fst (Retriever.search_loop Scenario.ext_empty_payload "v.mp4"
                      [Scenario.hit 0] [] (Scenario.retriever_cap None [])))
              [Retriever.to_result "chunk 0" (Scenario.hit 0)])
    as [results [Hwith [Hwithout _]]];
    [vm_compute; reflexivity | reflexivity | reflexivity |].
  exists results. split; [exact Hwith | exact Hwithout].
Defined.

(* ===================================================================== *)
(** * More on the chunker                                                 *)
(* ===================================================================== *)

Lemma slice_length (s : string) (a b : Z) :
  0 <= a -> a <= b -> b <= str_length s ->
  str_length (Spec.slice s a b) = b - a.
Proof.
  intros Ha Hab Hb. unfold Spec.slice, str_length in *.
  rewrite <- length_list_ascii, list_ascii_of_string_of_list_ascii.
  rewrite length_take, length_drop, length_list_ascii. lia.
Qed.

(** A slice of a slice is a slice of the string. *)
Lemma slice_slice (s : string) (a b c d : Z) :
  0 <= a -> 0 <= c -> c <= d -> a + d <= b ->
  Spec.slice (Spec.slice s a b) c d = Spec.slice s (a + c) (a + d).
Proof.
  intros Ha Hc Hcd Hb. unfold Spec.slice at 1 3.
  rewrite list_ascii_slice. f_equal.
  replace (Z.to_nat (b - a)) with (Z.to_nat c + Z.to_nat (b - a - c))%nat by lia.
  rewrite <- take_drop_commute, take_take, drop_drop.
  f_equal; [lia | f_equal; lia].
Qed.

Section ClosedForm.

Variables (cfg : Config) (s : string).

Hypothesis Hstride : chunkOverlap cfg < chunkSize cfg.

(** Window [k] starts inside the text exactly when [k] is below the
    number of windows. *)
Lemma chunk_count_spec (k : Z) :
  k < Window.chunk_count cfg s <-> k * Window.stride cfg < str_length s.
Proof.
  unfold Window.chunk_count, Window.stride.
  set (st := chunkSize cfg - chunkOverlap cfg).
  assert (Hst : 0 < st) by (unfold st; lia).
  pose proof (Z.div_mod (str_length s + st - 1) st ltac:(lia)) as Hdm.
  pose proof (Z.mod_pos_bound (str_length s + st - 1) st Hst) as Hmod.
  split; intros H; nia.
Qed.

Lemma SlidingWindow_closed_form (i k : Z) (cs : list Chunk) :
  Spec.SlidingWindow (chunkSize cfg) (chunkOverlap cfg) s i k cs ->
  i = k * Window.stride cfg ->
  cs = map (Window.chunk_at cfg s) (seqZ k (Window.chunk_count cfg s - k)).
Proof.
  induction 1 as [i k Hi | i k rest Hi Hrest IH]; intros ->.
  - rewrite seqZ_nil; [reflexivity |].
    pose proof (chunk_count_spec k). lia.
  - pose proof (chunk_count_spec k) as Hk.
    rewrite seqZ_cons by lia. cbn [map]. f_equal.
    replace (Z.succ k) with (k + 1) by lia.
    replace (Z.pred (Window.chunk_count cfg s - k))
      with (Window.chunk_count cfg s - (k + 1)) by lia.
    apply IH. unfold Window.stride. lia.
Qed.

End ClosedForm.

(** With a chunk size that is a size, [chunkText] returns the windows. *)
Lemma chunkText_windows (cfg : Config) (s : string) :
  0 <= chunkSize cfg -> chunkOverlap cfg < chunkSize cfg ->
  Encoder.chunkText cfg s
  = Returned (map (Window.chunk_at cfg s) (seqZ 0 (Window.chunk_count cfg s))) /\
  0 <= Window.chunk_count cfg s.
Proof.
  intros Hsize Hoverlap.
  destruct (chunkText_returns_window cfg s Hsize Hoverlap) as [chunks [Hrun Hwin]].
  apply (SlidingWindow_closed_form cfg s Hoverlap) in Hwin; [| lia].
  rewrite Z.sub_0_r in Hwin. subst chunks. split; [exact Hrun |].
  pose proof (chunk_count_spec cfg s Hoverlap (-1)) as Hneg.
  unfold Window.stride, str_length in Hneg. nia.
Qed.

(** X1. The chunks in closed form: [chunkText] returns the windows 0, 1, ...,
    n - 1, window [k] being the characters from [k * stride] up to
    [k * stride + chunkSize] or the end of the text, where the stride is
    [chunkSize - chunkOverlap] and [n] is the text length over the stride,
    rounded up. *)
Theorem chunkText_closed_form (cfg : Config) (s : string)
  (Hsize : 0 <= chunkSize cfg) (Hoverlap : chunkOverlap cfg < chunkSize cfg) :
  Encoder.chunkText cfg s
  = Returned (map (Window.chunk_at cfg s) (seqZ 0 (Window.chunk_count cfg s))) /\
  (forall chunks,
      Encoder.chunkText cfg s = Returned chunks ->
      Z.of_nat (length chunks) = Window.chunk_count cfg s).
Proof.
  destruct (chunkText_windows cfg s Hsize Hoverlap) as [Hrun Hcount].
  split; [exact Hrun |].
  intros chunks. rewrite Hrun. intros [= <-].
  rewrite length_map, length_seqZ. lia.
Qed.

Lemma chunkText_closed_form_witness :
  0 <= chunkSize Scenario.cfg_10_2 /\
  chunkOverlap Scenario.cfg_10_2 < chunkSize Scenario.cfg_10_2 /\
  Encoder.chunkText Scenario.cfg_10_2 "ABCDEFGHIJKLMNOPQR"
  = Returned (map (Window.chunk_at Scenario.cfg_10_2 "ABCDEFGHIJKLMNOPQR")
                (seqZ 0 (Window.chunk_count Scenario.cfg_10_2 "ABCDEFGHIJKLMNOPQR"))).
Proof.
  split; [simpl; lia | split; [simpl; lia |]].
  apply (chunkText_closed_form Scenario.cfg_10_2 "ABCDEFGHIJKLMNOPQR");
    simpl; lia.
Defined.

Section ChunkShape.

Variables (cfg : Config) (s : string).

Hypothesis Hsize : 0 < chunkSize cfg.
Hypothesis Hoverlap : chunkOverlap cfg < chunkSize cfg.

(** A window that starts inside the text is not empty, is no longer than
    the chunk size and records its own bounds. *)
Lemma chunk_at_shape (k : Z) :
  0 <= k < Window.chunk_count cfg s ->
  let c := Window.chunk_at cfg s k in
  0 < str_length (text c) <= chunkSize cfg /\
  metadata c !! "startPosition" = Some (VNum (k * Window.stride cfg)) /\
  metadata c !! "endPosition"
  = Some (VNum (k * Window.stride cfg + str_length (text c))).
Proof.
  intros [Hk0 Hkn]. apply (chunk_count_spec cfg s Hoverlap) in Hkn.
  cbn zeta. unfold Window.chunk_at. cbn [text metadata].
  assert (Hi : 0 <= k * Window.stride cfg) by (unfold Window.stride; nia).
  rewrite slice_length by lia.
  unfold Encoder.position_metadata, Metadata.
  rewrite lookup_insert_eq, lookup_insert_ne, lookup_insert_eq by discriminate.
  repeat split; try lia. do 2 f_equal. lia.
Qed.

End ChunkShape.

(** X2. Every chunk [chunkText] returns is non-empty and at most
    [chunkSize] characters long, and its metadata records where it lies in
    the text: it starts at [index * stride] and ends its own length
    later. *)
Theorem chunkText_chunk_shape (cfg : Config) (s : string)
  (Hsize : 0 < chunkSize cfg) (Hoverlap : chunkOverlap cfg < chunkSize cfg) :
  exists chunks,
    Encoder.chunkText cfg s = Returned chunks /\
    Forall (fun c =>
              0 < str_length (text c) <= chunkSize cfg /\
              metadata c !! "startPosition"
              = Some (VNum (index c * Window.stride cfg)) /\
              metadata c !! "endPosition"
              = Some (VNum (index c * Window.stride cfg + str_length (text c))))
      chunks.
Proof.
  destruct (chunkText_windows cfg s ltac:(lia) Hoverlap) as [Hrun _].
  eexists. split; [exact Hrun |].
  apply Forall_map, Forall_seqZ. intros k Hk.
  apply (chunk_at_shape cfg s Hsize Hoverlap k). lia.
Qed.

Lemma chunkText_chunk_shape_witness :
  0 < chunkSize Scenario.cfg_10_2 /\
  chunkOverlap Scenario.cfg_10_2 < chunkSize Scenario.cfg_10_2 /\
  exists chunks,
    Encoder.chunkText Scenario.cfg_10_2 "ABCDEFGHI" = Returned chunks /\
    Forall (fun c => 0 < str_length (text c) <= 10) chunks.
Proof.
  split; [simpl; lia | split; [simpl; lia |]].
  destruct (chunkText_chunk_shape Scenario.cfg_10_2 "ABCDEFGHI")
    as [chunks [Hrun Hshape]]; [simpl; lia | simpl; lia |].
  exists chunks. split; [exact Hrun |].
  eapply Forall_impl; [exact Hshape |]. intros c [Hlen _]. exact Hlen.
Defined.

(** X3. Consecutive chunks overlap as designed: what a chunk holds from
    its stride on is the beginning of the next chunk (for a full chunk
    these are exactly its last [chunkOverlap] characters). *)
Theorem chunkText_consecutive_overlap (cfg : Config) (s : string)
  (Hoverlap0 : 0 <= chunkOverlap cfg)
  (Hoverlap : chunkOverlap cfg < chunkSize cfg) :
  exists chunks,
    Encoder.chunkText cfg s = Returned chunks /\
    forall (k : nat) (c c' : Chunk),
      chunks !! k = Some c ->
      chunks !! S k = Some c' ->
      Window.stride cfg <= str_length (text c) /\
      (str_length (text c) = chunkSize cfg ->
       str_length (text c) - Window.stride cfg = chunkOverlap cfg) /\
      Spec.slice (text c') 0 (str_length (text c) - Window.stride cfg)
      = Spec.slice (text c) (Window.stride cfg) (str_length (text c)).
Proof.
  destruct (chunkText_windows cfg s ltac:(lia) Hoverlap) as [Hrun _].
  eexists. split; [exact Hrun |].
  intros k c c' Hc Hc'.
  rewrite list_lookup_fmap in Hc, Hc'.
  destruct (seqZ 0 _ !! k) as [z |] eqn:Hz; [| discriminate].
  destruct (seqZ 0 _ !! S k) as [z' |] eqn:Hz'; [| discriminate].
  apply lookup_seqZ in Hz as [-> _]. apply lookup_seqZ in Hz' as [-> Hn].
  injection Hc as <-. injection Hc' as <-.
  apply (chunk_count_spec cfg s Hoverlap) in Hn.
  unfold Window.chunk_at. cbn [text]. unfold Window.stride in *.
  set (st := chunkSize cfg - chunkOverlap cfg) in *.
  set (i := (0 + Z.of_nat k) * st).
  replace ((0 + Z.of_nat (S k)) * st) with (i + st) in * by (unfold i; lia).
  assert (Hi : 0 <= i) by (unfold i, st; nia).
  rewrite slice_length by lia.
  split; [lia | split; [unfold st; lia |]].
  rewrite !slice_slice by lia. f_equal; lia.
Qed.

Lemma chunkText_consecutive_overlap_witness :
  0 <= chunkOverlap Scenario.cfg_10_2 /\
  chunkOverlap Scenario.cfg_10_2 < chunkSize Scenario.cfg_10_2 /\
  exists chunks,
    Encoder.chunkText Scenario.cfg_10_2 "ABCDEFGHIJKLMNOPQR" = Returned chunks.
Proof.
  split; [simpl; lia | split; [simpl; lia |]].
  destruct (chunkText_consecutive_overlap Scenario.cfg_10_2 "ABCDEFGHIJKLMNOPQR")
    as [chunks [Hrun _]]; [simpl; lia | simpl; lia |].
  exists chunks. exact Hrun.
Defined.

(** X4. A non-empty text no longer than the stride is one chunk: the
    whole text, at index 0, from position 0 to its length. *)
Theorem chunkText_short_text_single_chunk (cfg : Config) (s : string)
  (Hoverlap0 : 0 <= chunkOverlap cfg)
  (Hnonempty : 0 < str_length s)
  (Hshort : str_length s <= chunkSize cfg - chunkOverlap cfg) :
  Encoder.chunkText cfg s
  = Returned [ {| text := s; index := 0;
                  metadata := Encoder.position_metadata 0 (str_length s) |} ].
Proof.
  destruct (chunkText_windows cfg s ltac:(lia) ltac:(lia)) as [Hrun _].
  rewrite Hrun. f_equal.
  assert (Hcount : Window.chunk_count cfg s = 1).
  { pose proof (chunk_count_spec cfg s ltac:(lia) 0) as H0.
    pose proof (chunk_count_spec cfg s ltac:(lia) 1) as H1.
    unfold Window.stride in *. lia. }
  rewrite Hcount, seqZ_cons, seqZ_nil by lia. cbn [map].
  unfold Window.chunk_at. rewrite Z.mul_0_l.
  replace (Z.min (0 + chunkSize cfg) (str_length s)) with (str_length s) by lia.
  now rewrite slice_to_end.
Qed.

Lemma chunkText_short_text_single_chunk_witness :
  0 <= chunkOverlap Scenario.cfg_10_2 /\
  0 < str_length "ABCDEFGH" /\
  str_length "ABCDEFGH"
  <= chunkSize Scenario.cfg_10_2 - chunkOverlap Scenario.cfg_10_2 /\
  Encoder.chunkText Scenario.cfg_10_2 "ABCDEFGH"
  = Returned [ {| text := "ABCDEFGH"; index := 0;
                  metadata := Encoder.position_metadata 0 (str_length "ABCDEFGH") |} ].
Proof.
  split; [simpl; lia | split; [unfold str_length; simpl; lia |]].
  split; [unfold str_length; simpl; lia |].
  apply (chunkText_short_text_single_chunk Scenario.cfg_10_2 "ABCDEFGH");
    unfold str_length; simpl; lia.
Defined.

(* ===================================================================== *)
(** * More on the in-memory adapter                                       *)
(* ===================================================================== *)

Section DeleteFacts.

Variable d : string.

(** The two loops of [delete], run on the first [j] entries of the store
    with anything behind them: what is left of those entries is the ones
    of other documents, in their order. *)
Lemma delete_loops (l : list QRVideoStoreIndexEntry) (j : nat)
  (t : list QRVideoStoreIndexEntry) :
  (j <= length l)%nat ->
  fold_left (fun st index => Adapters.splice1 index st)
    (Adapters.indices_to_remove d l j) (take j l ++ t)
  = filter (fun e => documentId e <> d) (take j l) ++ t.
Proof.
  revert t. induction j as [|j IH]; intros t Hj; [reflexivity |].
  assert (Hlt : (j < length l)%nat) by lia.
  destruct (lookup_lt_is_Some_2 l j Hlt) as [e He].
  cbn [Adapters.indices_to_remove]. rewrite He.
  rewrite (take_S_r l j e He), <- app_assoc. cbn [app].
  rewrite filter_app.
  destruct (String.eqb_spec (documentId e) d) as [Heq | Hne].
  - cbn [fold_left]. unfold Adapters.splice1 at 2.
    assert (Hlen : length (take j l) = j) by (rewrite length_take; lia).
    rewrite take_app_length' by (symmetry; exact Hlen).
    replace (drop (S j) (take j l ++ e :: t)) with t
      by (change (e :: t) with ([e] ++ t);
          rewrite app_assoc, drop_app_length';
          [reflexivity | rewrite length_app, Hlen; simpl; lia]).
    rewrite IH by lia.
    rewrite filter_cons_False by (intros H; apply H; exact Heq).
    now rewrite filter_nil, app_nil_r.
  - rewrite IH by lia.
    rewrite filter_cons_True by exact Hne.
    now rewrite filter_nil, <- app_assoc.
Qed.

End DeleteFacts.

Lemma inmem_delete_filter (d : string) (store : list QRVideoStoreIndexEntry) :
  Adapters.inmem_delete d store
  = (filter (fun e => documentId e <> d) store, Returned tt).
Proof.
  unfold Adapters.inmem_delete, modify. f_equal.
  pose proof (delete_loops d store (length store) [] (Nat.le_refl _)) as H.
  rewrite firstn_all, !app_nil_r in H. exact H.
Qed.

(** X5. [delete(documentId)] of the in-memory adapter removes exactly the
    entries of that document: the store becomes its entries of other
    documents, in their order, and the call returns. *)
Theorem inmem_delete_removes_document (d : string)
  (store : list QRVideoStoreIndexEntry) :
  Adapters.inmem_delete d store
  = (filter (fun e => documentId e <> d) store, Returned tt) /\
  (forall store',
      fst (Adapters.inmem_delete d store) = store' ->
      Forall (fun e => documentId e <> d) store' /\
      (forall e, documentId e <> d -> (e ∈ store' <-> e ∈ store))).
Proof.
  rewrite inmem_delete_filter. split; [reflexivity |].
  intros store' <-. cbn [fst]. split.
  - apply Forall_forall. intros e He. apply list_elem_of_filter in He. tauto.
  - intros e He. rewrite list_elem_of_filter. tauto.
Qed.

(** X6. Deleting a document right after its entries were upserted gives
    the store back: on a store without entries of the document, [upsert]
    of entries of that document followed by [delete] of it returns and
    leaves the store as it was. *)
Theorem inmem_upsert_delete_round_trip (d : string)
  (store entries : list QRVideoStoreIndexEntry)
  (Hfresh : Forall (fun e => documentId e <> d) store)
  (Hdoc : Forall (fun e => documentId e = d) entries) :
  (do* upsert Adapters.createInMemoryAdapter entries in
   Adapters.inmem_delete d) store
  = (store, Returned tt).
Proof.
  unfold bind. cbn [upsert Adapters.createInMemoryAdapter].
  unfold Adapters.inmem_upsert, modify.
  rewrite inmem_delete_filter.
  rewrite filter_app, (filter_keep_all _ store Hfresh), filter_drop_all.
  - now rewrite app_nil_r.
  - eapply Forall_impl; [exact Hdoc |]. intros e He Hne. exact (Hne He).
Qed.

Lemma inmem_upsert_delete_round_trip_witness :
  (do* upsert Adapters.createInMemoryAdapter
         [Adapters.with_similarity (Scenario.entry 0 []) 0%float] in
   Adapters.inmem_delete "doc") []
  = ([], Returned tt).
Proof.
  apply (inmem_upsert_delete_round_trip "doc" []
           [Adapters.with_similarity (Scenario.entry 0 []) 0%float]).
  - constructor.
  - constructor; [reflexivity | constructor].
Defined.

(** ** search over embeddings of one dimension *)

Lemma sort_insert_perm {A} (cmp : A -> A -> float) (x : A) (l : list A) :
  Adapters.sort_insert cmp x l ≡ₚ x :: l.
Proof.
  induction l as [|y l IH]; simpl; [reflexivity |].
  destruct (PrimFloat.ltb 0 (cmp y x)); [reflexivity |].
  rewrite IH. apply Permutation_swap.
Qed.

(** Sorting rearranges: it neither drops nor duplicates nor invents. *)
Lemma js_sort_perm {A} (cmp : A -> A -> float) (l : list A) :
  Adapters.js_sort cmp l ≡ₚ l.
Proof.
  unfold Adapters.js_sort.
  assert (H : forall acc,
             fold_left (fun acc x => Adapters.sort_insert cmp x acc) l acc
             ≡ₚ acc ++ l).
  { induction l as [|x l IH]; intros acc; simpl.
    - now rewrite app_nil_r.
    - rewrite IH, sort_insert_perm. simpl. apply Permutation_middle. }
  apply (H []).
Qed.

Lemma slice0_length {A} (l : list A) (limit : Z) :
  Z.of_nat (length (Adapters.slice0 l limit))
  = if (limit <? 0)%Z then Z.max (Z.of_nat (length l) + limit) 0
    else Z.max 0 (Z.min limit (Z.of_nat (length l))).
Proof.
  unfold Adapters.slice0. rewrite length_take.
  destruct (limit <? 0)%Z eqn:Hneg; lia.
Qed.

(** Scoring a store whose embeddings all have the length of the query
    scores every entry. *)
Lemma score_all_uniform (query : list float) (store : list QRVideoStoreIndexEntry) :
  Forall (fun e => length (embedding e) = length query) store ->
  exists scored,
    Adapters.score_all query store = Returned scored /\
    Forall2 (fun e r =>
               exists x, Adapters.cosineSimilarity query (embedding e) = Returned x /\
                         r = Adapters.with_similarity e x)
      store scored.
Proof.
  induction 1 as [|e store He Hstore [scored [Hrun Hrel]]]; simpl.
  - exists []. split; [reflexivity | constructor].
  - destruct (proj2 (cosineSimilarity_lengths query (embedding e)) (eq_sym He))
      as [x Hx].
    rewrite Hx, Hrun. eexists. split; [reflexivity |].
    constructor; [exists x; auto | exact Hrel].
Qed.

(** X7. On a store whose embeddings all have the length of the query
    embedding, [search] returns and leaves the store as it is.  Every
    result is an entry of the store with its cosine similarity to the query
    attached, no entry is returned more often than it is stored, and the
    number of results is the limit or the store size, whichever is smaller
    (a negative limit drops that many results from the end instead). *)
Theorem inmem_search_uniform_store (store : list QRVideoStoreIndexEntry)
  (query : list float) (limit : Z)
  (Huniform : Forall (fun e => length (embedding e) = length query) store) :
  exists scored results,
    search Adapters.createInMemoryAdapter query limit store
    = (store, Returned results) /\
    Forall2 (fun e r =>
               exists x, Adapters.cosineSimilarity query (embedding e) = Returned x /\
                         r = Adapters.with_similarity e x)
      store scored /\
    results ⊆+ scored /\
    Z.of_nat (length results)
    = (if (limit <? 0)%Z then Z.max (Z.of_nat (length store) + limit) 0
       else Z.max 0 (Z.min limit (Z.of_nat (length store)))).
Proof.
  destruct (score_all_uniform query store Huniform) as [scored [Hrun Hrel]].
  cbn [search Adapters.createInMemoryAdapter].
  unfold Adapters.inmem_search, bind, gets, liftO, ret.
  destruct store as [|e store].
  - inversion Hrel; subst. exists [], []. cbn [length Nat.eqb].
    repeat split; [constructor | reflexivity |].
    destruct (limit <? 0)%Z eqn:Hneg; simpl; lia.
  - cbn [length Nat.eqb]. rewrite Hrun.
    exists scored, (Adapters.slice0 (Adapters.js_sort Adapters.by_similarity scored) limit).
    split; [reflexivity | split; [exact Hrel | split]].
    + unfold Adapters.slice0.
      transitivity (Adapters.js_sort Adapters.by_similarity scored).
      * apply sublist_submseteq, sublist_take.
      * apply Permutation_submseteq, js_sort_perm.
    + rewrite slice0_length, (Permutation_length (js_sort_perm _ scored)).
      now rewrite <- (Forall2_length _ _ _ Hrel).
Qed.

Lemma inmem_search_uniform_store_witness :
  exists results,
    search Adapters.createInMemoryAdapter [1%float; 1%float] 1
      (Scenario.store_one ++ [Scenario.entry 1 [0%float; 1%float]])
    = (Scenario.store_one ++ [Scenario.entry 1 [0%float; 1%float]],
       Returned results) /\
    Z.of_nat (length results) = 1.
Proof.
  destruct (inmem_search_uniform_store
              (Scenario.store_one ++ [Scenario.entry 1 [0%float; 1%float]])
              [1%float; 1%float] 1)
    as [scored [results [Hrun [_ [_ Hlen]]]]].
  - repeat constructor.
  - exists results. split; [exact Hrun | exact Hlen].
Defined.

(* ===================================================================== *)
(** * More on the encoder and the index                                   *)
(* ===================================================================== *)

Section IndexEffect.

Context (ext : Encoder.Externals) (embedder : Embedder) (cfg : Config).

Lemma promise_all2_returned {A B} (second_first : bool) (p : outcome A)
  (q : outcome B) (a : A) (b : B) :
  Encoder.promise_all2 second_first p q = Returned (a, b) ->
  p = Returned a /\ q = Returned b.
Proof. destruct p, q; simpl; intros [=]; subst; auto. Qed.

Lemma process_chunks_Forall2 (docId : string) (meta : option Metadata)
  (chunks : list Chunk) (bufs bufs' : list Buffer)
  (entries entries' : list QRVideoStoreIndexEntry) :
  Encoder.process_chunks ext embedder cfg docId meta chunks bufs entries
  = Returned (bufs', entries') ->
  exists added,
    entries' = entries ++ added /\
    Forall2 (Encoder.entry_of_chunk embedder docId meta) chunks added.
Proof.
  revert bufs entries. induction chunks as [|c chunks IH]; intros bufs entries; simpl.
  - intros [= <- <-]. exists []. rewrite app_nil_r. split; [reflexivity | constructor].
  - destruct (Encoder.promise_all2 _ _ _) as [[buf emb] | e |] eqn:Hboth;
      try discriminate.
    apply promise_all2_returned in Hboth as [_ Hemb].
    intros H. apply IH in H as [added [-> Hrel]].
    eexists. rewrite <- app_assoc. split; [reflexivity |].
    constructor; [| exact Hrel].
    repeat split; try reflexivity; try exact Hemb.
    intros key. cbn [entry_metadata]. unfold Encoder.spread, Metadata.
    rewrite lookup_union.
    match goal with
    | |- ?a ∪ ?b = _ => destruct a, b; reflexivity
    end.
Qed.

(** What [addDocument] does to the in-memory index. *)
Lemma addDocument_inmem (docId documentText out : string) (meta : option Metadata)
  (w : Encoder.World Adapters.Store) :
  let run :=
    Encoder.addDocument ext Adapters.createInMemoryAdapter embedder cfg
      docId documentText out meta w in
  match snd run with
  | Returned _ =>
      exists chunks added,
        Encoder.chunkText cfg documentText = Returned chunks /\
        Encoder.db (fst run) = Encoder.db w ++ added /\
        Forall2 (Encoder.entry_of_chunk embedder docId meta) chunks added
  | _ => Encoder.db (fst run) = Encoder.db w
  end.
Proof.
  cbn zeta. unfold Encoder.addDocument, bind, liftO.
  destruct (Encoder.chunkText cfg documentText) as [chunks | e |] eqn:Hchunks;
    try reflexivity.
  destruct (Encoder.process_chunks ext embedder cfg docId meta chunks [] [])
    as [[bufs entries] | e |] eqn:Hproc; try reflexivity.
  pose proof (keeps_db_buildVideo ext cfg bufs out None w) as Hdb.
  destruct (Encoder.buildVideo ext cfg bufs out None w) as [w1 [[] | e |]];
    simpl in Hdb; try exact Hdb.
  unfold Encoder.liftDb. simpl.
  apply process_chunks_Forall2 in Hproc as [added [-> Hrel]].
  exists chunks, added. rewrite Hdb. auto.
Qed.

End IndexEffect.

(** X8. What [addDocument] does to the in-memory index.  When it returns,
    the index has grown, at its end, by exactly one entry per chunk of the
    text, in chunk order, each carrying the chunk's text and index, the
    document's id, the embedding of the chunk's text and the chunk's
    position metadata, in which a key of the caller's metadata wins.  When
    it throws or hangs, whatever the step that failed, the index is as it
    was. *)
Theorem addDocument_index_effect (ext : Encoder.Externals) (embedder : Embedder)
  (cfg : Config) (docId documentText out : string) (meta : option Metadata)
  (w : Encoder.World Adapters.Store) :
  let run :=
    Encoder.addDocument ext Adapters.createInMemoryAdapter embedder cfg
      docId documentText out meta w in
  match snd run with
  | Returned _ =>
      exists chunks added,
        Encoder.chunkText cfg documentText = Returned chunks /\
        Encoder.db (fst run) = Encoder.db w ++ added /\
        Forall2 (Encoder.entry_of_chunk embedder docId meta) chunks added
  | _ => Encoder.db (fst run) = Encoder.db w
  end.
Proof. apply addDocument_inmem. Qed.

(** ** addDocumentsBatch *)

Section BatchFacts.

Context {D : Type} (ext : Encoder.Externals) (database : VectorDatabase D)
  (embedder : Embedder) (cfg : Config).

Lemma addDocumentsBatch_app (docs1 docs2 : list Encoder.BatchDocument)
  (w : Encoder.World D) :
  Encoder.addDocumentsBatch ext database embedder cfg (docs1 ++ docs2) w
  = bind (Encoder.addDocumentsBatch ext database embedder cfg docs1)
      (fun _ => Encoder.addDocumentsBatch ext database embedder cfg docs2) w.
Proof.
  revert w. induction docs1 as [|doc docs1 IH]; intros w; [reflexivity |].
  cbn [app Encoder.addDocumentsBatch]. unfold bind.
  destruct (Encoder.addDocument _ _ _ _ _ _ _ _ w) as [w1 [[] | e |]];
    try reflexivity.
  rewrite IH. reflexivity.
Qed.

End BatchFacts.

(** X9. [addDocumentsBatch] stops at the first document that fails and
    rolls nothing back: when the documents before it have been added and
    [addDocument] of it throws or hangs, the batch ends with that outcome
    in the state that call left, the documents after it are not touched,
    and the in-memory index still holds what the earlier documents
    added. *)
Theorem addDocumentsBatch_stops_at_first_failure (ext : Encoder.Externals)
  (embedder : Embedder) (cfg : Config)
  (pre post : list Encoder.BatchDocument) (doc : Encoder.BatchDocument)
  (w w1 : Encoder.World Adapters.Store)
  (Hpre : Encoder.addDocumentsBatch ext Adapters.createInMemoryAdapter embedder
            cfg pre w = (w1, Returned tt))
  (Hfails : forall u,
      snd (Encoder.addDocument ext Adapters.createInMemoryAdapter embedder cfg
             (Encoder.bd_documentId doc) (Encoder.bd_documentText doc)
             (Encoder.bd_outputVideoPath doc) (Encoder.bd_metadata doc) w1)
      <> Returned u) :
  Encoder.addDocumentsBatch ext Adapters.createInMemoryAdapter embedder cfg
    (pre ++ doc :: post) w
  = Encoder.addDocument ext Adapters.createInMemoryAdapter embedder cfg
      (Encoder.bd_documentId doc) (Encoder.bd_documentText doc)
      (Encoder.bd_outputVideoPath doc) (Encoder.bd_metadata doc) w1 /\
  Encoder.db
    (fst (Encoder.addDocumentsBatch ext Adapters.createInMemoryAdapter embedder
            cfg (pre ++ doc :: post) w))
  = Encoder.db w1.
Proof.
  rewrite addDocumentsBatch_app. unfold bind. rewrite Hpre.
  cbn [Encoder.addDocumentsBatch]. unfold bind.
  pose proof (addDocument_inmem ext embedder cfg (Encoder.bd_documentId doc)
                (Encoder.bd_documentText doc) (Encoder.bd_outputVideoPath doc)
                (Encoder.bd_metadata doc) w1) as Hdb.
  cbn zeta in Hdb.
  destruct (Encoder.addDocument _ _ _ _ _ _ _ _ w1) as [w2 [[] | e |]];
    simpl in *; [exfalso; eapply Hfails; reflexivity | auto | auto].
Qed.

Lemma addDocumentsBatch_stops_at_first_failure_witness :
  snd (Encoder.addDocumentsBatch Scenario.ext_qr_rejects
         Adapters.createInMemoryAdapter Scenario.embedder_const Scenario.cfg_10_2
         ([Scenario.batch_doc "a" "first"]
            ++ Scenario.batch_doc "b" "BAD" :: [Scenario.batch_doc "c" "third"])
         Scenario.world_empty)
  = Thrown (Error "The amount of data is too big to be stored in a QR Code") /\
  map documentId
    (Encoder.db
       (fst (Encoder.addDocumentsBatch Scenario.ext_qr_rejects
               Adapters.createInMemoryAdapter Scenario.embedder_const
               Scenario.cfg_10_2
               ([Scenario.batch_doc "a" "first"]
                  ++ Scenario.batch_doc "b" "BAD" :: [Scenario.batch_doc "c" "third"])
               Scenario.world_empty)))
  = ["a"].
Proof.
  destruct (addDocumentsBatch_stops_at_first_failure Scenario.ext_qr_rejects
              Scenario.embedder_const Scenario.cfg_10_2
              [Scenario.batch_doc "a" "first"] [Scenario.batch_doc "c" "third"]
              (Scenario.batch_doc "b" "BAD") Scenario.world_empty
              (fst (Encoder.addDocumentsBatch Scenario.ext_qr_rejects
                      Adapters.createInMemoryAdapter Scenario.embedder_const
                      Scenario.cfg_10_2 [Scenario.batch_doc "a" "first"]
                      Scenario.world_empty)))
    as [Hrun Hdb]; [vm_compute; reflexivity | intros u; vm_compute; discriminate |].
  split; [rewrite Hrun | rewrite Hdb]; vm_compute; reflexivity.
Defined.

(** X10. When [addDocumentsBatch] returns, the in-memory index has grown
    by one block of entries per document, in batch order; the block of a
    document bears its id and the frame numbers 0, 1, ..., n - 1, where [n]
    is the number of chunks of its text. *)
Theorem addDocumentsBatch_blocks (ext : Encoder.Externals) (embedder : Embedder)
  (cfg : Config) (docs : list Encoder.BatchDocument)
  (w w' : Encoder.World Adapters.Store)
  (Hrun : Encoder.addDocumentsBatch ext Adapters.createInMemoryAdapter embedder
            cfg docs w = (w', Returned tt)) :
  exists blocks,
    Encoder.db w' = Encoder.db w ++ concat blocks /\
    Forall2 (fun doc block =>
               Forall (fun e => documentId e = Encoder.bd_documentId doc) block /\
               exists chunks,
                 Encoder.chunkText cfg (Encoder.bd_documentText doc)
                 = Returned chunks /\
                 map frameNumber block = seqZ 0 (Z.of_nat (length chunks)))
      docs blocks.
Proof.
  revert w Hrun. induction docs as [|doc docs IH]; intros w Hrun.
  - injection Hrun as <-. exists []. simpl. rewrite app_nil_r.
    split; [reflexivity | constructor].
  - cbn [Encoder.addDocumentsBatch] in Hrun. unfold bind in Hrun.
    pose proof (addDocument_inmem ext embedder cfg (Encoder.bd_documentId doc)
                  (Encoder.bd_documentText doc) (Encoder.bd_outputVideoPath doc)
                  (Encoder.bd_metadata doc) w) as Hdoc.
    cbn zeta in Hdoc.
    destruct (Encoder.addDocument _ _ _ _ _ _ _ _ w) as [w1 [[] | e |]];
      try discriminate.
    simpl in Hdoc. destruct Hdoc as [chunks [added [Hchunks [Hdb Hrel]]]].
    destruct (IH w1 Hrun) as [blocks [Hdb' Hblocks]].
    exists (added :: blocks). split.
    + rewrite Hdb', Hdb. simpl. now rewrite <- app_assoc.
    + constructor; [| exact Hblocks]. split.
      * clear -Hrel. induction Hrel as [|c e cs es [_ [_ [Hid _]]] _ IHrel];
          constructor; assumption.
      * exists chunks. split; [exact Hchunks |].
        rewrite <- (chunkText_indices cfg _ chunks Hchunks).
        clear -Hrel. induction Hrel as [|c e cs es [_ [Hframe _]] _ IHrel];
          simpl; [reflexivity | now rewrite Hframe, IHrel].
Qed.

Lemma addDocumentsBatch_blocks_witness :
  exists blocks,
    map (map frameNumber) blocks = [seqZ 0 1; seqZ 0 3] /\
    Encoder.db
      (fst (Encoder.addDocumentsBatch Scenario.ext_ok
              Adapters.createInMemoryAdapter Scenario.embedder_const
              Scenario.cfg_10_2
              [Scenario.batch_doc "a" "first";
               Scenario.batch_doc "b" "ABCDEFGHIJKLMNOPQR"]
              Scenario.world_empty))
    = [] ++ concat blocks.
Proof.
  destruct (addDocumentsBatch_blocks Scenario.ext_ok Scenario.embedder_const
              Scenario.cfg_10_2
              [Scenario.batch_doc "a" "first";
               Scenario.batch_doc "b" "ABCDEFGHIJKLMNOPQR"]
              Scenario.world_empty
              (fst (Encoder.addDocumentsBatch Scenario.ext_ok
                      Adapters.createInMemoryAdapter Scenario.embedder_const
                      Scenario.cfg_10_2
                      [Scenario.batch_doc "a" "first";
                       Scenario.batch_doc "b" "ABCDEFGHIJKLMNOPQR"]
                      Scenario.world_empty)))
    as [blocks [Hdb Hblocks]]; [vm_compute; reflexivity |].
  exists blocks. split; [| exact Hdb].
  inversion Hblocks as [|d1 b1 ds bs [_ [c1 [Hc1 Hf1]]] Hrest]; subst.
  inversion Hrest as [|d2 b2 ds' bs' [_ [c2 [Hc2 Hf2]]] Hnil]; subst.
  inversion Hnil; subst.
  vm_compute in Hc1. injection Hc1 as <-.
  vm_compute in Hc2. injection Hc2 as <-.
  simpl. rewrite Hf1, Hf2. reflexivity.
Defined.

(* ===================================================================== *)
(** * More on the retriever: the cache                                    *)
(* ===================================================================== *)

Section CacheFacts.

Context {D : Type} (ext : Retriever.Externals) (videoPath : string).

Lemma within_capacity_same_cache (r1 r2 : Retriever.State D) :
  Retriever.same_cache r1 r2 ->
  Retriever.within_capacity r2 -> Retriever.within_capacity r1.
Proof.
  unfold Retriever.same_cache, Retriever.within_capacity.
  intros [-> ->]. trivial.
Qed.

Lemma decoded_text_for_within (h : QRVideoStoreIndexEntry) (r : Retriever.State D) :
  Retriever.within_capacity r ->
  Retriever.within_capacity (fst (Retriever.decoded_text_for ext videoPath h r)).
Proof.
  unfold Retriever.within_capacity. intros [Hsize Hkeys].
  run_retriever.
  destruct (Retriever.falsy (JsMap.get _ _)); simpl; [| auto].
  destruct (Retriever.fs_existsSync ext videoPath); simpl; [| auto].
  destruct (Retriever.ffmpeg_frame ext videoPath (frameNumber h) "png") as [buf |];
    simpl; [| auto].
  destruct (Z.of_nat (length buf) >? 0)%Z; simpl; [| auto].
  destruct (Retriever.qr_read ext buf) as [e | | data]; simpl; auto.
  destruct (truthy data); simpl; auto.
  apply addToCache_map_within; auto using cache_key_truthy.
Qed.

Lemma search_loop_within (hits : list QRVideoStoreIndexEntry)
  (acc : list SearchResult) (r : Retriever.State D) :
  Retriever.within_capacity r ->
  Retriever.within_capacity (fst (Retriever.search_loop ext videoPath hits acc r)).
Proof.
  revert acc r. induction hits as [|h hits IH]; intros acc r Hr; [exact Hr |].
  cbn [Retriever.search_loop]. unfold bind.
  pose proof (decoded_text_for_within h r Hr) as Hstep.
  destruct (Retriever.decoded_text_for ext videoPath h r) as [r1 [[t |] | e |]];
    simpl in Hstep; auto.
Qed.

Lemma getFrameByNumber_within (f : Z) (r : Retriever.State D) :
  Retriever.within_capacity r ->
  Retriever.within_capacity (fst (Retriever.getFrameByNumber ext videoPath f r)).
Proof.
  unfold Retriever.within_capacity. intros [Hsize Hkeys].
  run_retriever.
  destruct (Retriever.falsy (JsMap.get _ _)); simpl; [| auto].
  destruct (Retriever.fs_existsSync ext videoPath); simpl; [| auto].
  destruct (Retriever.ffmpeg_frame ext videoPath f "png") as [buf |];
    simpl; [| auto].
  destruct (Z.of_nat (length buf) >? 0)%Z; simpl; [| auto].
  destruct (Retriever.qr_read ext buf) as [e | | data]; simpl; auto.
  destruct (truthy data); simpl; auto.
  apply addToCache_map_within; auto using cache_key_truthy.
Qed.

End CacheFacts.

Lemma retrieveChunks_same_cache {D : Type} (db : VectorDatabase D)
  (embedder : Embedder) (query : string) (matchCount : option Z)
  (r : Retriever.State D) :
  Retriever.same_cache (fst (Retriever.retrieveChunks db embedder query matchCount r)) r.
Proof.
  unfold Retriever.retrieveChunks, Retriever.liftDb, Retriever.log,
    Retriever.same_cache, bind, liftO, modify, ret. simpl.
  destruct (embed embedder query) as [e | err |]; simpl; auto.
  destruct (search db e (default 5 matchCount) (Retriever.database r))
    as [d' [hits | err |]]; simpl; auto.
Qed.

Lemma search_within {D : Type} (ext : Retriever.Externals) (db : VectorDatabase D)
  (embedder : Embedder) (query videoPath : string) (matchCount : option Z)
  (r : Retriever.State D) :
  Retriever.within_capacity r ->
  Retriever.within_capacity
    (fst (Retriever.search ext db embedder query videoPath matchCount r)).
Proof.
  intros Hr. unfold Retriever.search, bind.
  pose proof (retrieveChunks_same_cache db embedder query matchCount r) as Hsame.
  destruct (Retriever.retrieveChunks db embedder query matchCount r)
    as [r1 [hits | e |]]; simpl in Hsame;
    try (eapply within_capacity_same_cache; eassumption).
  apply search_loop_within. eapply within_capacity_same_cache; eassumption.
Qed.

(** X11. The frame cache stays within its capacity.  A new retriever's
    cache is within capacity, and [search] and [getFrameByNumber] keep it
    so whatever their outcome: the cache never holds more entries than
    [maxCacheSize], or than one for a capacity below one. *)
Theorem frame_cache_within_capacity {D : Type} (ext : Retriever.Externals)
  (db : VectorDatabase D) (embedder : Embedder) :
  (forall (d : D) options,
      Retriever.within_capacity (Retriever.new_QRVideoStoreRetriever d options)) /\
  (forall (r : Retriever.State D),
      Retriever.within_capacity r ->
      (forall query videoPath matchCount,
          Retriever.within_capacity
            (fst (Retriever.search ext db embedder query videoPath matchCount r))) /\
      (forall videoPath f,
          Retriever.within_capacity
            (fst (Retriever.getFrameByNumber ext videoPath f r)))).
Proof.
  split.
  - intros d options. unfold Retriever.within_capacity,
      Retriever.new_QRVideoStoreRetriever, JsMap.size. simpl.
    split; [lia | constructor].
  - intros r Hr. split.
    + intros query videoPath matchCount. now apply search_within.
    + intros videoPath f. now apply getFrameByNumber_within.
Qed.

Lemma frame_cache_within_capacity_witness :
  Retriever.within_capacity (Scenario.retriever_cap (Some 2) []) /\
  Retriever.within_capacity
    (fst (Retriever.getFrameByNumber Scenario.ext_video "v.mp4" 0
            (Scenario.retriever_cap (Some 2) []))).
Proof.
  destruct (frame_cache_within_capacity Scenario.ext_video
              Adapters.createInMemoryAdapter Scenario.embedder_const)
    as [Hnew Hkeep].
  split; [apply Hnew |].
  apply (Hkeep (Scenario.retriever_cap (Some 2) [])); apply Hnew.
Defined.

(* ===================================================================== *)
(** * More on the retriever: what the cache does not change               *)
(* ===================================================================== *)

Section Transparency.

Context {D : Type} (ext : Retriever.Externals) (videoPath : string).

Hypothesis Hexists : Retriever.fs_existsSync ext videoPath = true.

(** A text found in a consistent cache is what its frame decodes to. *)
Lemma consistent_get (cache : JsMap.t) (f : Z) (t : string) :
  Retriever.consistent ext videoPath cache ->
  JsMap.get cache (Retriever.cache_key videoPath f) = Some t ->
  Retriever.frame_text ext videoPath f = Some t /\ truthy t = true.
Proof.
  intros Hcons Hget. apply JsMap_get_elem in Hget.
  unfold Retriever.consistent in Hcons. rewrite Forall_forall in Hcons.
  exact (Hcons _ Hget f eq_refl).
Qed.

Lemma consistent_add (maxSize : Z) (cache : JsMap.t) (f : Z) (t : string) :
  Retriever.consistent ext videoPath cache ->
  Retriever.frame_text ext videoPath f = Some t ->
  truthy t = true ->
  Retriever.consistent ext videoPath
    (Retriever.addToCache_map maxSize cache (Retriever.cache_key videoPath f) t).
Proof.
  intros Hcons Htext Ht. apply addToCache_map_Forall; [exact Hcons |].
  simpl. intros f' Hkey. apply cache_key_inj in Hkey as <-. auto.
Qed.

(** With a consistent cache the body of the loop of [search] yields the
    text the frame decodes to, and the cache stays consistent. *)
Lemma decoded_text_for_consistent (h : QRVideoStoreIndexEntry)
  (r : Retriever.State D) :
  Retriever.consistent ext videoPath (Retriever.frameCache r) ->
  snd (Retriever.decoded_text_for ext videoPath h r)
  = Returned (Retriever.expected_text ext videoPath (frameNumber h)) /\
  Retriever.consistent ext videoPath
    (Retriever.frameCache (fst (Retriever.decoded_text_for ext videoPath h r))).
Proof.
  intros Hcons.
  pose proof (consistent_get (Retriever.frameCache r) (frameNumber h)) as Hget.
  pose proof (consistent_add (Retriever.maxCacheSize r) (Retriever.frameCache r)
                (frameNumber h)) as Hadd.
  unfold Retriever.expected_text, Retriever.frame_text in *.
  run_retriever.
  destruct (JsMap.get (Retriever.frameCache r) _) as [t |] eqn:Hcached.
  - destruct (Hget t Hcons eq_refl) as [Htext Ht].
    unfold Retriever.falsy. rewrite Ht. simpl. rewrite Htext, Ht. auto.
  - unfold Retriever.falsy. rewrite Hexists. simpl.
    destruct (Retriever.ffmpeg_frame ext videoPath (frameNumber h) "png")
      as [buf |]; simpl; [| auto].
    destruct (Z.of_nat (length buf) >? 0)%Z; simpl; [| auto].
    destruct (Retriever.qr_read ext buf) as [e | | data]; simpl; auto.
    destruct (truthy data) eqn:Ht; simpl; auto.
Qed.

Lemma search_loop_consistent (hits : list QRVideoStoreIndexEntry)
  (acc : list SearchResult) (r : Retriever.State D) :
  Retriever.consistent ext videoPath (Retriever.frameCache r) ->
  snd (Retriever.search_loop ext videoPath hits acc r)
  = Returned (acc ++ omap (Retriever.expected_result ext videoPath) hits) /\
  Retriever.consistent ext videoPath
    (Retriever.frameCache (fst (Retriever.search_loop ext videoPath hits acc r))).
Proof.
  revert acc r. induction hits as [|h hits IH]; intros acc r Hcons.
  - simpl. rewrite app_nil_r. auto.
  - cbn [Retriever.search_loop omap list_omap]. unfold bind.
    destruct (decoded_text_for_consistent h r Hcons) as [Hout Hcons'].
    destruct (Retriever.decoded_text_for ext videoPath h r) as [r1 o].
    simpl in Hout, Hcons'. subst o.
    unfold Retriever.expected_result at 1.
    destruct (Retriever.expected_text ext videoPath (frameNumber h)) as [t |].
    + destruct (IH (acc ++ [Retriever.to_result t h]) r1 Hcons') as [Hres Hfin].
      rewrite Hres, <- app_assoc. auto.
    + apply IH. exact Hcons'.
Qed.

(** With a consistent cache [getFrameByNumber] hands back what the frame
    decodes to. *)
Lemma getFrameByNumber_consistent (f : Z) (r : Retriever.State D) :
  Retriever.consistent ext videoPath (Retriever.frameCache r) ->
  snd (Retriever.getFrameByNumber ext videoPath f r)
  = Returned (Retriever.frame_text ext videoPath f) /\
  Retriever.consistent ext videoPath
    (Retriever.frameCache (fst (Retriever.getFrameByNumber ext videoPath f r))).
Proof.
  intros Hcons.
  pose proof (consistent_get (Retriever.frameCache r) f) as Hget.
  pose proof (consistent_add (Retriever.maxCacheSize r) (Retriever.frameCache r) f)
    as Hadd.
  unfold Retriever.frame_text in *.
  run_retriever.
  destruct (JsMap.get (Retriever.frameCache r) _) as [t |] eqn:Hcached.
  - destruct (Hget t Hcons eq_refl) as [Htext Ht].
    unfold Retriever.falsy. rewrite Ht. simpl. rewrite Htext. auto.
  - unfold Retriever.falsy at 1. rewrite Hexists. simpl.
    destruct (Retriever.ffmpeg_frame ext videoPath f "png") as [buf |];
      simpl; [| auto].
    destruct (Z.of_nat (length buf) >? 0)%Z; simpl; [| auto].
    destruct (Retriever.qr_read ext buf) as [e | | data]; simpl; auto.
    destruct (truthy data) eqn:Ht; simpl; auto.
Qed.

End Transparency.

(** X12. Over an existing video, what [search] returns does not depend on
    what the cache holds, as long as the cache holds for a frame only the
    text that frame decodes to (as the empty cache does): the results are,
    in hit order, one per hit whose frame decodes to a non-empty text, with
    that text; and the cache is again such a cache afterwards. *)
Theorem search_results_from_frames {D : Type} (ext : Retriever.Externals)
  (db : VectorDatabase D) (embedder : Embedder) (query videoPath : string)
  (matchCount : option Z) (r : Retriever.State D) (e : list float) (d' : D)
  (hits : list QRVideoStoreIndexEntry)
  (Hexists : Retriever.fs_existsSync ext videoPath = true)
  (Hembed : embed embedder query = Returned e)
  (Hindex : search db e (default 5 matchCount) (Retriever.database r)
            = (d', Returned hits))
  (Hcons : Retriever.consistent ext videoPath (Retriever.frameCache r)) :
  snd (Retriever.search ext db embedder query videoPath matchCount r)
  = Returned (omap (Retriever.expected_result ext videoPath) hits) /\
  Retriever.consistent ext videoPath
    (Retriever.frameCache
       (fst (Retriever.search ext db embedder query videoPath matchCount r))).
Proof.
  rewrite (search_unfold ext db embedder videoPath query matchCount r e d' hits)
    by assumption.
  match goal with
  | |- context [Retriever.search_loop ext videoPath hits [] ?r1] =>
      destruct (search_loop_consistent ext videoPath Hexists hits [] r1 Hcons)
        as [Hout Hfin]
  end.
  split; [exact Hout | exact Hfin].
Qed.

Lemma search_results_from_frames_witness :
  Retriever.fs_existsSync Scenario.ext_bad_frame "v.mp4" = true /\
  Retriever.consistent Scenario.ext_bad_frame "v.mp4"
    (Retriever.frameCache (Scenario.retriever_cap None Scenario.store_one)) /\
  snd (Retriever.search Scenario.ext_bad_frame Adapters.createInMemoryAdapter
         Scenario.embedder_const "query" "v.mp4" None
         (Scenario.retriever_cap None Scenario.store_one))
  = Returned (omap (Retriever.expected_result Scenario.ext_bad_frame "v.mp4")
                [Scenario.hit 0]).
Proof.
  split; [reflexivity | split; [constructor |]].
  apply (search_results_from_frames Scenario.ext_bad_frame
           Adapters.createInMemoryAdapter Scenario.embedder_const "query" "v.mp4"
           None (Scenario.retriever_cap None Scenario.store_one)
           [1%float; 0%float] Scenario.store_one [Scenario.hit 0]);
    [reflexivity | reflexivity | vm_compute; reflexivity | constructor].
Defined.

(** X13. Over an existing video and with such a cache, [getFrameByNumber]
    hands back exactly what extracting and decoding the frame yields (null
    where either fails), whether or not the frame is in the cache, and
    leaves the cache such a cache. *)
Theorem getFrameByNumber_reads_frame {D : Type} (ext : Retriever.Externals)
  (videoPath : string) (f : Z) (r : Retriever.State D)
  (Hexists : Retriever.fs_existsSync ext videoPath = true)
  (Hcons : Retriever.consistent ext videoPath (Retriever.frameCache r)) :
  snd (Retriever.getFrameByNumber ext videoPath f r)
  = Returned (Retriever.frame_text ext videoPath f) /\
  Retriever.consistent ext videoPath
    (Retriever.frameCache (fst (Retriever.getFrameByNumber ext videoPath f r))).
Proof.
  destruct (getFrameByNumber_consistent ext videoPath Hexists f r Hcons)
    as [Hout Hfin].
  split; [exact Hout | exact Hfin].
Qed.

Lemma getFrameByNumber_reads_frame_witness :
  Retriever.fs_existsSync Scenario.ext_video "v.mp4" = true /\
  snd (Retriever.getFrameByNumber Scenario.ext_video "v.mp4" 7
         (Scenario.retriever_cap None ([] : Adapters.Store)))
  = Returned (Retriever.frame_text Scenario.ext_video "v.mp4" 7).
Proof.
  split; [reflexivity |].
  apply (getFrameByNumber_reads_frame Scenario.ext_video "v.mp4" 7
           (Scenario.retriever_cap None ([] : Adapters.Store)));
    [reflexivity | constructor].
Defined.

(** ** Reading a frame twice *)

Section ReadTwice.

Context {D : Type} (ext : Retriever.Externals) (videoPath : string).

(** A non-empty text in the cache is handed back as it is: no call is
    made and nothing changes. *)
Lemma getFrameByNumber_hit (f : Z) (t : string) (r : Retriever.State D) :
  JsMap.get (Retriever.frameCache r) (Retriever.cache_key videoPath f) = Some t ->
  truthy t = true ->
  Retriever.getFrameByNumber ext videoPath f r = (r, Returned (Some t)).
Proof.
  intros Hget Ht. run_retriever. rewrite Hget.
  unfold Retriever.falsy. rewrite Ht. reflexivity.
Qed.

(** A non-empty text [getFrameByNumber] hands back is in the cache
    afterwards. *)
Lemma getFrameByNumber_caches (f : Z) (t : string) (r : Retriever.State D) :
  snd (Retriever.getFrameByNumber ext videoPath f r) = Returned (Some t) ->
  truthy t = true ->
  JsMap.get
    (Retriever.frameCache (fst (Retriever.getFrameByNumber ext videoPath f r)))
    (Retriever.cache_key videoPath f) = Some t.
Proof.
  run_retriever. unfold Retriever.falsy.
  destruct (JsMap.get (Retriever.frameCache r) _) as [t0 |] eqn:Hcached.
  - destruct (truthy t0) eqn:Ht0; simpl.
    + intros H _. inversion H; subst. exact Hcached.
    + destruct (Retriever.fs_existsSync ext videoPath); simpl; [| discriminate].
      destruct (Retriever.ffmpeg_frame ext videoPath f "png") as [buf |];
        simpl; [| discriminate].
      destruct (Z.of_nat (length buf) >? 0)%Z; simpl; [| discriminate].
      destruct (Retriever.qr_read ext buf) as [e | | data]; simpl;
        try discriminate.
      destruct (truthy data) eqn:Hdata; simpl; intros H Ht; inversion H; subst;
        [apply addToCache_map_get | congruence].
  - destruct (Retriever.fs_existsSync ext videoPath); simpl; [| discriminate].
    destruct (Retriever.ffmpeg_frame ext videoPath f "png") as [buf |];
      simpl; [| discriminate].
    destruct (Z.of_nat (length buf) >? 0)%Z; simpl; [| discriminate].
    destruct (Retriever.qr_read ext buf) as [e | | data]; simpl;
      try discriminate.
    destruct (truthy data) eqn:Hdata; simpl; intros H Ht; inversion H; subst;
      [apply addToCache_map_get | congruence].
Qed.

End ReadTwice.

(** X14. A frame read once is read from the cache the next time: when
    [getFrameByNumber] has handed back a non-empty text, calling it again
    for the same frame right away hands back the same text without any call
    to the file system, the video tool or the QR reader, and leaves the
    retriever as it is, whatever the capacity of the cache. *)
Theorem getFrameByNumber_twice {D : Type} (ext : Retriever.Externals)
  (videoPath : string) (f : Z) (t : string) (r : Retriever.State D)
  (Hfirst : snd (Retriever.getFrameByNumber ext videoPath f r) = Returned (Some t))
  (Ht : truthy t = true) :
  Retriever.getFrameByNumber ext videoPath f
    (fst (Retriever.getFrameByNumber ext videoPath f r))
  = (fst (Retriever.getFrameByNumber ext videoPath f r), Returned (Some t)).
Proof.
  apply getFrameByNumber_hit; [| exact Ht].
  apply getFrameByNumber_caches; assumption.
Qed.

Lemma getFrameByNumber_twice_witness :
  snd (Retriever.getFrameByNumber Scenario.ext_video "v.mp4" 7
         (Scenario.retriever_cap (Some 0) ([] : Adapters.Store)))
  = Returned (Some "chunk 7") /\
  snd (Retriever.getFrameByNumber Scenario.ext_video "v.mp4" 7
         (fst (Retriever.getFrameByNumber Scenario.ext_video "v.mp4" 7
                 (Scenario.retriever_cap (Some 0) ([] : Adapters.Store)))))
  = Returned (Some "chunk 7").
Proof.
  split; [reflexivity |].
  rewrite (getFrameByNumber_twice Scenario.ext_video "v.mp4" 7 "chunk 7"
             (Scenario.retriever_cap (Some 0) ([] : Adapters.Store)));
    reflexivity.
Defined.

(* ===================================================================== *)
(** * retriever: batchDecodeFrames and searchMultiple                     *)
(* ===================================================================== *)

Lemma frames_get_set (m : list (Z * string)) (k k' : Z) (v : string) :
  Retriever.frames_get (Retriever.frames_set m k v) k'
  = if (k =? k')%Z then Some v else Retriever.frames_get m k'.
Proof.
  induction m as [|[k0 v0] m IH]; simpl.
  - reflexivity.
  - destruct (k0 =? k)%Z eqn:Hk0; simpl.
    + apply Z.eqb_eq in Hk0. subst k0.
      destruct (k =? k')%Z; reflexivity.
    + destruct (k0 =? k')%Z eqn:Hk0'; [| exact IH].
      apply Z.eqb_eq in Hk0'. subst k0.
      rewrite Z.eqb_sym, Hk0. reflexivity.
Qed.

Section BatchDecode.

Context {D : Type} (ext : Retriever.Externals) (videoPath : string).

Hypothesis Hexists : Retriever.fs_existsSync ext videoPath = true.

Lemma batchDecodeFrames_loop_consistent (frames : list Z)
  (results : list (Z * string)) (r : Retriever.State D) :
  Retriever.consistent ext videoPath (Retriever.frameCache r) ->
  exists m,
    snd (Retriever.batchDecodeFrames_loop ext videoPath frames results r)
    = Returned m /\
    Retriever.consistent ext videoPath
      (Retriever.frameCache
         (fst (Retriever.batchDecodeFrames_loop ext videoPath frames results r))) /\
    forall f,
      Retriever.frames_get m f
      = match (if decide (f ∈ frames)
               then Retriever.expected_text ext videoPath f else None) with
        | Some t => Some t
        | None => Retriever.frames_get results f
        end.
Proof.
  revert results r. induction frames as [|f0 frames IH]; intros results r Hcons.
  - exists results. simpl. split; [reflexivity | split; [exact Hcons |]].
    intros f. destruct (decide (f ∈ [])) as [Hin |]; [| reflexivity].
    now apply elem_of_nil in Hin.
  - cbn [Retriever.batchDecodeFrames_loop]. unfold bind.
    destruct (getFrameByNumber_consistent ext videoPath Hexists f0 r Hcons)
      as [Hout Hcons1].
    destruct (Retriever.getFrameByNumber ext videoPath f0 r) as [r1 o].
    simpl in Hout, Hcons1. subst o.
    assert (Hskip : Retriever.expected_text ext videoPath f0 = None ->
      exists m,
        snd (Retriever.batchDecodeFrames_loop ext videoPath frames results r1)
        = Returned m /\
        Retriever.consistent ext videoPath
          (Retriever.frameCache
             (fst (Retriever.batchDecodeFrames_loop ext videoPath frames results r1))) /\
        forall f,
          Retriever.frames_get m f
          = match (if decide (f ∈ f0 :: frames)
                   then Retriever.expected_text ext videoPath f else None) with
            | Some t => Some t
            | None => Retriever.frames_get results f
            end).
    { intros Hnone. destruct (IH results r1 Hcons1) as (m & Hm & Hc & Hget).
      exists m. split; [exact Hm | split; [exact Hc |]]. intros f.
      rewrite Hget.
      destruct (decide (f ∈ frames)) as [Hin | Hnin];
        destruct (decide (f ∈ f0 :: frames)) as [Hin' | Hnin']; try reflexivity.
      - exfalso. apply Hnin'. now apply elem_of_cons; right.
      - apply elem_of_cons in Hin' as [-> | Hin']; [| contradiction].
        now rewrite Hnone. }
    unfold Retriever.expected_text in Hskip.
    destruct (Retriever.frame_text ext videoPath f0) as [t |] eqn:Hft;
      [| now apply Hskip].
    destruct (truthy t) eqn:Ht; [| now apply Hskip]. clear Hskip.
    destruct (IH (Retriever.frames_set results f0 t) r1 Hcons1)
      as (m & Hm & Hc & Hget).
    exists m. split; [exact Hm | split; [exact Hc |]]. intros f.
    rewrite Hget, frames_get_set.
    destruct (Z.eqb_spec f0 f) as [-> | Hne].
    + destruct (decide (f ∈ f :: frames)) as [_ | Hnin];
        [| exfalso; apply Hnin; now apply elem_of_cons; left].
      unfold Retriever.expected_text at 2. rewrite Hft, Ht.
      destruct (decide (f ∈ frames)) as [_ |]; [| reflexivity].
      unfold Retriever.expected_text. now rewrite Hft, Ht.
    + destruct (decide (f ∈ frames)) as [Hin | Hnin];
        destruct (decide (f ∈ f0 :: frames)) as [Hin' | Hnin']; try reflexivity.
      * exfalso. apply Hnin'. now apply elem_of_cons; right.
      * apply elem_of_cons in Hin' as [-> | Hin']; contradiction.
Qed.

End BatchDecode.

(** X15. Over an existing video, and with a cache that holds for a frame
    only the text that frame decodes to, [batchDecodeFrames] returns a map
    that holds, for every requested frame that decodes to a non-empty text,
    that text, and nothing else: frames that cannot be extracted or decoded
    or that decode to the empty text are left out silently, frames that
    were not requested are absent, and a frame requested twice is held
    once. *)
Theorem batchDecodeFrames_map {D : Type} (ext : Retriever.Externals)
  (videoPath : string) (frames : list Z) (r : Retriever.State D)
  (Hexists : Retriever.fs_existsSync ext videoPath = true)
  (Hcons : Retriever.consistent ext videoPath (Retriever.frameCache r)) :
  exists m,
    snd (Retriever.batchDecodeFrames ext videoPath frames r) = Returned m /\
    forall f,
      Retriever.frames_get m f
      = if decide (f ∈ frames) then Retriever.expected_text ext videoPath f
        else None.
Proof.
  unfold Retriever.batchDecodeFrames.
  destruct (batchDecodeFrames_loop_consistent ext videoPath Hexists frames [] r Hcons)
    as (m & Hm & _ & Hget).
  exists m. split; [exact Hm |]. intros f. rewrite Hget.
  destruct (decide (f ∈ frames)); [| reflexivity].
  destruct (Retriever.expected_text ext videoPath f); reflexivity.
Qed.

Lemma batchDecodeFrames_map_witness :
  Retriever.fs_existsSync Scenario.ext_bad_frame "v.mp4" = true /\
  exists m,
    snd (Retriever.batchDecodeFrames Scenario.ext_bad_frame "v.mp4" [0; 1; 0]
           (Scenario.retriever_cap None ([] : Adapters.Store)))
    = Returned m /\
    Retriever.frames_get m 0 = Some "chunk 0" /\
    Retriever.frames_get m 1 = None.
Proof.
  split; [reflexivity |].
  destruct (batchDecodeFrames_map Scenario.ext_bad_frame "v.mp4" [0; 1; 0]
              (Scenario.retriever_cap None ([] : Adapters.Store))
              eq_refl (Forall_nil_2 _))
    as (m & Hm & Hget).
  exists m. split; [exact Hm |].
  split; rewrite Hget; reflexivity.
Defined.

Section SearchMultiple.

Context {D : Type} (ext : Retriever.Externals) (db : VectorDatabase D)
  (embedder : Embedder).

Lemma searchMultiple_loop_missing (query : string) (paths : list string)
  (k : Z) (acc : list SearchResult) (r : Retriever.State D) :
  Forall (fun p => Retriever.fs_existsSync ext p = false) paths ->
  Retriever.searchMultiple_loop ext db embedder query paths k acc r
  = ({| Retriever.database := Retriever.database r;
        Retriever.r_verbose := Retriever.r_verbose r;
        Retriever.frameCache := Retriever.frameCache r;
        Retriever.maxCacheSize := Retriever.maxCacheSize r;
        Retriever.calls :=
          Retriever.calls r ++ map Retriever.CallExistsSync paths |},
     Returned acc).
Proof.
  revert r. induction paths as [|p paths IH]; intros r Hmiss.
  - simpl. unfold ret. rewrite app_nil_r. now destruct r.
  - inversion Hmiss as [| ? ? Hp Hrest]; subst.
    cbn [Retriever.searchMultiple_loop]. unfold bind, Retriever.log, modify.
    rewrite Hp. simpl. rewrite (IH _ Hrest). simpl.
    now rewrite <- app_assoc.
Qed.

(** The hits are decoded without touching the database. *)
Lemma decoded_text_for_database (videoPath : string)
  (h : QRVideoStoreIndexEntry) (r : Retriever.State D) :
  Retriever.database (fst (Retriever.decoded_text_for ext videoPath h r))
  = Retriever.database r.
Proof.
  run_retriever.
  destruct (Retriever.falsy (JsMap.get _ _)); simpl; [| reflexivity].
  destruct (Retriever.fs_existsSync ext videoPath); simpl; [| reflexivity].
  destruct (Retriever.ffmpeg_frame ext videoPath (frameNumber h) "png") as [buf |];
    simpl; [| reflexivity].
  destruct (Z.of_nat (length buf) >? 0)%Z; simpl; [| reflexivity].
  destruct (Retriever.qr_read ext buf) as [e | | data]; simpl; try reflexivity.
  destruct (truthy data); reflexivity.
Qed.

Lemma search_loop_database (videoPath : string)
  (hits : list QRVideoStoreIndexEntry) (acc : list SearchResult)
  (r : Retriever.State D) :
  Retriever.database (fst (Retriever.search_loop ext videoPath hits acc r))
  = Retriever.database r.
Proof.
  revert acc r. induction hits as [|h hits IH]; intros acc r; [reflexivity |].
  cbn [Retriever.search_loop]. unfold bind.
  pose proof (decoded_text_for_database videoPath h r) as Hdb.
  destruct (Retriever.decoded_text_for ext videoPath h r) as [r1 [t | e |]];
    simpl in Hdb; simpl; try exact Hdb.
  destruct t as [t |]; rewrite IH; exact Hdb.
Qed.

Variables (Inv : D -> Prop) (query : string) (e : list float) (k : Z).

Hypothesis Hembed : embed embedder query = Returned e.
Hypothesis Hindex : forall d, Inv d ->
  exists d' hits, search db e k d = (d', Returned hits) /\ Inv d'.

Lemma search_returns (videoPath : string) (r : Retriever.State D) :
  Retriever.fs_existsSync ext videoPath = true ->
  Inv (Retriever.database r) ->
  exists results,
    snd (Retriever.search ext db embedder query videoPath (Some k) r)
    = Returned results /\
    Inv (Retriever.database
           (fst (Retriever.search ext db embedder query videoPath (Some k) r))).
Proof.
  intros Hexists Hinv.
  destruct (Hindex (Retriever.database r) Hinv) as (d' & hits & Hhits & Hinv').
  rewrite (search_unfold ext db embedder videoPath query (Some k) r e d' hits)
    by assumption.
  rewrite search_loop_database. cbn [Retriever.database].
  match goal with
  | |- context [Retriever.search_loop ext videoPath hits [] ?r1] =>
      destruct (search_loop_extends ext videoPath Hexists hits [] r1)
        as [rest Hrest]
  end.
  exists rest. split; [exact Hrest | exact Hinv'].
Qed.

Lemma searchMultiple_loop_returns (paths : list string)
  (acc : list SearchResult) (r : Retriever.State D) :
  Inv (Retriever.database r) ->
  exists rest,
    snd (Retriever.searchMultiple_loop ext db embedder query paths k acc r)
    = Returned (acc ++ rest).
Proof.
  revert acc r. induction paths as [|p paths IH]; intros acc r Hinv.
  - exists []. simpl. now rewrite app_nil_r.
  - cbn [Retriever.searchMultiple_loop]. unfold bind, Retriever.log, modify.
    cbn [fst snd].
    destruct (Retriever.fs_existsSync ext p) eqn:Hp; simpl.
    + match goal with
      | |- context [Retriever.search ext db embedder query p (Some k) ?r1] =>
          destruct (search_returns p r1 Hp Hinv) as (results & Hres & Hinv');
          destruct (Retriever.search ext db embedder query p (Some k) r1)
            as [r2 o]
      end.
      simpl in Hres, Hinv'. subst o.
      destruct (IH (acc ++ results) r2 Hinv') as [rest Hrest].
      exists (results ++ rest). now rewrite app_assoc.
    + apply IH. exact Hinv.
Qed.

End SearchMultiple.

(** X16. [searchMultiple] over videos none of which exists returns no
    result and does nothing but look for each file in turn: the query is
    not embedded, the index is not searched, and database and cache are as
    before. *)
Theorem searchMultiple_all_missing {D : Type} (ext : Retriever.Externals)
  (db : VectorDatabase D) (embedder : Embedder) (query : string)
  (paths : list string) (matchCountPerVideo : option Z) (r : Retriever.State D)
  (Hmissing : Forall (fun p => Retriever.fs_existsSync ext p = false) paths) :
  Retriever.searchMultiple ext db embedder query paths matchCountPerVideo r
  = ({| Retriever.database := Retriever.database r;
        Retriever.r_verbose := Retriever.r_verbose r;
        Retriever.frameCache := Retriever.frameCache r;
        Retriever.maxCacheSize := Retriever.maxCacheSize r;
        Retriever.calls :=
          Retriever.calls r ++ map Retriever.CallExistsSync paths |},
     Returned []).
Proof.
  unfold Retriever.searchMultiple, bind.
  rewrite (searchMultiple_loop_missing ext db embedder query paths
             (default 5 matchCountPerVideo) [] r Hmissing).
  reflexivity.
Qed.

Lemma searchMultiple_all_missing_witness :
  Forall (fun p => Retriever.fs_existsSync Scenario.ext_missing p = false)
    ["a.mp4"; "b.mp4"] /\
  snd (Retriever.searchMultiple Scenario.ext_missing
         Adapters.createInMemoryAdapter Scenario.embedder_const "query"
         ["a.mp4"; "b.mp4"] None
         (Scenario.retriever_cap None Scenario.store_one))
  = Returned [].
Proof.
  split; [repeat constructor |].
  rewrite (searchMultiple_all_missing Scenario.ext_missing
             Adapters.createInMemoryAdapter Scenario.embedder_const "query"
             ["a.mp4"; "b.mp4"] None
             (Scenario.retriever_cap None Scenario.store_one));
    [reflexivity | repeat constructor].
Defined.

(** X17. When the embedder answers the query and the index answers its
    embedding in every state it can be in (an invariant of the database
    that its search keeps), [searchMultiple] returns for every list of
    videos, missing ones included (where [search] on a missing video
    throws), and what it returns is a rearrangement of the results gathered
    video by video: sorting drops, repeats and invents nothing. *)
Theorem searchMultiple_returns_rearranged {D : Type} (ext : Retriever.Externals)
  (db : VectorDatabase D) (embedder : Embedder) (Inv : D -> Prop)
  (query : string) (e : list float) (paths : list string)
  (matchCountPerVideo : option Z) (r : Retriever.State D)
  (Hembed : embed embedder query = Returned e)
  (Hindex : forall d, Inv d ->
     exists d' hits,
       search db e (default 5 matchCountPerVideo) d = (d', Returned hits) /\
       Inv d')
  (Hinv : Inv (Retriever.database r)) :
  exists gathered results,
    snd (Retriever.searchMultiple_loop ext db embedder query paths
           (default 5 matchCountPerVideo) [] r) = Returned gathered /\
    snd (Retriever.searchMultiple ext db embedder query paths
           matchCountPerVideo r) = Returned results /\
    results ≡ₚ gathered.
Proof.
  destruct (searchMultiple_loop_returns ext db embedder Inv query e
              (default 5 matchCountPerVideo) Hembed Hindex paths [] r Hinv)
    as [gathered Hg].
  simpl in Hg.
  exists gathered, (Adapters.js_sort Retriever.by_result_similarity gathered).
  split; [exact Hg |]. split; [| apply js_sort_perm].
  unfold Retriever.searchMultiple, bind.
  destruct (Retriever.searchMultiple_loop ext db embedder query paths
              (default 5 matchCountPerVideo) [] r) as [r1 o].
  simpl in Hg. subst o. reflexivity.
Qed.

Lemma searchMultiple_returns_rearranged_witness :
  exists results,
    snd (Retriever.searchMultiple Scenario.ext_video
           Adapters.createInMemoryAdapter Scenario.embedder_const "query"
           ["a.mp4"; "b.mp4"] None
           (Scenario.retriever_cap None Scenario.store_one))
    = Returned results.
Proof.
  destruct (searchMultiple_returns_rearranged Scenario.ext_video
              Adapters.createInMemoryAdapter Scenario.embedder_const
              (fun d => d = Scenario.store_one) "query" [1%float; 0%float]
              ["a.mp4"; "b.mp4"] None
              (Scenario.retriever_cap None Scenario.store_one))
    as (gathered & results & _ & Hres & _).
  - reflexivity.
  - intros d ->. eexists _, _. split; [vm_compute; reflexivity | reflexivity].
  - reflexivity.
  - exists results. exact Hres.
Defined.

(* ===================================================================== *)
(** * adapters: the self-contained embedders                              *)
(* ===================================================================== *)

Section SimpleHash.

#[local] Abbreviation two32 := 4294967296 (only parsing).

Lemma to_int32_range (z : Z) : -2147483648 <= Embedders.to_int32 z < 2147483648.
Proof.
  unfold Embedders.to_int32.
  pose proof (Z.mod_pos_bound (z + 2147483648) two32 ltac:(lia)). lia.
Qed.

Lemma to_int32_mod (z : Z) : Embedders.to_int32 z mod two32 = z mod two32.
Proof.
  unfold Embedders.to_int32.
  rewrite Zminus_mod, Z.mod_mod by lia.
  rewrite <- Zminus_mod. f_equal. lia.
Qed.

Lemma to_int32_congr (a b : Z) :
  a mod two32 = b mod two32 -> Embedders.to_int32 a = Embedders.to_int32 b.
Proof.
  intros H. unfold Embedders.to_int32.
  rewrite (Zplus_mod a), (Zplus_mod b), H. reflexivity.
Qed.

Lemma to_int32_id (z : Z) :
  -2147483648 <= z < 2147483648 -> Embedders.to_int32 z = z.
Proof.
  intros H. unfold Embedders.to_int32. rewrite Z.mod_small; lia.
Qed.

(** One turn of the loop multiplies by 31 and adds the character code,
    modulo 2^32. *)
Lemma simpleHash_step (h h' c : Z) :
  h mod two32 = h' mod two32 ->
  Embedders.to_int32
    (Embedders.to_int32 (Z.shiftl (Embedders.to_int32 h) 5) - h + c)
  = Embedders.to_int32 (31 * h' + c).
Proof.
  intros Hh. apply to_int32_congr.
  rewrite Z.shiftl_mul_pow2 by lia. change (2 ^ 5) with 32.
  rewrite (Zplus_mod _ c), (Zplus_mod (31 * h') c). f_equal. f_equal.
  rewrite Zminus_mod, to_int32_mod.
  rewrite (Zmult_mod (Embedders.to_int32 h) 32), to_int32_mod.
  rewrite <- Zmult_mod, <- Zminus_mod.
  replace (h * 32 - h) with (31 * h) by lia.
  rewrite (Zmult_mod 31 h), (Zmult_mod 31 h'), Hh. reflexivity.
Qed.

Lemma simpleHash_loop_poly (str : string) (h h' : Z) :
  -2147483648 <= h < 2147483648 ->
  h mod two32 = h' mod two32 ->
  Embedders.simpleHash_loop str h
  = Embedders.to_int32
      (fold_left (fun acc c => 31 * acc + Embedders.charCodeAt c)
         (list_ascii_of_string str) h').
Proof.
  revert h h'. induction str as [|c str IH]; intros h h' Hrange Hh; simpl.
  - rewrite <- (to_int32_id h Hrange). now apply to_int32_congr.
  - apply IH; [apply to_int32_range |].
    rewrite (simpleHash_step h h' _ Hh). apply to_int32_mod.
Qed.

End SimpleHash.

(** X18. [simpleHash] is the absolute value of the polynomial hash of the
    character codes in base 31, reduced once to a signed 32-bit integer:
    the reduction the loop performs at every character may as well be
    performed at the end. The hash is therefore between 0 and 2^31, both
    included. *)
Theorem simpleHash_polynomial (str : string) :
  Embedders.simpleHash str
  = Z.abs (Embedders.to_int32
             (fold_left (fun acc c => 31 * acc + Embedders.charCodeAt c)
                (list_ascii_of_string str) 0)) /\
  0 <= Embedders.simpleHash str <= 2147483648.
Proof.
  assert (Heq : Embedders.simpleHash str
                = Z.abs (Embedders.to_int32
                           (fold_left
                              (fun acc c => 31 * acc + Embedders.charCodeAt c)
                              (list_ascii_of_string str) 0))).
  { unfold Embedders.simpleHash. f_equal.
    apply simpleHash_loop_poly; [lia | reflexivity]. }
  split; [exact Heq |]. rewrite Heq.
  match goal with
  | |- context [Embedders.to_int32 ?z] => pose proof (to_int32_range z)
  end.
  lia.
Qed.

Section PatternHash.

#[local] Ltac count_case IH :=
  rewrite IH; cbv zeta;
  repeat match goal with
         | |- context [decide ?P] => destruct (decide P) as [? | ?]
         end;
  try (exfalso; intuition congruence);
  cbn [length];
  repeat match goal with |- (_, _) = (_, _) => f_equal end;
  lia.

(** The loop counts, class by class, the characters that fall in the class
    and in none of the classes tested before it. *)
Lemma pattern_loop_counts (str : string) (l n s p : Z) :
  Embedders.pattern_loop str l n s p
  = let cs := list_ascii_of_string str in
    (l + Z.of_nat (length (filter (fun c => Embedders.is_letter c = true) cs)),
     n + Z.of_nat (length (filter (fun c => Embedders.is_letter c = false /\
                                            Embedders.is_number c = true) cs)),
     s + Z.of_nat (length (filter (fun c => Embedders.is_letter c = false /\
                                            Embedders.is_number c = false /\
                                            Embedders.is_space c = true) cs)),
     p + Z.of_nat (length (filter (fun c => Embedders.is_letter c = false /\
                                            Embedders.is_number c = false /\
                                            Embedders.is_space c = false /\
                                            Embedders.is_punctuation c = true) cs))).
Proof.
  revert l n s p. induction str as [|c str IH]; intros l n s p.
  - cbn [Embedders.pattern_loop list_ascii_of_string]. cbv zeta.
    rewrite !filter_nil. cbn [length Z.of_nat]. now rewrite !Z.add_0_r.
  - cbn [Embedders.pattern_loop list_ascii_of_string].
    cbv zeta. rewrite !filter_cons.
    destruct (Embedders.is_letter c) eqn:Hl; [count_case IH |].
    destruct (Embedders.is_number c) eqn:Hn; [count_case IH |].
    destruct (Embedders.is_space c) eqn:Hs; [count_case IH |].
    destruct (Embedders.is_punctuation c) eqn:Hp; count_case IH.
Qed.


Lemma pattern_classes_disjoint (cs : list ascii) :
  (length (filter (fun c => Embedders.is_letter c = true) cs)
   + length (filter (fun c => Embedders.is_letter c = false /\
                              Embedders.is_number c = true) cs)
   + length (filter (fun c => Embedders.is_letter c = false /\
                              Embedders.is_number c = false /\
                              Embedders.is_space c = true) cs)
   + length (filter (fun c => Embedders.is_letter c = false /\
                              Embedders.is_number c = false /\
                              Embedders.is_space c = false /\
                              Embedders.is_punctuation c = true) cs)
   <= length cs)%nat.
Proof.
  induction cs as [|c cs IH]; [rewrite !filter_nil; simpl; lia |].
  rewrite !filter_cons.
  repeat match goal with
         | |- context [decide ?P] => destruct (decide P) as [? | ?]
         end;
    try (exfalso; intuition congruence);
    cbn [length]; lia.
Qed.

Lemma filter_length_perm {A} (P : A -> Prop) `{forall x, Decision (P x)}
  (l l' : list A) :
  l ≡ₚ l' -> length (filter P l) = length (filter P l').
Proof. intros Hperm. apply Permutation_length. now rewrite Hperm. Qed.

End PatternHash.

(** X19. [characterPatternHash] sees a text only through how many of its
    characters are letters, digits, spaces and punctuation marks: two texts
    made of the same characters in another order have the same pattern
    hash; and the hash is between 0 and 1000 times the length of the
    text. *)
Theorem characterPatternHash_counts_only (str : string) :
  0 <= Embedders.characterPatternHash str <= 1000 * str_length str /\
  forall str',
    list_ascii_of_string str ≡ₚ list_ascii_of_string str' ->
    Embedders.characterPatternHash str = Embedders.characterPatternHash str'.
Proof.
  unfold Embedders.characterPatternHash. split.
  - rewrite pattern_loop_counts. cbv zeta.
    pose proof (pattern_classes_disjoint (list_ascii_of_string str)) as Hsum.
    unfold str_length. rewrite <- (length_list_ascii str). lia.
  - intros str' Hperm. rewrite !pattern_loop_counts. cbv zeta.
    rewrite !(filter_length_perm _ _ _ Hperm). reflexivity.
Qed.

Lemma characterPatternHash_counts_only_witness :
  Embedders.characterPatternHash "ab 1." = Embedders.characterPatternHash ".1 ba".
Proof.
  apply (characterPatternHash_counts_only "ab 1.").
  change (list_ascii_of_string "ab 1.")
    with (rev (list_ascii_of_string ".1 ba")).
  symmetry. apply Permutation_rev.
Defined.

(** ** createSimpleEmbedder *)

Lemma simple_values_length (sin cos : Z -> float) (hash charHash len i : Z)
  (n : nat) :
  length (Embedders.simple_values sin cos hash charHash len i n) = n.
Proof.
  revert i. induction n as [|n IH]; intros i; simpl; [reflexivity |].
  now rewrite IH.
Qed.

(** X20. The embedder of [createSimpleEmbedder] never fails, and the vector
    it returns has as many components as the dimension asked for (384 by
    default), none when the dimension is negative; so for a dimension that
    is not negative the length of every embedding is what [dimension()]
    announces. *)
Theorem createSimpleEmbedder_dimension (sin cos : Z -> float)
  (dimension : option Z) (text_ : string) :
  exists v,
    embed (Embedders.createSimpleEmbedder sin cos dimension) text_ = Returned v /\
    Z.of_nat (length v) = Z.max 0 (Embedders.simple_dimension dimension) /\
    (0 <= Embedders.simple_dimension dimension ->
     Z.of_nat (length v) = Embedders.simple_dimension dimension).
Proof.
  eexists. split; [reflexivity |].
  assert (Hlen : Z.of_nat (length (Embedders.simple_embed sin cos
                                     (default 384 dimension) text_))
                 = Z.max 0 (Embedders.simple_dimension dimension)).
  { unfold Embedders.simple_embed, Embedders.simple_dimension. cbv zeta.
    rewrite length_map, simple_values_length. lia. }
  split; [exact Hlen |]. intros Hpos. rewrite Hlen. lia.
Qed.

Lemma createSimpleEmbedder_dimension_witness :
  exists v,
    embed (Embedders.createSimpleEmbedder (fun _ => 0%float) (fun _ => 1%float)
             (Some 3)) "Hello world" = Returned v /\
    Z.of_nat (length v) = 3.
Proof.
  destruct (createSimpleEmbedder_dimension (fun _ => 0%float) (fun _ => 1%float)
              (Some 3) "Hello world") as (v & Hv & _ & Hlen).
  exists v. split; [exact Hv |]. apply Hlen. simpl. lia.
Defined.

(** ** createCachedEmbedder *)

Section CachedEmbedder.

Lemma cache_get_elem (m : list (string * list float)) (k : string)
  (v : list float) :
  Embedders.cache_get m k = Some v -> (k, v) ∈ m.
Proof.
  induction m as [|[k' v'] m IH]; simpl; [discriminate |].
  destruct (String.eqb_spec k' k) as [-> | Hne].
  - intros [= ->]. apply elem_of_cons. now left.
  - intros H. apply elem_of_cons. right. auto.
Qed.

Lemma cache_Forall_set (P : string * list float -> Prop)
  (m : list (string * list float)) (k : string) (v : list float) :
  Forall P m -> P (k, v) -> Forall P (Embedders.cache_set m k v).
Proof.
  intros Hm Hkv. induction Hm as [|[k' v'] m Hx Hm IH]; simpl.
  - now constructor.
  - destruct (String.eqb_spec k' k) as [-> | Hne]; constructor; assumption.
Qed.

Lemma cache_Forall_delete (P : string * list float -> Prop)
  (m : list (string * list float)) (k : string) :
  Forall P m -> Forall P (Embedders.cache_delete m k).
Proof.
  intros Hm. induction Hm as [|[k' v'] m Hx Hm IH]; simpl.
  - constructor.
  - destruct (String.eqb k' k); [assumption | now constructor].
Qed.

Lemma cache_Forall_evict (P : string * list float -> Prop) (maxCacheSize : Z)
  (m : list (string * list float)) :
  Forall P m -> Forall P (Embedders.cache_evict maxCacheSize m).
Proof.
  intros Hm. unfold Embedders.cache_evict.
  destruct (Z.of_nat (length m) >=? maxCacheSize)%Z; [| exact Hm].
  destruct m as [|[k0 v0] m]; [exact Hm |].
  destruct (truthy k0); [apply cache_Forall_delete |]; exact Hm.
Qed.

Lemma cache_set_length (m : list (string * list float)) (k : string)
  (v : list float) :
  length (Embedders.cache_set m k v)
  = match Embedders.cache_get m k with
    | Some _ => length m
    | None => S (length m)
    end.
Proof.
  induction m as [|[k' v'] m IH]; simpl; [reflexivity |].
  destruct (String.eqb k' k); simpl; [reflexivity |].
  rewrite IH. destruct (Embedders.cache_get m k); reflexivity.
Qed.

End CachedEmbedder.

(** X21. The cache of [createCachedEmbedder] cannot be told from the
    embedder it wraps: while the cache holds for a text only what the
    wrapped embedder returns for it (as the empty cache does), a call
    answers exactly what the wrapped embedder answers for the text, an
    error included, whether the text is in the cache or not and whatever
    has been evicted; the cache stays such a cache, and a call the wrapped
    embedder fails leaves it as it was. *)
Theorem cached_embedder_transparent (embedder : Embedder)
  (maxCacheSize : option Z) (text_ : string)
  (cache : list (string * list float))
  (Hagrees : Embedders.cache_agrees embedder cache) :
  snd (Embedders.cached_embed embedder maxCacheSize text_ cache)
  = embed embedder text_ /\
  Embedders.cache_agrees embedder
    (fst (Embedders.cached_embed embedder maxCacheSize text_ cache)) /\
  ((forall v, embed embedder text_ <> Returned v) ->
   fst (Embedders.cached_embed embedder maxCacheSize text_ cache) = cache).
Proof.
  unfold Embedders.cached_embed, bind, gets, liftO, modify, ret. cbn [fst snd].
  destruct (Embedders.cache_get cache text_) as [v |] eqn:Hget.
  - apply cache_get_elem in Hget.
    pose proof Hagrees as Hhit. unfold Embedders.cache_agrees in Hhit.
    rewrite Forall_forall in Hhit. specialize (Hhit _ Hget).
    simpl in Hhit. simpl. rewrite Hhit.
    split; [reflexivity | split; [exact Hagrees | reflexivity]].
  - destruct (embed embedder text_) as [v | e |] eqn:Hembed; simpl.
    + split; [reflexivity | split].
      * apply cache_Forall_set; [now apply cache_Forall_evict | exact Hembed].
      * intros Hfails. now destruct (Hfails v).
    + auto.
    + auto.
Qed.

Lemma cached_embedder_transparent_witness :
  snd (Embedders.cached_embed Scenario.embedder_const (Some 1) "b"
         [("a", [1%float; 0%float])])
  = embed Scenario.embedder_const "b".
Proof.
  apply (cached_embedder_transparent Scenario.embedder_const (Some 1) "b"
           [("a", [1%float; 0%float])]).
  repeat constructor.
Defined.

(** X22. The eviction of [createCachedEmbedder] tests the oldest key for
    truthiness, and the empty text is a key that fails the test: once the
    empty text is the oldest key of the cache, nothing is evicted any more,
    and every text that is embedded for the first time makes the cache one
    entry larger, whatever the capacity. *)
Theorem cached_embedder_empty_key_blocks_eviction (embedder : Embedder)
  (maxCacheSize : option Z) (text_ : string) (v0 v : list float)
  (rest : list (string * list float))
  (Hnew : Embedders.cache_get (("", v0) :: rest) text_ = None)
  (Hembed : embed embedder text_ = Returned v) :
  length (fst (Embedders.cached_embed embedder maxCacheSize text_
                 (("", v0) :: rest)))
  = S (length (("", v0) :: rest)) /\
  Embedders.cache_get
    (fst (Embedders.cached_embed embedder maxCacheSize text_ (("", v0) :: rest)))
    "" = Some v0.
Proof.
  unfold Embedders.cached_embed, bind, gets, liftO, modify, ret. cbn [fst snd].
  rewrite Hnew, Hembed. cbn [fst snd].
  assert (Hevict : Embedders.cache_evict (default 500 maxCacheSize)
                     (("", v0) :: rest) = ("", v0) :: rest).
  { unfold Embedders.cache_evict.
    destruct (Z.of_nat (length (("", v0) :: rest)) >=? default 500 maxCacheSize)%Z;
      reflexivity. }
  rewrite Hevict. split.
  - rewrite cache_set_length, Hnew. reflexivity.
  - simpl in Hnew. destruct text_ as [|c text_]; [discriminate |].
    reflexivity.
Qed.

Lemma cached_embedder_empty_key_blocks_eviction_witness :
  length (fst (Embedders.cached_embed Scenario.embedder_const (Some 1) "b"
                 [("", [1%float; 0%float])]))
  = 2%nat.
Proof.
  apply (cached_embedder_empty_key_blocks_eviction Scenario.embedder_const
           (Some 1) "b" [1%float; 0%float] [1%float; 0%float] []);
    reflexivity.
Defined.
